(** * facebook-scrape: the convergence-driven extraction engine

    A shallow embedding of the scraper's load loop, text and counter
    extraction, normalisers and de-duplication, with the properties of
    its specification stated and settled against the embedded code.

    Source files embedded here:
    - [scraper.js]            ([scrapeFacebookPage], [loadArticles],
                               [gotoWithRetry], [cleanText], [toNumber],
                               [extractReactions], [normalizeDigits],
                               [toNumberSmart], [extractFromHeaderChips])
    - [scraper-optimized.js]  ([scrapeFacebookPageOptimized],
                               [arabicToLatin], [extractPostText],
                               [extractEngagement])
    - [utils.js]              ([normalizeArabicDigits], [parseCount],
                               [parseDateToISO])
    - [api-server.js]         (the handler of [POST /api/scrape])

    Conventions.  A JavaScript number that holds a count is a [Z]; a
    JavaScript string is the list of its UTF-16 code units ([list Z]);
    [null]/[undefined] is [None]. *)

From Stdlib Require Import ZArith Lia List Bool Ascii String Sorted.
From stdpp Require Import base numbers option list gmap sets.

Local Open Scope Z_scope.

(** * 1. The load loop (Convergence Controller) *)

Module Convergence.

(** The two mutable variables of the loop, [let lastCount = 0; let stalls = 0]. *)
Record LoadState : Type := mkLoad { lastCount : Z; stalls : Z }.

Definition init : LoadState := mkLoad 0 0.

(** How a run of the loop ends: [break] on [count >= target], [break] on
    [stalls >= limit], or the loop condition [i < max] turning false. *)
Inductive Exit : Type := TargetReached | Stalled | Exhausted.

(** Outcome of one pass through the loop body. *)
Inductive Step : Type :=
| Continue (s : LoadState)
| Break (e : Exit) (s : LoadState).

(** Body of the loop in [loadArticles] (scraper.js), after the scroll
    actions, on the article count just read:
<<
    if (count >= target) break;
    if (count <= lastCount) { stalls += 1; } else { stalls = 0; lastCount = count; }
    if (stalls >= SCROLL_STALL_LIMIT) break;
>> *)
Definition loadArticles_body (target limit : Z) (s : LoadState) (count : Z) : Step :=
  if target <=? count then Break TargetReached s
  else
    let s' := if count <=? lastCount s
              then mkLoad (lastCount s) (stalls s + 1)
              else mkLoad count 0 in
    if limit <=? stalls s' then Break Stalled s' else Continue s'.

(** Body of the loop in [scrapeFacebookPageOptimized]:
<<
    if (count >= POSTS_TARGET) break;
    if (count <= lastCount) stalls++; else stalls = 0;
    lastCount = count;
    if (stalls >= 5) break;
>> *)
Definition optimized_body (target : Z) (s : LoadState) (count : Z) : Step :=
  if target <=? count then Break TargetReached s
  else
    let st := if count <=? lastCount s then stalls s + 1 else 0 in
    let s' := mkLoad count st in
    if 5 <=? stalls s' then Break Stalled s' else Continue s'.


(** Result of a run: why it ended, how many passes through the body were
    made, and the loop variables at that point. *)
Record LoopResult : Type :=
  mkResult { exit : Exit; iterations : nat; final : LoadState }.

Section ForLoop.
(** [counts i] is the article count that the page reports on pass [i]
    (what [page.$$eval('div[role="article"]', n => n.length)] returns
    after the [i]-th scroll). *)
Variable body : LoadState -> Z -> Step.
Variable counts : nat -> Z.

(** [for (let i = 0; i < max; i++) { body }], with [left] passes still
    allowed by the loop condition. *)
Fixpoint for_loop (left : nat) (i : nat) (s : LoadState) : LoopResult :=
  match left with
  | O => mkResult Exhausted i s
  | S left' =>
      match body s (counts i) with
      | Break e s' => mkResult e (S i) s'
      | Continue s' => for_loop left' (S i) s'
      end
  end.

(** The loop variables at the start of pass [k], when the loop gets that far. *)
Fixpoint state_at (k : nat) (i : nat) (s : LoadState) : option LoadState :=
  match k with
  | O => Some s
  | S k' =>
      match body s (counts i) with
      | Break _ _ => None
      | Continue s' => state_at k' (S i) s'
      end
  end.
End ForLoop.

(** [loadArticles(pg, target)] with [SCROLL_STALL_LIMIT = limit] and
    [SCROLL_MAX_LOOPS = maxLoops]. *)
Definition loadArticles (target limit maxLoops : Z) (counts : nat -> Z) : LoopResult :=
  for_loop (loadArticles_body target limit) counts (Z.to_nat maxLoops) 0 init.

(** The scroll loop of [scrapeFacebookPageOptimized]: at most 100 passes. *)
Definition optimized_load (target : Z) (counts : nat -> Z) : LoopResult :=
  for_loop (optimized_body target) counts 100 0 init.

End Convergence.

(** * 2. JavaScript strings and regular expressions *)

Module JS.

(** A string is the list of its UTF-16 code units. *)
Definition jsstring : Type := list Z.

(** The code units of an ASCII literal. *)
Definition str (s : String.string) : jsstring :=
  map (fun a => Z.of_N (Ascii.N_of_ascii a)) (String.list_ascii_of_string s).
Arguments str s%_string.

Definition in_range (lo hi c : Z) : bool := (lo <=? c) && (c <=? hi).

(** [\d] and [[0-9]] *)
Definition is_digit (c : Z) : bool := in_range 48 57 c.

(** [[\u0660-\u0669]], the Arabic-Indic digits *)
Definition is_arabic_digit (c : Z) : bool := in_range 0x660 0x669 c.

(** [\w]: [[A-Za-z0-9_]] *)
Definition is_word (c : Z) : bool :=
  in_range 97 122 c || in_range 65 90 c || is_digit c || (c =? 95).

(** [\s], and the characters removed by [String.prototype.trim]:
    WhiteSpace and LineTerminator of ECMA-262. *)
Definition is_space (c : Z) : bool :=
  in_range 9 13 c || (c =? 32) || (c =? 0xA0) || (c =? 0x1680)
  || in_range 0x2000 0x200A c || (c =? 0x2028) || (c =? 0x2029)
  || (c =? 0x202F) || (c =? 0x205F) || (c =? 0x3000) || (c =? 0xFEFF).

(** Canonicalize of ECMA-262 for an [/i] pattern without [/u]: the
    upper-case form of a code unit, except that a non-ASCII unit is never
    mapped to an ASCII one.  The patterns embedded below hold ASCII and
    Arabic characters only; the Arabic block has no case pairs, so for
    them comparing canonical forms is comparing after ASCII upper-casing. *)
Definition canon (c : Z) : Z := if in_range 97 122 c then c - 32 else c.

(** ** Regular expressions *)

Inductive regex : Type :=
| REmpty
| RChar (p : Z -> bool)
| RSeq (a b : regex)
| RAlt (a b : regex)
| RStar (a : regex)
| RGroup (n : nat) (a : regex)
| RWordB.

(** Pattern builders, named after the notation they stand for. *)
Definition chr (c : Z) : regex := RChar (Z.eqb c).
Definition chr_i (c : Z) : regex := RChar (fun x => canon x =? canon c).
Definition rplus (a : regex) : regex := RSeq a (RStar a).
Definition ropt (a : regex) : regex := RAlt a REmpty.
Fixpoint rseq (l : list regex) : regex :=
  match l with
  | [] => REmpty
  | [a] => a
  | a :: l' => RSeq a (rseq l')
  end.
Fixpoint ralt (l : list regex) : regex :=
  match l with
  | [] => RChar (fun _ => false)
  | [a] => a
  | a :: l' => RAlt a (ralt l')
  end.
Definition lit (s : jsstring) : regex := rseq (map chr s).
Definition lit_i (s : jsstring) : regex := rseq (map chr_i s).
Fixpoint rrep (n : nat) (a : regex) : regex :=
  match n with
  | O => REmpty
  | S O => a
  | S n' => RSeq a (rrep n' a)
  end.
Definition rdigit : regex := RChar is_digit.
Definition rspace : regex := RChar is_space.

(** Captures: the most recent span recorded for each group comes first. *)
Definition caps : Type := list (nat * (nat * nat)).

Fixpoint cap_lookup (n : nat) (c : caps) : option (nat * nat) :=
  match c with
  | [] => None
  | (m, sp) :: c' => if (m =? n)%nat then Some sp else cap_lookup n c'
  end.

Definition word_before (s : jsstring) (i : nat) : bool :=
  match i with
  | O => false
  | S i' => match s !! i' with Some x => is_word x | None => false end
  end.
Definition word_at (s : jsstring) (i : nat) : bool :=
  match s !! i with Some x => is_word x | None => false end.

(** [\b] holds where exactly one side is a word character. *)
Definition word_boundary (s : jsstring) (i : nat) : bool :=
  xorb (word_before s i) (word_at s i).

(** The backtracking matcher of ECMA-262, in continuation-passing style:
    [rmatch s r i c k] matches [r] in [s] from index [i] and hands the end
    index and captures to [k]; alternatives are tried left to right and
    the star is greedy.  An iteration of a star that consumes nothing is
    rejected, as the standard prescribes. *)
Fixpoint rmatch (s : jsstring) (r : regex) (i : nat) (c : caps)
    (k : nat -> caps -> option (nat * caps)) {struct r} : option (nat * caps) :=
  match r with
  | REmpty => k i c
  | RChar p =>
      match s !! i with
      | Some x => if p x then k (S i) c else None
      | None => None
      end
  | RSeq a b => rmatch s a i c (fun j c' => rmatch s b j c' k)
  | RAlt a b =>
      match rmatch s a i c k with
      | Some m => Some m
      | None => rmatch s b i c k
      end
  | RStar a =>
      (fix loop (fuel : nat) (i : nat) (c : caps) {struct fuel} : option (nat * caps) :=
         match fuel with
         | O => k i c
         | S fuel' =>
             match rmatch s a i c
                     (fun j c' => if (i <? j)%nat then loop fuel' j c' else None) with
             | Some m => Some m
             | None => k i c
             end
         end) (length s) i c
  | RGroup n a => rmatch s a i c (fun j c' => k j ((n, (i, j)) :: c'))
  | RWordB => if word_boundary s i then k i c else None
  end.

(** One match attempt anchored at [i]. *)
Definition match_at (s : jsstring) (r : regex) (i : nat) : option (nat * caps) :=
  rmatch s r i [] (fun j c => Some (j, c)).

(** A successful match: start, end, captures. *)
Record rmatch_result : Type := mkMatch { m_start : nat; m_end : nat; m_caps : caps }.

(** Leftmost match at or after [i], trying [tries + 1] start positions. *)
Fixpoint search_from (s : jsstring) (r : regex) (tries : nat) (i : nat) : option rmatch_result :=
  match match_at s r i with
  | Some (j, c) => Some (mkMatch i j c)
  | None =>
      match tries with
      | O => None
      | S t => search_from s r t (S i)
      end
  end.

(** [RegExp.prototype.exec] with [lastIndex = from]. *)
Definition re_exec (s : jsstring) (r : regex) (from : nat) : option rmatch_result :=
  if (from <=? length s)%nat then search_from s r (length s - from) from else None.

Definition substring (s : jsstring) (i j : nat) : jsstring := take (j - i) (drop i s).

(** [m[0]] and [m[n]] of a match array. *)
Definition m_whole (s : jsstring) (m : rmatch_result) : jsstring :=
  substring s (m_start m) (m_end m).
Definition m_group (s : jsstring) (m : rmatch_result) (n : nat) : option jsstring :=
  match cap_lookup n (m_caps m) with
  | Some (i, j) => Some (substring s i j)
  | None => None
  end.

(** [re.test(s)] *)
Definition re_test (r : regex) (s : jsstring) : bool :=
  match re_exec s r 0 with Some _ => true | None => false end.

(** [s.match(re)] for a pattern without the [g] flag. *)
Definition re_match (s : jsstring) (r : regex) : option rmatch_result := re_exec s r 0.

(** All matches of a [/g] pattern, left to right; after an empty match the
    search resumes one unit further. *)
Fixpoint matches_from (s : jsstring) (r : regex) (fuel : nat) (from : nat) : list rmatch_result :=
  match fuel with
  | O => []
  | S fuel' =>
      match re_exec s r from with
      | None => []
      | Some m =>
          m :: matches_from s r fuel'
                 (if (m_start m <? m_end m)%nat then m_end m else S (m_end m))
      end
  end.
Definition all_matches (s : jsstring) (r : regex) : list rmatch_result :=
  matches_from s r (S (length s)) 0.

(** [s.match(re)] for a [/g] pattern: [null] when nothing matches. *)
Definition re_match_g (s : jsstring) (r : regex) : option (list jsstring) :=
  match all_matches s r with
  | [] => None
  | ms => Some (map (m_whole s) ms)
  end.

(** [s.replace(re, f)] for a [/g] pattern; [f] receives the matched text. *)
Fixpoint replace_walk (s : jsstring) (f : jsstring -> jsstring)
    (ms : list rmatch_result) (pos : nat) : jsstring :=
  match ms with
  | [] => drop pos s
  | m :: ms' =>
      substring s pos (m_start m) ++ f (m_whole s m) ++ replace_walk s f ms' (m_end m)
  end.
Definition re_replace_g (s : jsstring) (r : regex) (f : jsstring -> jsstring) : jsstring :=
  replace_walk s f (all_matches s r) 0.

(** The capture groups of a pattern, in the order of their indices. *)
Fixpoint groups_of (r : regex) : list nat :=
  match r with
  | RSeq a b | RAlt a b => groups_of a ++ groups_of b
  | RStar a => groups_of a
  | RGroup n a => n :: groups_of a
  | _ => []
  end.

(** [s.split(re)] (RegExp.prototype[Symbol.split]): the pieces between
    the matches, with the captures of each separator spliced in; a match
    that would end where the current piece starts is skipped. *)
Fixpoint split_walk (s : jsstring) (r : regex) (fuel : nat) (p q : nat) : list (option jsstring) :=
  match fuel with
  | O => [Some (drop p s)]
  | S fuel' =>
      if (length s <=? q)%nat then [Some (drop p s)]
      else
        match match_at s r q with
        | None => split_walk s r fuel' p (S q)
        | Some (e, c) =>
            if (e =? p)%nat then split_walk s r fuel' p (S q)
            else
              Some (substring s p q)
              :: map (fun n => match cap_lookup n c with
                               | Some (i, j) => Some (substring s i j)
                               | None => None
                               end) (groups_of r)
              ++ split_walk s r fuel' e e
        end
  end.
Definition re_split (s : jsstring) (r : regex) : list (option jsstring) :=
  match s with
  | [] => match match_at s r 0 with Some _ => [] | None => [Some []] end
  | _ => split_walk s r (length s) 0 0
  end.

(** [s.trim()] *)
Fixpoint trim_start (s : jsstring) : jsstring :=
  match s with
  | c :: s' => if is_space c then trim_start s' else s
  | [] => []
  end.
Definition trim (s : jsstring) : jsstring := rev (trim_start (rev (trim_start s))).

(** [s.toLowerCase()].  Only the code units that the lower-casing maps
    into ASCII matter to the patterns applied afterwards: [A-Z], the
    Kelvin sign U+212A (to [k]) and U+0130 (to [i] followed by U+0307).
    The other cased letters are mapped among non-ASCII letters and are
    left as they are. *)
Definition lower_unit (c : Z) : jsstring :=
  if in_range 65 90 c then [c + 32]
  else if c =? 0x212A then [107]
  else if c =? 0x130 then [105; 0x307]
  else [c].
Definition toLowerCase (s : jsstring) : jsstring := concat (map lower_unit s).

(** A string is falsy exactly when it is empty. *)
Definition truthy (s : jsstring) : bool := match s with [] => false | _ => true end.

End JS.

(** * 3. The [Date] object (ECMA-262, section "Date Objects") *)

Module JSDate.
Import JS.

Definition msPerDay : Z := 86400000.
Definition msPerHour : Z := 3600000.
Definition msPerMinute : Z := 60000.
Definition msPerSecond : Z := 1000.

(** Time values are milliseconds since the epoch; [/] and [mod] on [Z]
    are the floor division and modulo of the standard. *)
Definition Day (t : Z) : Z := t / msPerDay.
Definition TimeWithinDay (t : Z) : Z := t mod msPerDay.

Definition is_leap (y : Z) : bool :=
  if negb (y mod 4 =? 0) then false
  else if negb (y mod 100 =? 0) then true
  else (y mod 400 =? 0).
Definition DaysInYear (y : Z) : Z := if is_leap y then 366 else 365.

Definition DayFromYear (y : Z) : Z :=
  365 * (y - 1970) + (y - 1969) / 4 - (y - 1901) / 100 + (y - 1601) / 400.

(** The largest [y] with [DayFromYear y <= d]: an estimate from the mean
    year length, corrected by one year either way. *)
Definition YearFromDay (d : Z) : Z :=
  let y := 1970 + (d * 400) / 146097 in
  if d <? DayFromYear y then y - 1
  else if DayFromYear (y + 1) <=? d then y + 1
  else y.

Definition YearFromTime (t : Z) : Z := YearFromDay (Day t).
Definition DayWithinYear (t : Z) : Z := Day t - DayFromYear (YearFromTime t).
Definition InLeapYear (t : Z) : Z := if is_leap (YearFromTime t) then 1 else 0.

(** Day number within the year on which month [m] (0-based) starts. *)
Definition month_start (leap : Z) (m : Z) : Z :=
  match m with
  | 0 => 0 | 1 => 31 | 2 => 59 + leap | 3 => 90 + leap | 4 => 120 + leap
  | 5 => 151 + leap | 6 => 181 + leap | 7 => 212 + leap | 8 => 243 + leap
  | 9 => 273 + leap | 10 => 304 + leap | 11 => 334 + leap
  | _ => 365 + leap
  end.

(** The month table of the standard, on the day within the year. *)
Definition month_of_day (leap : Z) (d : Z) : Z :=
  if d <? 31 then 0
  else if d <? 59 + leap then 1
  else if d <? 90 + leap then 2
  else if d <? 120 + leap then 3
  else if d <? 151 + leap then 4
  else if d <? 181 + leap then 5
  else if d <? 212 + leap then 6
  else if d <? 243 + leap then 7
  else if d <? 273 + leap then 8
  else if d <? 304 + leap then 9
  else if d <? 334 + leap then 10
  else 11.

Definition MonthFromTime (t : Z) : Z := month_of_day (InLeapYear t) (DayWithinYear t).
Definition DateFromTime (t : Z) : Z :=
  DayWithinYear t - month_start (InLeapYear t) (MonthFromTime t) + 1.

Definition HourFromTime (t : Z) : Z := (t / msPerHour) mod 24.
Definition MinFromTime (t : Z) : Z := (t / msPerMinute) mod 60.
Definition SecFromTime (t : Z) : Z := (t / msPerSecond) mod 60.
Definition msFromTime (t : Z) : Z := t mod msPerSecond.

Definition MakeTime (hour min sec ms : Z) : Z :=
  hour * msPerHour + min * msPerMinute + sec * msPerSecond + ms.

(** [MakeDay(year, month, date)]: the day number of the first of the
    month, plus [date - 1]; months beyond 0..11 carry into the year. *)
Definition MakeDay (year month date : Z) : Z :=
  let ym := year + month / 12 in
  let mn := month mod 12 in
  DayFromYear ym + month_start (if is_leap ym then 1 else 0) mn + date - 1.

Definition MakeDate (day time : Z) : Z := day * msPerDay + time.

(** [TimeClip]: time values beyond 8.64e15 ms are invalid ([NaN], here [None]). *)
Definition TimeClip (t : Z) : option Z :=
  if Z.abs t <=? 8640000000000000 then Some t else None.

(** The [w] lowest decimal digits of [n], most significant first. *)
Fixpoint digits_fixed (w : nat) (n : Z) : jsstring :=
  match w with
  | O => []
  | S w' => digits_fixed w' (n / 10) ++ [48 + n mod 10]
  end.

(** [Date.prototype.toISOString] on a valid time value:
    [YYYY-MM-DDTHH:mm:ss.sssZ], with the expanded year [±YYYYYY] outside
    0..9999. *)
Definition year_string (y : Z) : jsstring :=
  if (0 <=? y) && (y <=? 9999) then digits_fixed 4 y
  else (if 0 <=? y then 43 else 45) :: digits_fixed 6 (Z.abs y).

Definition toISOString (t : Z) : jsstring :=
  year_string (YearFromTime t) ++ [45] ++ digits_fixed 2 (MonthFromTime t + 1)
  ++ [45] ++ digits_fixed 2 (DateFromTime t)
  ++ [84] ++ digits_fixed 2 (HourFromTime t)
  ++ [58] ++ digits_fixed 2 (MinFromTime t)
  ++ [58] ++ digits_fixed 2 (SecFromTime t)
  ++ [46] ++ digits_fixed 3 (msFromTime t) ++ [90].

(** The canonical form [YYYY-MM-DDTHH:mm:ss.sssZ] of a date and time of
    day given by its fields (month and day counted from 1). *)
Definition iso_string (y mo d hh mi ss ms : Z) : jsstring :=
  digits_fixed 4 y ++ [45] ++ digits_fixed 2 mo ++ [45] ++ digits_fixed 2 d
  ++ [84] ++ digits_fixed 2 hh ++ [58] ++ digits_fixed 2 mi
  ++ [58] ++ digits_fixed 2 ss ++ [46] ++ digits_fixed 3 ms ++ [90].

(** Days of month [mo] (1..12) in year [y]. *)
Definition days_in_month (y mo : Z) : Z :=
  let leap := if is_leap y then 1 else 0 in
  month_start leap mo - month_start leap (mo - 1).

(** ** The Date Time String Format *)

(** Reads exactly [n] decimal digits. *)
Fixpoint take_digits (n : nat) (acc : Z) (s : jsstring) : option (Z * jsstring) :=
  match n with
  | O => Some (acc, s)
  | S n' =>
      match s with
      | c :: s' => if is_digit c then take_digits n' (10 * acc + (c - 48)) s' else None
      | [] => None
      end
  end.

(** The fields of a string in the format; an absent part has its default. *)
Record iso_fields : Type := mkIso {
  iso_year : Z; iso_month : Z; iso_day : Z;
  iso_has_time : bool;
  iso_hour : Z; iso_min : Z; iso_sec : Z; iso_ms : Z;
  iso_offset : option Z   (** minutes east of UTC; [None] when not given *)
}.

Inductive iso_parse : Type :=
| NotISO                      (** the string is not in the format *)
| ISO (f : iso_fields).

Definition expect (c : Z) (s : jsstring) : option jsstring :=
  match s with
  | x :: s' => if x =? c then Some s' else None
  | [] => None
  end.

(** [Z] or [±HH:mm], then the end of the string. *)
Definition parse_offset (s : jsstring) : option (option Z) :=
  match s with
  | [] => Some None
  | [90] => Some (Some 0)
  | sg :: s1 =>
      if (sg =? 43) || (sg =? 45) then
        match take_digits 2 0 s1 with
        | Some (hh, s2) =>
            match expect 58 s2 with
            | Some s3 =>
                match take_digits 2 0 s3 with
                | Some (mm, []) =>
                    Some (Some ((if sg =? 43 then 1 else -1) * (hh * 60 + mm)))
                | _ => None
                end
            | None => None
            end
        | None => None
        end
      else None
  end.

(** [THH:mm], [THH:mm:ss] or [THH:mm:ss.sss], then the offset. *)
Definition parse_time (y mo d : Z) (s : jsstring) : iso_parse :=
  match take_digits 2 0 s with
  | Some (hh, s1) =>
      match expect 58 s1 with
      | Some s2 =>
          match take_digits 2 0 s2 with
          | Some (mi, s3) =>
              let finish (ss ms : Z) (rest : jsstring) :=
                match parse_offset rest with
                | Some off => ISO (mkIso y mo d true hh mi ss ms off)
                | None => NotISO
                end in
              match expect 58 s3 with
              | Some s4 =>
                  match take_digits 2 0 s4 with
                  | Some (ss, s5) =>
                      match expect 46 s5 with
                      | Some s6 =>
                          match take_digits 3 0 s6 with
                          | Some (ms, s7) => finish ss ms s7
                          | None => NotISO
                          end
                      | None => finish ss 0 s5
                      end
                  | None => NotISO
                  end
              | None => finish 0 0 s3
              end
          | None => NotISO
          end
      | None => NotISO
      end
  | None => NotISO
  end.

(** [YYYY], [YYYY-MM] or [YYYY-MM-DD], then the end of the string or [T]
    and a time. *)
Definition parse_date_rest (y : Z) (s : jsstring) : iso_parse :=
  let date_end (mo d : Z) (rest : jsstring) :=
    match rest with
    | [] => ISO (mkIso y mo d false 0 0 0 0 None)
    | c :: rest' => if c =? 84 then parse_time y mo d rest' else NotISO
    end in
  match expect 45 s with
  | Some s1 =>
      match take_digits 2 0 s1 with
      | Some (mo, s2) =>
          match expect 45 s2 with
          | Some s3 =>
              match take_digits 2 0 s3 with
              | Some (d, s4) => date_end mo d s4
              | None => NotISO
              end
          | None => date_end mo 1 s2
          end
      | None => NotISO
      end
  | None => date_end 1 1 s
  end.

(** The year: four digits, or a sign and six digits. *)
Definition parse_iso (s : jsstring) : iso_parse :=
  match s with
  | sg :: s1 =>
      if (sg =? 43) || (sg =? 45) then
        match take_digits 6 0 s1 with
        | Some (y, s2) =>
            if (sg =? 45) && (y =? 0) then NotISO
            else parse_date_rest (if sg =? 43 then y else - y) s2
        | None => NotISO
        end
      else
        match take_digits 4 0 s with
        | Some (y, s2) => parse_date_rest y s2
        | None => NotISO
        end
  | [] => NotISO
  end.

(** Element values the format allows: month 01-12, day 01-31, hour 00-24
    (24 only as 24:00:00.000), minute and second 00-59, offset hour 00-23
    and minute 00-59 (checked on the absolute offset). *)
Definition iso_legal (f : iso_fields) : bool :=
  in_range 1 12 (iso_month f) && in_range 1 31 (iso_day f)
  && (in_range 0 23 (iso_hour f)
      || ((iso_hour f =? 24) && (iso_min f =? 0) && (iso_sec f =? 0) && (iso_ms f =? 0)))
  && in_range 0 59 (iso_min f) && in_range 0 59 (iso_sec f)
  && match iso_offset f with
     | Some o => (Z.abs o / 60 <=? 23) && (Z.abs o mod 60 <=? 59)
     | None => true
     end.

(** What the host contributes: the wall clock, the local time zone, the
    parser the engine falls back to for strings outside the format, and
    the Unicode property [\p{L}]. *)
Record Host : Type := mkHost {
  now : Z;
  LocalTime : Z -> Z;                     (** UTC time value to local *)
  UTC : Z -> Z;                           (** local time value to UTC *)
  fallback_parse : jsstring -> option Z;  (** implementation-defined *)
  unicode_letter : Z -> bool
}.

(** [Date.parse]: [None] is [NaN].  A string in the format with an
    illegal element value is [NaN]; without an offset a date-only form is
    UTC and a date-time form is local time. *)
Definition Date_parse (h : Host) (s : jsstring) : option Z :=
  match parse_iso s with
  | NotISO => match fallback_parse h s with Some t => TimeClip t | None => None end
  | ISO f =>
      if iso_legal f then
        let t := MakeDate (MakeDay (iso_year f) (iso_month f - 1) (iso_day f))
                          (MakeTime (iso_hour f) (iso_min f) (iso_sec f) (iso_ms f)) in
        TimeClip
          match iso_offset f with
          | Some o => t - o * msPerMinute
          | None => if iso_has_time f then UTC h t else t
          end
      else None
  end.

(** The local-time setters used by [parseDateToISO]; each rebuilds the
    local time value from its fields and converts back. *)
Definition setHours (h : Host) (t hour : Z) : option Z :=
  let l := LocalTime h t in
  TimeClip (UTC h (MakeDate (Day l) (MakeTime hour (MinFromTime l) (SecFromTime l) (msFromTime l)))).
Definition setMinutes (h : Host) (t min : Z) : option Z :=
  let l := LocalTime h t in
  TimeClip (UTC h (MakeDate (Day l) (MakeTime (HourFromTime l) min (SecFromTime l) (msFromTime l)))).
Definition setDate (h : Host) (t dt : Z) : option Z :=
  let l := LocalTime h t in
  TimeClip (UTC h (MakeDate (MakeDay (YearFromTime l) (MonthFromTime l) dt) (TimeWithinDay l))).
Definition setMonth (h : Host) (t m : Z) : option Z :=
  let l := LocalTime h t in
  TimeClip (UTC h (MakeDate (MakeDay (YearFromTime l) m (DateFromTime l)) (TimeWithinDay l))).
Definition setFullYear (h : Host) (t y : Z) : option Z :=
  let l := LocalTime h t in
  TimeClip (UTC h (MakeDate (MakeDay y (MonthFromTime l) (DateFromTime l)) (TimeWithinDay l))).
Definition setHours4 (h : Host) (t hour min sec ms : Z) : option Z :=
  let l := LocalTime h t in
  TimeClip (UTC h (MakeDate (Day l) (MakeTime hour min sec ms))).

(** A host in the UTC zone whose fallback parser recognises nothing. *)
Definition utc_host (clock : Z) : Host :=
  mkHost clock (fun t => t) (fun t => t) (fun _ => None)
         (fun c => in_range 65 90 c || in_range 97 122 c || in_range 0x620 0x64A c).

End JSDate.

(** * 4. utils.js: [parseCount] and [parseDateToISO] *)

Module Utils.
Import JS JSDate.

(** A call either returns or throws. *)
Inductive outcome (A : Type) : Type :=
| Return (a : A)
| Throw (message : jsstring).
Arguments Return {A} a.
Arguments Throw {A} message.

(** The longest prefix of decimal digits, and what follows it. *)
Fixpoint span_digits (s : jsstring) : jsstring * jsstring :=
  match s with
  | c :: s' =>
      if is_digit c then let '(d, r) := span_digits s' in (c :: d, r) else ([], s)
  | [] => ([], [])
  end.

Definition digits_value (ds : jsstring) : Z :=
  fold_left (fun acc c => 10 * acc + (c - 48)) ds 0.

(** [parseInt(s, 10)]: leading white space, a sign, then the longest run
    of digits; [NaN] ([None]) when there is no digit. *)
Definition parseInt (s : jsstring) : option Z :=
  let s1 := trim_start s in
  let '(sign, s2) :=
    match s1 with
    | c :: r => if c =? 45 then (-1, r) else if c =? 43 then (1, r) else (1, s1)
    | [] => (1, s1)
    end in
  match fst (span_digits s2) with
  | [] => None
  | ds => Some (sign * digits_value ds)
  end.

(** A decimal number [mantissa / 10 ^ scale].  The code computes with
    IEEE doubles; the embedding keeps the decimal exact, which gives the
    same integer whenever the product rounded by [Math.round] is
    representable, as it is for every value evaluated below. *)
Record decimal : Type := mkDec { mantissa : Z; scale : nat }.

(** [parseFloat] on a token of digits with an optional fraction, the only
    shape the call sites pass ([[0-9]+(?:\.[0-9]+)?]); [NaN] is [None]. *)
Definition parseFloat (s : jsstring) : option decimal :=
  let '(ip, r) := span_digits (trim_start s) in
  let whole := match ip with [] => None | _ => Some (mkDec (digits_value ip) 0) end in
  match r with
  | c :: r' =>
      if c =? 46 then
        let fp := fst (span_digits r') in
        match ip, fp with
        | [], [] => None
        | _, _ => Some (mkDec (digits_value (ip ++ fp)) (length fp))
        end
      else whole
  | [] => whole
  end.

(** [Math.round(num * factor)]: the nearest integer, halves upwards. *)
Definition round_scaled (num : decimal) (factor : Z) : Z :=
  (2 * mantissa num * factor + 10 ^ Z.of_nat (scale num)) / (2 * 10 ^ Z.of_nat (scale num)).

(** [arabicDigitMap] *)
Definition arabicDigitMap : list (Z * Z) :=
  [(0x660, 48); (0x661, 49); (0x662, 50); (0x663, 51); (0x664, 52);
   (0x665, 53); (0x666, 54); (0x667, 55); (0x668, 56); (0x669, 57)].

Fixpoint assoc (k : Z) (l : list (Z * Z)) : option Z :=
  match l with
  | [] => None
  | (a, b) :: l' => if a =? k then Some b else assoc k l'
  end.

(** [(s || '').replace(/[٠-٩]/g, (d) => arabicDigitMap[d] || d)] *)
Definition normalizeArabicDigits (s : jsstring) : jsstring :=
  re_replace_g s (RChar is_arabic_digit)
    (fun d => match d with
              | [c] => match assoc c arabicDigitMap with Some l => [l] | None => d end
              | _ => d
              end).

(** The magnitude words and suffixes. *)
Definition word_re (alts : list jsstring) : regex :=
  rseq [RWordB; RGroup 1 (ralt (map lit alts)); RWordB].

(** [/\b(الف|ألف)\b/] *)
Definition re_thousand : regex :=
  word_re [[0x627; 0x644; 0x641]; [0x623; 0x644; 0x641]].
(** [/\b(مليون|ملايين)\b/] *)
Definition re_million : regex :=
  word_re [[0x645; 0x644; 0x64A; 0x648; 0x646]; [0x645; 0x644; 0x627; 0x64A; 0x64A; 0x646]].
(** [/\b(مليار|مليارات)\b/] *)
Definition re_billion : regex :=
  word_re [[0x645; 0x644; 0x64A; 0x627; 0x631];
           [0x645; 0x644; 0x64A; 0x627; 0x631; 0x627; 0x62A]].
(** [/\bk\b/], [/\bm\b/], [/\bb\b/] *)
Definition re_k : regex := rseq [RWordB; chr 107; RWordB].
Definition re_m : regex := rseq [RWordB; chr 109; RWordB].
Definition re_b : regex := rseq [RWordB; chr 98; RWordB].

(** [/([0-9]+(?:\.[0-9]+)?)/] *)
Definition re_number : regex :=
  RGroup 1 (RSeq (rplus rdigit) (ropt (RSeq (chr 46) (rplus rdigit)))).

(** [parseCount(text)]: [None] for a [null] argument and for a [null] result. *)
Definition parseCount (text : option jsstring) : option Z :=
  match text with
  | None => None
  | Some t =>
      if negb (truthy t) then None
      else
        let s := toLowerCase (trim (normalizeArabicDigits t)) in
        let s := re_replace_g (re_replace_g s (chr 0x66B) (fun _ => [46]))
                              (chr 0x66C) (fun _ => []) in
        let factor :=
          if re_test re_thousand s then 1000
          else if re_test re_million s then 1000000
          else if re_test re_billion s then 1000000000
          else if re_test re_k s then 1000
          else if re_test re_m s then 1000000
          else if re_test re_b s then 1000000000
          else 1 in
        match re_match s re_number with
        | None =>
            let digitsOnly := re_replace_g s (RChar (fun c => negb (is_digit c))) (fun _ => []) in
            if negb (truthy digitsOnly) then None else parseInt digitsOnly
        | Some m =>
            match m_group s m 1 with
            | Some tok =>
                match parseFloat tok with
                | Some num => Some (round_scaled num factor)
                | None => None
                end
            | None => None
            end
        end
  end.

(** ** [parseDateToISO] *)

(** [/\d{4}-\d{2}-\d{2}T\d{2}:/i] *)
Definition re_iso_like : regex :=
  rseq [rrep 4 rdigit; chr 45; rrep 2 rdigit; chr 45; rrep 2 rdigit;
        chr_i 84; rrep 2 rdigit; chr 58].

(** The unit words of the relative form. *)
Definition u_s : jsstring := [0x633].
Definition u_saa : jsstring := [0x633; 0x627; 0x639; 0x629].
Definition u_sa : jsstring := [0x633; 0x627].
Definition u_d : jsstring := [0x62F].
Definition u_daqiqa : jsstring := [0x62F; 0x642; 0x64A; 0x642; 0x629].
Definition u_y : jsstring := [0x64A].
Definition u_yawm : jsstring := [0x64A; 0x648; 0x645].
Definition u_sana : jsstring := [0x633; 0x646; 0x629].

(** [/([0-9]+)\s*(س|ساعة|h|سا|د|دقيقة|m|ي|يوم|d|y|سنة)/i] *)
Definition re_relative : regex :=
  rseq [RGroup 1 (rplus rdigit); RStar rspace;
        RGroup 2 (ralt (map lit_i
          [u_s; u_saa; str "h"; u_sa; u_d; u_daqiqa; str "m"; u_y; u_yawm;
           str "d"; str "y"; u_sana]))].

(** The table [months]. *)
Definition months : list (jsstring * Z) :=
  [([0x64A; 0x646; 0x627; 0x64A; 0x631], 0);
   ([0x641; 0x628; 0x631; 0x627; 0x64A; 0x631], 1);
   ([0x645; 0x627; 0x631; 0x633], 2);
   ([0x623; 0x628; 0x631; 0x64A; 0x644], 3);
   ([0x627; 0x628; 0x631; 0x64A; 0x644], 3);
   ([0x623; 0x64A; 0x627; 0x631], 4);
   ([0x645; 0x627; 0x64A; 0x648], 4);
   ([0x64A; 0x648; 0x646; 0x64A; 0x648], 5);
   ([0x64A; 0x648; 0x644; 0x64A; 0x648], 6);
   ([0x623; 0x63A; 0x633; 0x637; 0x633], 7);
   ([0x627; 0x63A; 0x633; 0x637; 0x633], 7);
   ([0x633; 0x628; 0x62A; 0x645; 0x628; 0x631], 8);
   ([0x623; 0x643; 0x62A; 0x648; 0x628; 0x631], 9);
   ([0x627; 0x643; 0x62A; 0x648; 0x628; 0x631], 9);
   ([0x646; 0x648; 0x641; 0x645; 0x628; 0x631], 10);
   ([0x62F; 0x64A; 0x633; 0x645; 0x628; 0x631], 11)].

Definition jsstring_eqb (a b : jsstring) : bool := bool_decide (a = b).

Fixpoint table_lookup (k : jsstring) (l : list (jsstring * Z)) : option Z :=
  match l with
  | [] => None
  | (a, v) :: l' => if jsstring_eqb a k then Some v else table_lookup k l'
  end.

(** Letter-only property names that [months[monName]] finds on
    [Object.prototype] when the table has no such key; the value is then a
    function and [setMonth] makes the date invalid. *)
Definition inherited_names : list jsstring :=
  map str ["constructor"; "toString"; "valueOf"; "hasOwnProperty";
           "isPrototypeOf"; "propertyIsEnumerable"; "toLocaleString"]%string.

(** [al-saa], the word between the date and the clock time. *)
Definition w_alsaa : jsstring := [0x627; 0x644; 0x633; 0x627; 0x639; 0x629].

(** [/(\d{1,2})\s+(\p{L}+)\s+الساعة\s+(\d{1,2}):(\d{2})\s*(ص|م)?/u].  A
    letter outside the Basic Multilingual Plane is two code units here,
    neither of them a letter. *)
Definition re_absolute (h : Host) : regex :=
  rseq [RGroup 1 (RSeq rdigit (ropt rdigit)); rplus rspace;
        RGroup 2 (rplus (RChar (unicode_letter h))); rplus rspace;
        lit w_alsaa; rplus rspace;
        RGroup 3 (RSeq rdigit (ropt rdigit)); chr 58; RGroup 4 (rrep 2 rdigit);
        RStar rspace; ropt (RGroup 5 (ralt [chr 0x635; chr 0x645]))].

(** [d.toISOString()] on a date that may be invalid. *)
Definition toISOString_or_throw (t : option Z) : outcome (option jsstring) :=
  match t with
  | Some t => Return (Some (toISOString t))
  | None => Throw (str "Invalid time value")
  end.

Definition int_of (o : option jsstring) : Z :=
  match o with
  | Some s => match parseInt s with Some n => n | None => 0 end
  | None => 0
  end.

Definition parseDateToISO (h : Host) (dateStr : option jsstring) : outcome (option jsstring) :=
  match dateStr with
  | None => Return None
  | Some ds =>
      if negb (truthy ds) then Return None
      else
        let s := trim (normalizeArabicDigits ds) in
        if re_test re_iso_like s then
          match Date_parse h s with
          | None => Return None
          | Some t => Return (Some (toISOString t))
          end
        else
          match re_match s re_relative with
          | Some rel =>
              let n := int_of (m_group s rel 1) in
              let unit := toLowerCase (default [] (m_group s rel 2)) in
              let t := now h in
              let member l := existsb (jsstring_eqb unit) l in
              toISOString_or_throw
                (if member [u_s; u_saa; str "h"; u_sa]
                 then setHours h t (HourFromTime (LocalTime h t) - n)
                 else if member [u_d; u_daqiqa; str "m"]
                 then setMinutes h t (MinFromTime (LocalTime h t) - n)
                 else if member [u_y; u_yawm; str "d"]
                 then setDate h t (DateFromTime (LocalTime h t) - n)
                 else if member [str "y"; u_sana]
                 then setFullYear h t (YearFromTime (LocalTime h t) - n)
                 else Some t)
          | None =>
              match re_match s (re_absolute h) with
              | Some abs =>
                  let day := int_of (m_group s abs 1) in
                  let monName := default [] (m_group s abs 2) in
                  let hour := int_of (m_group s abs 3) in
                  let minute := int_of (m_group s abs 4) in
                  let period := trim (default [] (m_group s abs 5)) in
                  match table_lookup monName months with
                  | Some month =>
                      let hh := hour mod 12 in
                      let hh := if jsstring_eqb period [0x645] then hh + 12 else hh in
                      toISOString_or_throw
                        (t1 ← setMonth h (now h) month;
                         t2 ← setDate h t1 day;
                         setHours4 h t2 hh minute 0 0)
                  | None =>
                      if existsb (jsstring_eqb monName) inherited_names
                      then Throw (str "Invalid time value")
                      else Return None
                  end
              | None => Return None
              end
          end
  end.

End Utils.

(** * 5. The page as the scrapers see it *)

Module Dom.
Import JS.

(** What the extraction code reads from one [div[role="article"]]. *)
Record Article : Type := mkArticle {
  innerText : jsstring;              (** [article.innerText || ''] *)
  ariaLabels : list jsstring;        (** [aria-label] of each descendant carrying one *)
  spanTexts : list jsstring;         (** [textContent || ''] of each [span] *)
  timeDatetime : option (jsstring * jsstring);
    (** the first [time[datetime]]: its [datetime] attribute and its text *)
  aTime : option (option jsstring * jsstring);
    (** the first [a time]: its [datetime] attribute, if any, and its text *)
  linkText : option jsstring         (** text of the first [a[role="link"]] *)
}.

(** What the browser does during one run. *)
Record Browser : Type := mkBrowser {
  login_result : option jsstring;    (** [Some m]: [login()] throws [m] *)
  goto_result : option jsstring;     (** [Some m]: navigation to the page throws [m] *)
  heading : option jsstring;         (** the page title read from the heading *)
  header_counts : option Z * option Z;  (** followers and likes read from the page *)
  counts : nat -> Z;                 (** article count read on scroll pass [i] *)
  articles : list Article            (** the articles present at extraction *)
}.

(** The calls to the outside, in the order they are made. *)
Inductive event : Type :=
| ELogin
| EGoto (url : jsstring)
| EReadHeader
| EScrollLoop (passes : nat)
| EExtractPosts
| EClose.

End Dom.

(** * 6. scraper.js: [scrapeFacebookPage] *)

Module Scraper.
Import JS JSDate Utils Dom.

(** [toNumber] of the extraction script. *)
Definition re_k_suffix : regex :=
  rseq [RGroup 1 (RSeq (rplus rdigit) (ropt (RSeq (chr 46) (rplus rdigit))));
        RStar rspace; chr 107].
Definition re_m_suffix : regex :=
  rseq [RGroup 1 (RSeq (rplus rdigit) (ropt (RSeq (chr 46) (rplus rdigit))));
        RStar rspace; chr 109].

Definition scaled (tok : option jsstring) (factor : Z) : option Z :=
  match tok with
  | Some t => match parseFloat t with
              | Some num => Some (round_scaled num factor)
              | None => None
              end
  | None => None
  end.

Definition toNumber (raw : option jsstring) : option Z :=
  match raw with
  | None => None
  | Some r =>
      if negb (truthy r) then None
      else
        let s := toLowerCase (normalizeArabicDigits r) in
        match re_match s re_k_suffix, re_match s re_m_suffix with
        | Some mK, _ => scaled (m_group s mK 1) 1000
        | None, Some mM => scaled (m_group s mM 1) 1000000
        | None, None =>
            parseInt (re_replace_g s (RChar (fun c => (c =? 44) || is_space c)) (fun _ => []))
        end
  end.

(** [/عرض المزيد|See more/gi] *)
Definition re_see_more : regex :=
  ralt [lit_i [0x639; 0x631; 0x636; 32; 0x627; 0x644; 0x645; 0x632; 0x64A; 0x62F];
        lit_i (str "See more")].

(** [/(أعجبني|تعليق|مشاركة|Like|Comment|Share)/i] *)
Definition splitOn : regex :=
  RGroup 1 (ralt [lit_i [0x623; 0x639; 0x62C; 0x628; 0x646; 0x64A];
                  lit_i [0x62A; 0x639; 0x644; 0x64A; 0x642];
                  lit_i [0x645; 0x634; 0x627; 0x631; 0x643; 0x629];
                  lit_i (str "Like"); lit_i (str "Comment"); lit_i (str "Share")]).

(** [parts[0] || t] *)
Definition first_part_or (parts : list (option jsstring)) (t : jsstring) : jsstring :=
  match parts with
  | Some p :: _ => if truthy p then p else t
  | _ => t
  end.

(** [x.replace(/\s+/g, ' ').trim()] *)
Definition collapse (x : jsstring) : jsstring :=
  trim (re_replace_g x (rplus rspace) (fun _ => [32])).

Definition cleanText (t : jsstring) : jsstring :=
  if negb (truthy t) then []
  else
    let t := re_replace_g t re_see_more (fun _ => [32]) in
    collapse (first_part_or (re_split t splitOn) t).

(** [[0-9٠-٩,.]] *)
Definition count_char (c : Z) : bool :=
  is_digit c || is_arabic_digit c || (c =? 44) || (c =? 46).

(** [/كل\s*التفاعلات\s*[:：]?\s*([0-9٠-٩,.]+)/] *)
Definition re_all_reactions : regex :=
  rseq [lit [0x643; 0x644]; RStar rspace;
        lit [0x627; 0x644; 0x62A; 0x641; 0x627; 0x639; 0x644; 0x627; 0x62A];
        RStar rspace; ropt (RChar (fun c => (c =? 58) || (c =? 0xFF1A)));
        RStar rspace; RGroup 1 (rplus (RChar count_char))].

(** [/أعجبني|تفاع|react|like|likes/i] *)
Definition re_reaction_label : regex :=
  ralt [lit_i [0x623; 0x639; 0x62C; 0x628; 0x646; 0x64A];
        lit_i [0x62A; 0x641; 0x627; 0x639];
        lit_i (str "react"); lit_i (str "like"); lit_i (str "likes")].

(** [/([0-9٠-٩,.]+\s*[kKmM]?)/] *)
Definition re_count_token : regex :=
  RGroup 1 (rseq [rplus (RChar count_char); RStar rspace;
                  ropt (RChar (fun c => (c =? 107) || (c =? 75) || (c =? 109) || (c =? 77)))]).

(** [/[0-9٠-٩]/] *)
Definition re_any_digit : regex := RChar (fun c => is_digit c || is_arabic_digit c).

(** [/أعجبني|like|تفاع/i] *)
Definition re_reaction_word : regex :=
  ralt [lit_i [0x623; 0x639; 0x62C; 0x628; 0x646; 0x64A];
        lit_i (str "like");
        lit_i [0x62A; 0x641; 0x627; 0x639]].

(** [(x.match(re) || [null, null])[1]] *)
Definition group1 (x : jsstring) (r : regex) : option jsstring :=
  match re_match x r with
  | Some m => m_group x m 1
  | None => None
  end.

(** The loop over the labels: the first label that names a reaction and
    yields a number decides. *)
Fixpoint scan_labels (labels : list jsstring) : option Z :=
  match labels with
  | [] => None
  | lbl :: rest =>
      if negb (truthy lbl) then scan_labels rest
      else if re_test re_reaction_label lbl then
        match toNumber (group1 lbl re_count_token) with
        | Some v => Some v
        | None => scan_labels rest
        end
      else scan_labels rest
  end.

(** The loop over the filtered spans. *)
Fixpoint scan_spans (spans : list jsstring) : option Z :=
  match spans with
  | [] => None
  | s :: rest =>
      match toNumber (group1 s re_count_token) with
      | Some v => Some v
      | None => scan_spans rest
      end
  end.

Definition extractReactions (a : Article) : option Z :=
  let text := innerText a in
  match re_match text re_all_reactions with
  | Some m => toNumber (m_group text m 1)
  | None =>
      match scan_labels (ariaLabels a) with
      | Some v => Some v
      | None =>
          scan_spans
            (List.filter (fun s => re_test re_any_digit s
                                   && re_test re_reaction_word (text ++ [32] ++ s))
                         (spanTexts a))
      end
  end.

(** [[A-Za-z؀-ۿ]] *)
Definition name_char (c : Z) : bool :=
  in_range 65 90 c || in_range 97 122 c || in_range 0x600 0x6FF c.

(** [(?:س|د|ي|h|d|m|y)] *)
Definition re_short_unit : regex :=
  ralt [chr 0x633; chr 0x62F; chr 0x64A; chr 104; chr 100; chr 109; chr 121].

(** [\d{1,2}\s+[A-Za-z؀-ۿ]+\s+الساعة\s+\d{1,2}:\d{2}\s*], the
    part the two date patterns share. *)
Definition re_day_month_time : regex :=
  rseq [RSeq rdigit (ropt rdigit); rplus rspace; rplus (RChar name_char); rplus rspace;
        lit w_alsaa; rplus rspace; RSeq rdigit (ropt rdigit); chr 58; rrep 2 rdigit;
        RStar rspace].

(** The pattern applied to the link text. *)
Definition re_link_date : regex :=
  RGroup 1 (ralt [rseq [rplus (RChar (fun c => is_digit c || is_arabic_digit c));
                        RStar rspace; re_short_unit];
                  RSeq re_day_month_time (ropt (rplus (RChar name_char)))]).

(** The pattern applied to the first 300 units of the article text. *)
Definition re_text_date : regex :=
  RGroup 1 (ralt [RSeq re_day_month_time (RStar (RChar name_char));
                  rseq [rplus (RChar (fun c => is_digit c || is_arabic_digit c));
                        RStar rspace; RGroup 2 re_short_unit]]).

(** [article.querySelector('time[datetime]') || article.querySelector('a time')] *)
Definition timeEl (a : Article) : option (option jsstring * jsstring) :=
  match timeDatetime a with
  | Some (attr, txt) => Some (Some attr, txt)
  | None => aTime a
  end.

Definition extractDate (a : Article) : option jsstring :=
  let from_time :=
    match timeEl a with
    | Some (attr, txt) =>
        let dt := match attr with
                  | Some d => if truthy d then d else txt
                  | None => txt
                  end in
        if truthy dt then Some (trim dt) else None
    | None => None
    end in
  match from_time with
  | Some d => Some d
  | None =>
      let from_link :=
        match linkText a with
        | Some txt => group1 txt re_link_date
        | None => None
        end in
      match from_link with
      | Some d => Some d
      | None => group1 (take 300 (innerText a)) re_text_date
      end
  end.

(** A post as the extraction script returns it. *)
Record Post : Type := mkPost {
  text : jsstring;
  reactions : option Z;
  date : option jsstring
}.

Definition to_post (a : Article) : Post :=
  mkPost (cleanText (innerText a)) (extractReactions a) (extractDate a).

(** [.filter((p) => p.text && p.text.length > 0)] *)
Definition has_text (p : Post) : bool := truthy (text p) && (0 <? Z.of_nat (length (text p))).

(** The loop over [arr] with the set [seen]. *)
Fixpoint unique_from (seen : gset jsstring) (arr : list Post) : list Post :=
  match arr with
  | [] => []
  | p :: arr' =>
      if decide (text p ∈ seen) then unique_from seen arr'
      else p :: unique_from ({[text p]} ∪ seen) arr'
  end.

(** The script run by [page.$$eval('div[role="article"]', ...)]. *)
Definition extractPosts (nodes : list Article) : list Post :=
  unique_from ∅ (List.filter has_text (map to_post nodes)).

(** [arr.slice(0, end)]: a negative [end] counts from the end. *)
Definition slice0 {A : Type} (l : list A) (e : Z) : list A :=
  let len := Z.of_nat (length l) in
  take (Z.to_nat (if e <? 0 then Z.max (len + e) 0 else Z.min e len)) l.

(** An enriched post: [{ ...p, dateISO: parseDateToISO(p.date) || null }]. *)
Record EnrichedPost : Type := mkEnriched {
  post : Post;
  dateISO : option jsstring
}.

Definition or_null (o : option jsstring) : option jsstring :=
  match o with
  | Some s => if truthy s then Some s else None
  | None => None
  end.

(** [posts.slice(0, POSTS_TARGET).map(...)]: the first call that throws
    ends the map. *)
Fixpoint enrich (h : Host) (ps : list Post) : outcome (list EnrichedPost) :=
  match ps with
  | [] => Return []
  | p :: ps' =>
      match parseDateToISO h (date p) with
      | Throw m => Throw m
      | Return iso =>
          match enrich h ps' with
          | Throw m => Throw m
          | Return es => Return (mkEnriched p (or_null iso) :: es)
          end
      end
  end.

Record Meta : Type := mkMeta { postsTarget : Z; loadedArticles : Z }.

Record Result : Type := mkScrape {
  page : option jsstring;
  followers : option Z;
  likes : option Z;
  posts : list EnrichedPost;
  scrapedAt : jsstring;
  url : jsstring;
  meta : Meta
}.

(** The result has no [targetReached] field: what it tells the caller
    about the target is [meta.loadedArticles] against [meta.postsTarget]. *)
Definition reports_target_reached (r : Result) : bool :=
  postsTarget (meta r) <=? loadedArticles (meta r).

(** The options object, with the defaults of the destructuring. *)
Record Options : Type := mkOptions {
  FB_PAGE_URL : option jsstring;
  POSTS_TARGET : option Z;
  SCROLL_STALL_LIMIT : option Z;
  SCROLL_MAX_LOOPS : option Z
}.
Definition posts_target (o : Options) : Z := default 100 (POSTS_TARGET o).
Definition stall_limit (o : Options) : Z := default 10 (SCROLL_STALL_LIMIT o).
Definition max_loops (o : Options) : Z := default 300 (SCROLL_MAX_LOOPS o).

(** [sanitizeText] *)
Definition sanitizeText (s : jsstring) : jsstring :=
  trim (re_replace_g (re_replace_g s (chr 0x200B) (fun _ => []))
                     (rplus rspace) (fun _ => [32])).

(** [scrapeFacebookPage(options)]: the outcome and the calls made to the
    outside.  Reading the title, the followers and the likes, and saving
    the result to a file, are the browser's and the file system's part
    and appear as [EReadHeader] and the fields of [Browser]. *)
Definition scrapeFacebookPage (h : Host) (b : Browser) (o : Options)
    : outcome Result * list event :=
  match FB_PAGE_URL o with
  | None => (Throw (str "FB_PAGE_URL is required"), [])
  | Some u =>
      if negb (truthy u) then (Throw (str "FB_PAGE_URL is required"), [])
      else
        match login_result b with
        | Some m => (Throw m, [ELogin])
        | None =>
            match goto_result b with
            | Some m => (Throw m, [ELogin; EGoto u; EClose])
            | None =>
                let run := Convergence.loadArticles (posts_target o) (stall_limit o)
                             (max_loops o) (counts b) in
                let found := extractPosts (articles b) in
                let evs := [ELogin; EGoto u; EReadHeader;
                            EScrollLoop (Convergence.iterations run);
                            EExtractPosts; EClose] in
                match enrich h (slice0 found (posts_target o)) with
                | Throw m => (Throw m, evs)
                | Return enriched =>
                    (Return (mkScrape
                               (match heading b with
                                | Some t => if truthy t then Some (sanitizeText t) else None
                                | None => None
                                end)
                               (fst (header_counts b)) (snd (header_counts b))
                               enriched
                               (toISOString (now h))
                               u
                               (mkMeta (posts_target o) (Z.of_nat (length found)))),
                     evs)
                end
            end
        end
  end.

End Scraper.

(** * 7. scraper-optimized.js: [scrapeFacebookPageOptimized] *)

Module Optimized.
Import JS JSDate Utils Dom.

(** A JavaScript number here is [Some n], and [None] is [NaN]. *)
Definition js_add (a b : option Z) : option Z :=
  match a, b with
  | Some x, Some y => Some (x + y)
  | _, _ => None
  end.

(** [arabicToLatin]: ten replacements, one per digit. *)
Definition arabicToLatin (s : jsstring) : jsstring :=
  fold_left (fun acc d => re_replace_g acc (chr (0x660 + d)) (fun _ => [48 + d]))
            [0; 1; 2; 3; 4; 5; 6; 7; 8; 9] s.

(** [extractPostText] *)
Definition extractPostText (a : Article) : jsstring :=
  let t := re_replace_g (innerText a) Scraper.re_see_more (fun _ => []) in
  Scraper.collapse (Scraper.first_part_or (re_split t Scraper.splitOn) t).

Inductive Metric : Type := Reactions | Comments | Shares.

(** [/كل التفاعلات:/i] *)
Definition re_label : regex :=
  lit_i [0x643; 0x644; 32; 0x627; 0x644; 0x62A; 0x641; 0x627; 0x639; 0x644; 0x627; 0x62A; 58].

(** [/كل\s*التفاعلات:\s*/i] *)
Definition re_label_split : regex :=
  rseq [lit_i [0x643; 0x644]; RStar rspace;
        lit_i [0x627; 0x644; 0x62A; 0x641; 0x627; 0x639; 0x644; 0x627; 0x62A; 58];
        RStar rspace].

(** [/\b(\d+)\b/g] *)
Definition re_numbers : regex := rseq [RWordB; RGroup 1 (rplus rdigit); RWordB].

(** [/(\d+)/] *)
Definition re_first_number : regex := RGroup 1 (rplus rdigit).

(** [/اعجاب|like|تفاعل|react/i], [/تعليق|comment|رد/i], [/مشاركة|share/i] *)
Definition re_metric (m : Metric) : regex :=
  match m with
  | Reactions => ralt [lit_i [0x627; 0x639; 0x62C; 0x627; 0x628]; lit_i (str "like");
                       lit_i [0x62A; 0x641; 0x627; 0x639; 0x644]; lit_i (str "react")]
  | Comments => ralt [lit_i [0x62A; 0x639; 0x644; 0x64A; 0x642]; lit_i (str "comment");
                      lit_i [0x631; 0x62F]]
  | Shares => ralt [lit_i [0x645; 0x634; 0x627; 0x631; 0x643; 0x629]; lit_i (str "share")]
  end.

(** Strategy 1, on the numbers after the label: [Some v] is [return v],
    [None] is falling through to the next strategy. *)
Definition from_numbers (numbers : list jsstring) (metric : Metric) : option (option Z) :=
  match numbers with
  | n0 :: _ :: n2 :: n3 :: _ =>
      Some (parseInt match metric with Reactions => n0 | Comments => n2 | Shares => n3 end)
  | n0 :: n1 :: _ =>
      Some match metric with
           | Reactions => parseInt n0
           | Comments => parseInt n1
           | Shares => Some 0
           end
  | [n0] => match metric with Reactions => Some (parseInt n0) | _ => None end
  | [] => None
  end.

Definition strategy_label (a : Article) (metric : Metric) : option (option Z) :=
  let allText := innerText a in
  let normalizedText := arabicToLatin allText in
  if re_test re_label allText then
    match re_split normalizedText re_label_split !! 1%nat with
    | Some (Some afterLabel) =>
        if truthy afterLabel then
          match re_match_g afterLabel re_numbers with
          | Some numbers => from_numbers numbers metric
          | None => None
          end
        else None
    | _ => None
    end
  else None.

(** Strategy 2: the first label naming the metric and holding a number. *)
Fixpoint strategy_aria (labels : list jsstring) (metric : Metric) : option (option Z) :=
  match labels with
  | [] => None
  | l :: rest =>
      let label := arabicToLatin (toLowerCase l) in
      if re_test (re_metric metric) label then
        match re_match label re_first_number with
        | Some m => Some (parseInt (default [] (m_group label m 1)))
        | None => strategy_aria rest metric
        end
      else strategy_aria rest metric
  end.

Definition extractEngagement (a : Article) (metric : Metric) : option Z :=
  match strategy_label a metric with
  | Some v => v
  | None =>
      match strategy_aria (ariaLabels a) metric with
      | Some v => v
      | None => Some 0
      end
  end.

(** [/(\d{1,2}\s+[A-Za-z؀-ۿ]+\s+الساعة\s+\d{1,2}:\d{2}|[0-9٠-٩]+\s*[سدي]|[0-9٠-٩]+\s*[hd])/u] *)
Definition re_date : regex :=
  let num := rplus (RChar (fun c => is_digit c || is_arabic_digit c)) in
  RGroup 1 (ralt [rseq [RSeq rdigit (ropt rdigit); rplus rspace;
                        rplus (RChar Scraper.name_char); rplus rspace;
                        lit w_alsaa; rplus rspace;
                        RSeq rdigit (ropt rdigit); chr 58; rrep 2 rdigit];
                  rseq [num; RStar rspace;
                        RChar (fun c => (c =? 0x633) || (c =? 0x62F) || (c =? 0x64A))];
                  rseq [num; RStar rspace; RChar (fun c => (c =? 104) || (c =? 100))]]).

Definition extractDate (a : Article) : option jsstring :=
  match timeDatetime a with
  | Some (attr, _) => Some attr
  | None => Scraper.group1 (innerText a) re_date
  end.

Record Post : Type := mkPost {
  id : Z;
  text : jsstring;
  reactions : option Z;
  comments : option Z;
  shares : option Z;
  total_engagement : option Z;
  date : option jsstring
}.

(** The function mapped over [nodes]. *)
Definition to_post (idx : nat) (a : Article) : Post :=
  let text := extractPostText a in
  let reactions := extractEngagement a Reactions in
  let comments := extractEngagement a Comments in
  let shares := extractEngagement a Shares in
  let date := extractDate a in
  let totalEngagement := js_add (js_add reactions comments) shares in
  mkPost (Z.of_nat idx + 1)
         (if truthy text then text else str "N/A")
         reactions comments shares totalEngagement
         (Scraper.or_null date).

(** [p => p.text && p.text !== 'N/A' && p.text.length > 5] *)
Definition keep (p : Post) : bool :=
  truthy (text p) && negb (jsstring_eqb (text p) (str "N/A"))
  && (5 <? Z.of_nat (length (text p))).

Definition extractPosts (nodes : list Article) : list Post :=
  List.filter keep (imap to_post nodes).

(** [posts.reduce((sum, p) => sum + p.field, 0)] *)
Definition sum_of (field : Post -> option Z) (ps : list Post) : option Z :=
  fold_left (fun sum p => js_add sum (field p)) ps (Some 0).

(** [posts.length > 0 ? Math.round(sum / posts.length) : 0] *)
Definition average (field : Post -> option Z) (ps : list Post) : option Z :=
  match ps with
  | [] => Some 0
  | _ =>
      let n := Z.of_nat (length ps) in
      match sum_of field ps with
      | Some s => Some ((2 * s + n) / (2 * n))
      | None => None
      end
  end.

(** [posts.reduce((best, p) => p.total_engagement > best.total_engagement ? p : best)] *)
Definition best_post (ps : list Post) : option Post :=
  match ps with
  | [] => None
  | p0 :: rest =>
      Some (fold_left
              (fun best p =>
                 match total_engagement p, total_engagement best with
                 | Some x, Some y => if y <? x then p else best
                 | _, _ => best
                 end) rest p0)
  end.

Record Summary : Type := mkSummary {
  total_posts : Z;
  total_reactions : option Z;
  total_comments : option Z;
  total_shares : option Z;
  avg_reactions : option Z;
  avg_comments : option Z;
  avg_shares : option Z;
  best : option Post
}.

Record Result : Type := mkScrape {
  page_name : option jsstring;
  page_url : jsstring;
  posts : list Post;
  summary : Summary;
  scraped_at : jsstring
}.

Record Options : Type := mkOptions {
  FB_PAGE_URL : option jsstring;
  POSTS_TARGET : option Z
}.
Definition posts_target (o : Options) : Z := default 10 (POSTS_TARGET o).

(** [scrapeFacebookPageOptimized(options)]: the outcome and the calls
    made to the outside. *)
Definition scrapeFacebookPageOptimized (h : Host) (b : Browser) (o : Options)
    : outcome Result * list event :=
  match FB_PAGE_URL o with
  | None => (Throw (str "FB_PAGE_URL is required"), [])
  | Some u =>
      if negb (truthy u) then (Throw (str "FB_PAGE_URL is required"), [])
      else
        match login_result b with
        | Some m => (Throw m, [ELogin])
        | None =>
            match goto_result b with
            | Some m => (Throw m, [ELogin; EGoto u; EClose])
            | None =>
                let run := Convergence.optimized_load (posts_target o) (counts b) in
                let found := extractPosts (articles b) in
                (Return (mkScrape
                           (heading b) u
                           (Scraper.slice0 found (posts_target o))
                           (mkSummary (Z.of_nat (length found))
                              (sum_of reactions found) (sum_of comments found)
                              (sum_of shares found)
                              (average reactions found) (average comments found)
                              (average shares found)
                              (best_post found))
                           (toISOString (now h))),
                 [ELogin; EGoto u; EReadHeader;
                  EScrollLoop (Convergence.iterations run); EExtractPosts; EClose])
            end
        end
  end.

End Optimized.

(** * 8. What a pattern matches *)

Module Matching.
Import JS.

(** [matches s r i c j c']: in [s], the span from [i] to [j] is a match
    of [r] that turns the captures [c] into [c'].  The relation has no
    priorities: it holds of every way the pattern can match. *)
Inductive matches (s : jsstring) : regex -> nat -> caps -> nat -> caps -> Prop :=
| M_empty i c : matches s REmpty i c i c
| M_char p i c x :
    s !! i = Some x -> p x = true -> matches s (RChar p) i c (S i) c
| M_seq a b i c j c' k c'' :
    matches s a i c j c' -> matches s b j c' k c'' -> matches s (RSeq a b) i c k c''
| M_alt_l a b i c j c' : matches s a i c j c' -> matches s (RAlt a b) i c j c'
| M_alt_r a b i c j c' : matches s b i c j c' -> matches s (RAlt a b) i c j c'
| M_star_nil a i c : matches s (RStar a) i c i c
| M_star_cons a i c j c' k c'' :
    matches s a i c j c' -> (i < j)%nat -> matches s (RStar a) j c' k c'' ->
    matches s (RStar a) i c k c''
| M_group n a i c j c' :
    matches s a i c j c' -> matches s (RGroup n a) i c j ((n, (i, j)) :: c')
| M_wordb i c : word_boundary s i = true -> matches s RWordB i c i c.

(** Every code unit of the span from [i] to [j] satisfies [p]. *)
Definition span_all (p : Z -> bool) (s : jsstring) (i j : nat) : Prop :=
  forall n, (i <= n < j)%nat -> exists x, s !! n = Some x /\ p x = true.

(** A non-empty string of decimal digits. *)
Definition digit_string (x : jsstring) : Prop :=
  x <> [] /\ Forall (fun c => is_digit c = true) x.

End Matching.

(** * 8a. scraper.js: [gotoWithRetry] *)

Module Navigator.
Import JS.

(** What a call of [gotoWithRetry] does to the outside: a navigation, or
    a pause of so many milliseconds. *)
Inductive nav_event : Type :=
| NavGoto (url : jsstring)
| NavSleep (ms : Z).

(** How the call ends: [page.goto] returned on attempt [i]; the error of
    the last attempt is thrown; or the loop ran out and the function
    returns [undefined]. *)
Inductive nav_outcome : Type :=
| NavResponse (attempt : nat)
| NavThrow (message : jsstring)
| NavUndefined.

(** [for (let i = 0; i < maxRetries; i++) { try { return await page.goto(url, options); }
      catch (err) { if (i === maxRetries - 1) throw err; await sleep(1000 * (i + 1)); } }]
    with [left] passes still allowed; [goto i] is [Some err] when attempt
    [i] throws [err]. *)
Fixpoint retry_from (goto : nat -> option jsstring) (url : jsstring) (maxRetries : Z)
    (left : nat) (i : nat) : nav_outcome * list nav_event :=
  match left with
  | O => (NavUndefined, [])
  | S left' =>
      match goto i with
      | None => (NavResponse i, [NavGoto url])
      | Some err =>
          if Z.of_nat i =? maxRetries - 1 then (NavThrow err, [NavGoto url])
          else
            let '(o, evs) := retry_from goto url maxRetries left' (S i) in
            (o, NavGoto url :: NavSleep (1000 * (Z.of_nat i + 1)) :: evs)
      end
  end.

Definition gotoWithRetry (goto : nat -> option jsstring) (url : jsstring)
    (maxRetries : Z) : nav_outcome * list nav_event :=
  retry_from goto url maxRetries (Z.to_nat maxRetries) 0.

(** The navigations and the pauses of a trace. *)
Definition is_goto (e : nav_event) : bool :=
  match e with NavGoto _ => true | NavSleep _ => false end.
Definition sleep_of (e : nav_event) : Z :=
  match e with NavGoto _ => 0 | NavSleep ms => ms end.
Definition gotos (evs : list nav_event) : nat := length (List.filter is_goto evs).
Definition slept (evs : list nav_event) : Z := fold_right Z.add 0 (map sleep_of evs).

End Navigator.

(** * 8b. Quantities the properties speak of *)

Module Measures.
Import JS.

(** The largest count read on the passes before pass [k], and 0. *)
Fixpoint max_seen (counts : nat -> Z) (k : nat) : Z :=
  match k with
  | O => 0
  | S k' => Z.max (max_seen counts k') (counts k')
  end.

(** The count read on the pass before pass [k], and 0 before the first. *)
Definition last_seen (counts : nat -> Z) (k : nat) : Z :=
  match k with
  | O => 0
  | S k' => counts k'
  end.

(** The first and the last code unit of a non-empty string are not white space. *)
Definition trimmed (s : jsstring) : Prop :=
  match s with
  | [] => True
  | c :: _ => is_space c = false /\ exists d, last s = Some d /\ is_space d = false
  end.

(** The Latin digit for an Arabic-Indic one; other code units are kept. *)
Definition latin_digit (c : Z) : Z := if is_arabic_digit c then c - 0x660 + 48 else c.

(** The records of the optimized scraper in the order of their [id]. *)
Definition id_lt (p q : Optimized.Post) : Prop := Optimized.id p < Optimized.id q.


End Measures.

(** * 8c. Shapes of texts and of relative dates *)

Module Shapes.
Import JS JSDate Utils Measures.

(** A digit, Latin or Arabic-Indic. *)
Definition digitish (c : Z) : Prop := is_digit c = true \/ is_arabic_digit c = true.

(** A blank or a small ASCII letter. *)
Definition tail_char (c : Z) : Prop := c = 32 \/ 97 <= c <= 122.

(** A digit, a comma or white space. *)
Definition group_char (c : Z) : Prop := digitish c \/ c = 44 \/ is_space c = true.

(** [/([0-9]+(?:\.[0-9]+)?)\s*u/], the shape of the two suffix patterns of
    [toNumber]. *)
Definition suffix_re (u : Z) : regex :=
  rseq [RGroup 1 (RSeq (rplus rdigit) (ropt (RSeq (chr 46) (rplus rdigit))));
        RStar rspace; chr u].

(** The four things [parseDateToISO] does with a relative date. *)
Inductive rel_unit : Type := Hours | Minutes | Days | Years.

(** The letters a unit of the relative pattern can begin with, and what
    the lists of [parseDateToISO] make of each. *)
Definition unit_of_letter (u : Z) : option rel_unit :=
  if (u =? 0x633) || (u =? 104) || (u =? 72) then Some Hours
  else if (u =? 0x62F) || (u =? 109) || (u =? 77) then Some Minutes
  else if (u =? 0x64A) || (u =? 100) || (u =? 68) then Some Days
  else if (u =? 121) || (u =? 89) then Some Years
  else None.

(** [d.setHours(d.getHours() - n)] and its like on the clock time. *)
Definition shifted (h : Host) (k : rel_unit) (n : Z) : option Z :=
  let t := now h in
  match k with
  | Hours => setHours h t (HourFromTime (LocalTime h t) - n)
  | Minutes => setMinutes h t (MinFromTime (LocalTime h t) - n)
  | Days => setDate h t (DateFromTime (LocalTime h t) - n)
  | Years => setFullYear h t (YearFromTime (LocalTime h t) - n)
  end.

(** The length of a unit in milliseconds; a year has none that is fixed. *)
Definition unit_ms (k : rel_unit) : Z :=
  match k with
  | Hours => msPerHour
  | Minutes => msPerMinute
  | Days => msPerDay
  | Years => 0
  end.

(** The alternatives of the unit, in the order of the relative pattern. *)
Definition unit_alts : regex :=
  ralt (map lit_i
          [u_s; u_saa; str "h"; u_sa; u_d; u_daqiqa; str "m"; u_y; u_yawm;
           str "d"; str "y"; u_sana]).

(** 1 in a leap year, 0 otherwise. *)
Definition leap_days (y : Z) : Z := if is_leap y then 1 else 0.

(** Each run of [p] replaced by one [b]; [inrun] says that the unit
    before was of the run. *)
Fixpoint squeeze (p : Z -> bool) (b : Z) (inrun : bool) (l : jsstring) : jsstring :=
  match l with
  | [] => []
  | c :: l' =>
      if p c then (if inrun then squeeze p b true l' else b :: squeeze p b true l')
      else c :: squeeze p b false l'
  end.

(** Every white-space unit of [l] is a blank that does not follow white
    space; [prev] says that the unit before [l] was white space. *)
Fixpoint spaced (prev : bool) (l : jsstring) : Prop :=
  match l with
  | [] => True
  | c :: l' => (is_space c = true -> c = 32 /\ prev = false) /\ spaced (is_space c) l'
  end.

(** White space occurs only as single blanks. *)
Definition single_spaced (l : jsstring) : Prop := spaced false l.

(** A code unit the normalisation steps of [parseCount] leave as it is. *)
Definition plain_unit (c : Z) : Prop :=
  latin_digit c = c /\ lower_unit c = [c] /\ c <> 0x66B /\ c <> 0x66C.

(** The six tests of [parseCount] for a magnitude. *)
Definition factor_of (s : jsstring) : Z :=
  if re_test re_thousand s then 1000
  else if re_test re_million s then 1000000
  else if re_test re_billion s then 1000000000
  else if re_test re_k s then 1000
  else if re_test re_m s then 1000000
  else if re_test re_b s then 1000000000
  else 1.

(** The six Arabic words for a magnitude. *)
Definition magnitude_words : list jsstring :=
  [[0x627; 0x644; 0x641]; [0x623; 0x644; 0x641];
   [0x645; 0x644; 0x64A; 0x648; 0x646]; [0x645; 0x644; 0x627; 0x64A; 0x64A; 0x646];
   [0x645; 0x644; 0x64A; 0x627; 0x631]; [0x645; 0x644; 0x64A; 0x627; 0x631; 0x627; 0x62A]].

(** A pattern without alternatives and repetitions. *)
Fixpoint plain_pattern (r : regex) : bool :=
  match r with
  | REmpty | RChar _ | RWordB => true
  | RSeq a b => plain_pattern a && plain_pattern b
  | RGroup _ a => plain_pattern a
  | RAlt _ _ | RStar _ => false
  end.

End Shapes.

(** * 8d. api-server.js: [POST /api/scrape] *)

Module Api.
Import JS JSDate Utils Dom.





End Api.

(** * 8e. scraper.js: the header scan ([toNumberSmart], [extractFromHeaderChips]) *)

Module Header.
Import JS JSDate Utils.

(** [normalizeDigits] of the header scan: digits, the decimal separator
    and the thousands separator. *)
Definition normalizeDigits (s : jsstring) : jsstring :=
  re_replace_g (re_replace_g (normalizeArabicDigits s) (chr 0x66B) (fun _ => [46]))
               (chr 0x66C) (fun _ => []).

(** [[kmb]] under [/i] *)
Definition kmb (c : Z) : bool := (canon c =? 75) || (canon c =? 77) || (canon c =? 66).

(** [/([0-9]+(?:\.[0-9]+)?)(\s*[kmb])?/i] *)
Definition re_smart : regex :=
  RSeq (RGroup 1 (RSeq (rplus rdigit) (ropt (RSeq (chr 46) (rplus rdigit)))))
       (ropt (RGroup 2 (RSeq (RStar rspace) (RChar kmb)))).

(** The factor of a suffix. *)
Definition suffix_factor (suf : jsstring) : Z :=
  if jsstring_eqb suf (str "k") then 1000
  else if jsstring_eqb suf (str "m") then 1000000
  else if jsstring_eqb suf (str "b") then 1000000000
  else 1.

(** [Math.round(parseFloat(tok) * factor)]; [NaN] is [None]. *)
Definition rounded (tok : jsstring) (factor : Z) : option Z :=
  match parseFloat tok with
  | Some num => Some (round_scaled num factor)
  | None => None
  end.

(** What [toNumberSmart] does when its first pattern has not matched. *)
Definition smart_fallback (s : jsstring) : option Z :=
  let factor :=
    if re_test re_thousand s then 1000
    else if re_test re_million s then 1000000
    else if re_test re_billion s then 1000000000
    else 1 in
  let digits :=
    let digitsOnly := re_replace_g s (RChar (fun c => negb (is_digit c))) (fun _ => []) in
    if negb (truthy digitsOnly) then None else parseInt digitsOnly in
  match Scraper.group1 s re_number with
  | Some numOnly => if truthy numOnly then rounded numOnly factor else digits
  | None => digits
  end.

(** [toNumberSmart] *)
Definition toNumberSmart (raw : option jsstring) : option Z :=
  match raw with
  | None => None
  | Some r =>
      if negb (truthy r) then None
      else
        let s := toLowerCase (normalizeDigits r) in
        match re_match s re_smart with
        | Some m =>
            let suf := toLowerCase (trim (default [] (m_group s m 2))) in
            match m_group s m 1 with
            | Some tok => rounded tok (suffix_factor suf)
            | None => None
            end
        | None => smart_fallback s
        end
  end.

(** [/\bيتابع(?:ون)?\b/] *)
Definition re_following : regex :=
  rseq [RWordB; lit [0x64A; 0x62A; 0x627; 0x628; 0x639]; ropt (lit [0x648; 0x646]); RWordB].

(** [/\bالمتابعون\b/i] *)
Definition re_followers_ar : regex :=
  rseq [RWordB; lit_i [0x627; 0x644; 0x645; 0x62A; 0x627; 0x628; 0x639; 0x648; 0x646];
        RWordB].

(** [/followers/i] *)
Definition re_followers_en : regex := lit_i (str "followers").

(** The Arabic words for likes that the chip pattern names. *)
Definition likes_words : list jsstring :=
  [[0x627; 0x644; 0x625; 0x639; 0x62C; 0x627; 0x628; 0x627; 0x62A];
   [0x627; 0x644; 0x627; 0x639; 0x62C; 0x627; 0x628; 0x627; 0x62A];
   [0x625; 0x639; 0x62C; 0x627; 0x628; 0x627; 0x62A];
   [0x625; 0x639; 0x62C; 0x627; 0x628]].

(** [/\b(الإعجابات|الاعجابات|إعجابات|إعجاب|likes)\b/i] *)
Definition re_likes_label : regex :=
  rseq [RWordB; RGroup 1 (ralt (map lit_i (likes_words ++ [str "likes"]))); RWordB].

(** [/\blikes\b/i], the one alternative of the pattern in ASCII. *)
Definition re_likes_en : regex := rseq [RWordB; lit_i (str "likes"); RWordB].

(** [if (n != null) x = Math.max(x ?? 0, n)] *)
Definition raise (cur n : option Z) : option Z :=
  match n with
  | Some v => Some (Z.max (default 0 cur) v)
  | None => cur
  end.

(** The loop over the chips. *)
Fixpoint chips_loop (chips : list jsstring) (followers likes : option Z)
    : option Z * option Z :=
  match chips with
  | [] => (followers, likes)
  | t :: rest =>
      if re_test re_following t then chips_loop rest followers likes
      else
        let followers' :=
          if re_test re_followers_ar t || re_test re_followers_en t
          then raise followers (toNumberSmart (Some t)) else followers in
        let likes' :=
          if re_test re_likes_label t
          then raise likes (toNumberSmart (Some t)) else likes in
        chips_loop rest followers' likes'
  end.

(** [.map((el) => (el.textContent || '').replace(/\s+/g, ' ').trim()).filter(Boolean)] *)
Definition chip_texts (texts : list jsstring) : list jsstring :=
  List.filter truthy (map Scraper.collapse texts).

(** [extractFromHeaderChips()], on the text contents of the elements the
    selector finds. *)
Definition extractFromHeaderChips (texts : list jsstring) : option Z * option Z :=
  chips_loop (chip_texts texts) None None.

(** No Arabic letter is written directly after an ASCII letter, a digit
    or an underscore. *)
Fixpoint natural (t : jsstring) : bool :=
  match t with
  | x :: t' =>
      match t' with
      | y :: _ => negb (is_word x && in_range 0x600 0x6FF y) && natural t'
      | [] => true
      end
  | [] => true
  end.

End Header.

(** * 9. Properties of the load loop *)

Module ConvergenceFacts.
Import Convergence.

Section Runs.
Variable body : LoadState -> Z -> Step.
Variable counts : nat -> Z.

(** The loop condition bounds the number of passes. *)
Lemma for_loop_bounded left i s :
  (iterations (for_loop body counts left i s) <= i + left)%nat.
Proof.
  revert i s. induction left as [|left IH]; intros i s; simpl; [lia|].
  destruct (body s (counts i)) as [s'|e s']; simpl; [|lia].
  specialize (IH (S i) s'). lia.
Qed.

(** A pass that breaks ends the run there. *)
Lemma for_loop_reaches k : forall left i s s0 e s',
  state_at body counts k i s = Some s0 ->
  (k < left)%nat ->
  body s0 (counts (i + k)%nat) = Break e s' ->
  for_loop body counts left i s = mkResult e (S (i + k)) s'.
Proof.
  induction k as [|k IH]; intros left i s s0 e s' Hat Hlt Hb; simpl in Hat.
  - injection Hat as ->. destruct left as [|left]; [lia|]. simpl.
    rewrite Nat.add_0_r in Hb. rewrite Hb. by rewrite Nat.add_0_r.
  - destruct left as [|left]; [lia|]. simpl.
    destruct (body s (counts i)) as [s1|e1 s1]; [|discriminate].
    rewrite (IH left (S i) s1 s0 e s'); [|done|lia|].
    + do 2 f_equal. lia.
    + by replace (S i + k)%nat with (i + S k)%nat by lia.
Qed.
End Runs.

(** The states a run of either loop passes through have a non-negative
    stall counter. *)
Definition known_body (target : Z) (body : LoadState -> Z -> Step) : Prop :=
  (exists limit, body = loadArticles_body target limit) \/ body = optimized_body target.





(** Either loop makes at most as many passes as its ceiling allows,
    whatever the page does. *)
Lemma load_loops_terminate target limit maxLoops counts :
  (iterations (loadArticles target limit maxLoops counts) <= Z.to_nat maxLoops)%nat /\
  (iterations (optimized_load target counts) <= 100)%nat.
Proof.
  split; [apply (for_loop_bounded _ counts (Z.to_nat maxLoops) 0 init)
         |apply (for_loop_bounded _ counts 100 0 init)].
Qed.










(** A pass that reads a count at or above the target ends the run of
    either loop at that pass, with the loop variables untouched. *)
Lemma target_ends_run target body counts k left s :
  known_body target body ->
  state_at body counts k 0 init = Some s ->
  (k < left)%nat ->
  target <= counts k ->
  for_loop body counts left 0 init = mkResult TargetReached (S k) s.
Proof.
  intros Hb Hat Hk Ht.
  apply (for_loop_reaches body counts k left 0 init s TargetReached s Hat Hk).
  simpl. destruct Hb as [[limit ->] | ->]; unfold loadArticles_body, optimized_body;
    by destruct (Z.leb_spec target (counts k)); [|lia].
Qed.

End ConvergenceFacts.

(** * 10. Properties of the matcher *)

Module MatchingFacts.
Import JS Matching.

(** Whatever the matcher finds is a match. *)
Lemma rmatch_sound s r : forall i c k res,
  rmatch s r i c k = Some res ->
  exists j c', matches s r i c j c' /\ k j c' = Some res.
Proof.
  induction r as [|p|a IHa b IHb|a IHa b IHb|a IHa|n a IHa|]; intros i c k res H; simpl in H.
  - exists i, c. split; [constructor|done].
  - destruct (s !! i) as [x|] eqn:Hx; [|discriminate].
    destruct (p x) eqn:Hp; [|discriminate].
    exists (S i), c. split; [by econstructor|done].
  - apply IHa in H as (j & c' & Ha & H).
    apply IHb in H as (j' & c'' & Hb & H).
    exists j', c''. split; [by econstructor|done].
  - destruct (rmatch s a i c k) as [m|] eqn:E.
    + injection H as ->. apply IHa in E as (j & c' & Ha & E).
      exists j, c'. split; [by apply M_alt_l|done].
    + apply IHb in H as (j & c' & Hb & H).
      exists j, c'. split; [by apply M_alt_r|done].
  - revert i c H. generalize (length s) as fuel.
    induction fuel as [|fuel IHf]; intros i c H.
    + exists i, c. split; [apply M_star_nil|done].
    + destruct (rmatch s a i c _) as [m|] eqn:E.
      * injection H as ->. apply IHa in E as (j & c' & Ha & E).
        destruct (Nat.ltb_spec i j) as [Hij|]; [|discriminate].
        apply IHf in E as (j' & c'' & Hs & E).
        exists j', c''. split; [by eapply M_star_cons|done].
      * exists i, c. split; [apply M_star_nil|done].
  - apply IHa in H as (j & c' & Ha & H).
    exists j, ((n, (i, j)) :: c'). split; [by constructor|done].
  - destruct (word_boundary s i) eqn:Hw; [|discriminate].
    exists i, c. split; [by constructor|done].
Qed.

Lemma match_at_sound s r i j c :
  match_at s r i = Some (j, c) -> matches s r i [] j c.
Proof.
  intros H. apply rmatch_sound in H as (j' & c' & Hm & H). by injection H as -> ->.
Qed.

Lemma search_from_sound s r : forall tries i m,
  search_from s r tries i = Some m ->
  matches s r (m_start m) [] (m_end m) (m_caps m).
Proof.
  induction tries as [|t IH]; intros i m H; simpl in H;
    destruct (match_at s r i) as [[j c]|] eqn:E.
  - injection H as <-. by apply match_at_sound.
  - discriminate.
  - injection H as <-. by apply match_at_sound.
  - by eapply IH.
Qed.

Lemma re_exec_sound s r from m :
  re_exec s r from = Some m -> matches s r (m_start m) [] (m_end m) (m_caps m).
Proof.
  unfold re_exec. destruct (from <=? length s)%nat; [|discriminate].
  apply search_from_sound.
Qed.


(** A match lies within the string and does not run backwards. *)
Lemma matches_bounds s r i c j c' :
  matches s r i c j c' -> (i <= length s)%nat -> (i <= j <= length s)%nat.
Proof.
  induction 1; intros Hi.
  all: try match goal with H : _ !! _ = Some _ |- _ => apply lookup_lt_Some in H end.
  all: try (specialize (IHmatches Hi)).
  all: try (specialize (IHmatches1 Hi);
            assert (Hj : (j <= length s)%nat) by lia; specialize (IHmatches2 Hj)).
  all: lia.
Qed.

(** ** Taking a match apart *)

Lemma seq_inv s a b i c k c'' :
  matches s (RSeq a b) i c k c'' ->
  exists j c', matches s a i c j c' /\ matches s b j c' k c''.
Proof. inversion 1; subst; eauto. Qed.

Lemma group_inv s n a i c j c2 :
  matches s (RGroup n a) i c j c2 ->
  exists c', matches s a i c j c' /\ c2 = (n, (i, j)) :: c'.
Proof. inversion 1; subst; eauto. Qed.


Lemma char_inv s p i c j c' :
  matches s (RChar p) i c j c' ->
  j = S i /\ c' = c /\ exists x, s !! i = Some x /\ p x = true.
Proof. inversion 1; subst; eauto. Qed.

(** ** Runs of one character class *)

Lemma star_class_inv s p i c j c' :
  matches s (RStar (RChar p)) i c j c' ->
  (i <= j)%nat /\ span_all p s i j /\ c' = c.
Proof.
  remember (RStar (RChar p)) as r eqn:Hr. intros H.
  induction H as [| | | | | a i c | a i c j c' k c'' Ha _ Hij Hs IH | |]; try discriminate.
  - split; [lia|]. split; [|done]. intros n Hn. lia.
  - injection Hr as ->. specialize (IH eq_refl) as (Hjk & Hall & ->).
    inversion Ha as [| p' i' c0 x Hx Hp | | | | | | |]; subst.
    split; [lia|]. split; [|done].
    intros n Hn. destruct (decide (n = i)) as [->|Hne]; [by exists x|].
    apply Hall. lia.
Qed.

Lemma plus_class_inv s p i c j c' :
  matches s (rplus (RChar p)) i c j c' ->
  (i < j)%nat /\ span_all p s i j /\ c' = c.
Proof.
  intros H. apply seq_inv in H as (j1 & c1 & Ha & Hb).
  apply char_inv in Ha as (-> & -> & x & Hx & Hp).
  apply star_class_inv in Hb as (Hle & Hall & ->).
  split; [lia|]. split; [|done].
  intros n Hn. destruct (decide (n = i)) as [->|Hne]; [by exists x|].
  apply Hall. lia.
Qed.

Lemma substring_span_all p s i j :
  span_all p s i j -> (i <= j)%nat ->
  length (substring s i j) = (j - i)%nat /\
  Forall (fun x => p x = true) (substring s i j).
Proof.
  intros Hall Hij. unfold substring. split.
  - rewrite length_take, length_drop.
    destruct (decide (i = j)) as [->|Hne]; [lia|].
    destruct (Hall (j - 1)%nat) as (x & Hx & _); [lia|].
    apply lookup_lt_Some in Hx. lia.
  - apply Forall_forall. intros x Hx.
    apply list_elem_of_lookup in Hx as [n Hn].
    rewrite lookup_take_Some in Hn. destruct Hn as [Hn Hlt].
    rewrite lookup_drop in Hn.
    destruct (Hall (i + n)%nat) as (y & Hy & Hp); [lia|].
    assert (E : Some x = Some y) by (rewrite <- Hn; exact Hy).
    by injection E as ->.
Qed.

End MatchingFacts.

(** * 11. Properties of utils.js *)

Module UtilsFacts.
Import JS JSDate Utils Matching MatchingFacts.

Lemma is_digit_range c : is_digit c = true <-> 48 <= c <= 57.
Proof. unfold is_digit, in_range. rewrite andb_true_iff, !Z.leb_le. tauto. Qed.

Lemma digit_not_space c : is_digit c = true -> is_space c = false.
Proof.
  rewrite is_digit_range. intros Hc. unfold is_space, in_range.
  repeat match goal with
         | |- context [?a <=? ?b] => destruct (Z.leb_spec a b); try lia
         | |- context [?a =? ?b] => destruct (Z.eqb_spec a b); try lia
         end; reflexivity.
Qed.

Lemma span_digits_all x :
  Forall (fun c => is_digit c = true) x -> span_digits x = (x, []).
Proof.
  induction 1 as [|c x Hc _ IH]; simpl; [done|]. by rewrite Hc, IH.
Qed.

Lemma span_digits_none x :
  Forall (fun c => is_digit c = false) x -> fst (span_digits x) = [].
Proof. destruct 1 as [|c x Hc _]; simpl; [done|]. by rewrite Hc. Qed.

Lemma digits_value_nonneg x :
  Forall (fun c => is_digit c = true) x -> 0 <= digits_value x.
Proof.
  unfold digits_value. intros H.
  assert (G : forall acc, 0 <= acc ->
                0 <= fold_left (fun a c => 10 * a + (c - 48)) x acc); [|by apply G].
  induction H as [|c x Hc _ IH]; intros acc Hacc; simpl; [done|].
  apply IH. apply is_digit_range in Hc. lia.
Qed.


(** [parseInt] of a string without digits is [NaN]. *)
Lemma parseInt_no_digit x :
  Forall (fun c => is_digit c = false) x -> parseInt x = None.
Proof.
  intros Hall. unfold parseInt.
  assert (Ht : Forall (fun c => is_digit c = false) (trim_start x)).
  { induction Hall as [|c x Hc Hx IH]; simpl; [constructor|].
    destruct (is_space c); [done|by constructor]. }
  destruct (trim_start x) as [|c r]; [done|].
  pose proof (Forall_inv_tail Ht) as Hr.
  destruct (c =? 45); [by rewrite span_digits_none|].
  destruct (c =? 43); by rewrite span_digits_none.
Qed.

(** ** What [replace] and [trim] keep *)

Section Keeps.
Variable P : Z -> Prop.

Lemma substring_keeps s i j : Forall P s -> Forall P (substring s i j).
Proof. intros H. unfold substring. by apply Forall_take, Forall_drop. Qed.

Lemma replace_walk_keeps s f ms : forall pos,
  Forall P s -> (forall m, Forall P m -> Forall P (f m)) ->
  Forall P (replace_walk s f ms pos).
Proof.
  induction ms as [|m ms IH]; intros pos Hs Hf; simpl.
  - by apply Forall_drop.
  - apply Forall_app. split; [by apply substring_keeps|].
    apply Forall_app. split; [|by apply IH].
    apply Hf. by apply substring_keeps.
Qed.

Lemma re_replace_g_keeps s r f :
  Forall P s -> (forall m, Forall P m -> Forall P (f m)) ->
  Forall P (re_replace_g s r f).
Proof. apply replace_walk_keeps. Qed.

Lemma trim_start_keeps s : Forall P s -> Forall P (trim_start s).
Proof.
  induction 1 as [|c s Hc Hs IH]; simpl; [constructor|].
  destruct (is_space c); [done|by constructor].
Qed.

Lemma trim_keeps s : Forall P s -> Forall P (trim s).
Proof.
  intros H. unfold trim.
  apply Forall_rev, trim_start_keeps, Forall_rev, trim_start_keeps, H.
Qed.
End Keeps.

(** A pattern that needs a digit finds nothing in a string without one. *)
Lemma re_number_needs_digit s :
  Forall (fun c => is_digit c = false) s -> re_match s re_number = None.
Proof.
  intros Hall. unfold re_match.
  destruct (re_exec s re_number 0) as [m|] eqn:E; [|done]. exfalso.
  apply re_exec_sound in E. unfold re_number in E.
  apply group_inv in E as (c1 & Hg & _).
  apply seq_inv in Hg as (j1 & c2 & Ha & _).
  apply plus_class_inv in Ha as (Hlt & Hspan & _).
  destruct (Hspan (m_start m)) as (x & Hx & Hd); [lia|].
  rewrite Forall_lookup in Hall. specialize (Hall _ _ Hx). simpl in Hall. congruence.
Qed.

Definition no_digit (c : Z) : Prop := is_digit c = false /\ is_arabic_digit c = false.

Lemma normalizeArabicDigits_no_digit t :
  Forall no_digit t -> Forall no_digit (normalizeArabicDigits t).
Proof.
  intros Ht. apply re_replace_g_keeps; [done|].
  intros m Hm. destruct m as [|c [|c' m']]; try done.
  pose proof (Forall_inv Hm) as [Hd Ha].
  destruct (assoc c arabicDigitMap) as [l|] eqn:El; [|done]. exfalso.
  unfold is_arabic_digit, in_range in Ha. cbn -[Z.eqb] in El.
  repeat match type of El with
         | context [?a =? c] => destruct (Z.eqb_spec a c); [subst c; discriminate Ha|]
         end.
  discriminate.
Qed.

Lemma toLowerCase_no_digit s :
  Forall (fun c => is_digit c = false) s ->
  Forall (fun c => is_digit c = false) (toLowerCase s).
Proof.
  induction 1 as [|c s Hc _ IH]; [constructor|].
  unfold toLowerCase. simpl. apply Forall_app. split; [|exact IH].
  unfold lower_unit, is_digit, in_range in *.
  repeat match goal with
         | |- context [if ?b then _ else _] => destruct b eqn:?
         end; repeat constructor; try done; lia.
Qed.

(** After the normalisation steps of [parseCount], a text without digits
    (Latin or Arabic-Indic) still has none. *)
Lemma parseCount_no_digit t :
  Forall no_digit t -> parseCount (Some t) = None.
Proof.
  intros Ht. unfold parseCount.
  destruct (negb (truthy t)); [done|].
  set (s0 := toLowerCase (trim (normalizeArabicDigits t))).
  assert (H0 : Forall (fun c => is_digit c = false) s0).
  { apply toLowerCase_no_digit.
    apply (Forall_impl no_digit); [|by intros c [? ?]].
    by apply trim_keeps, normalizeArabicDigits_no_digit. }
  set (s := re_replace_g (re_replace_g s0 _ _) _ _).
  assert (Hs : Forall (fun c => is_digit c = false) s).
  { apply re_replace_g_keeps; [|intros; constructor].
    apply re_replace_g_keeps; [done|]. intros; by repeat constructor. }
  rewrite (re_number_needs_digit s Hs).
  destruct (negb (truthy _)); [done|].
  destruct (re_test re_thousand s), (re_test re_million s), (re_test re_billion s),
    (re_test re_k s), (re_test re_m s), (re_test re_b s);
    apply parseInt_no_digit; apply re_replace_g_keeps; try done; intros; constructor.
Qed.

(** C2.  What [parseCount] returns on the two inputs of the
    specification: the suffix [k] directly after a digit is not at a word
    boundary, so no factor applies and 1.5 rounds to 2; the numeric token
    ends at the comma, so "2,300" gives 2. *)
Theorem parseCount_examples_observed :
  parseCount (Some (str "1.5k")) = Some 2 /\
  parseCount (Some (str "2,300")) = Some 2 /\
  parseCount (Some (str "1.5 k")) = Some 1500.
Proof. by vm_compute. Qed.

End UtilsFacts.

(** * 12. Properties of scraper.js *)

Module ScraperFacts.
Import JS JSDate Utils Dom Scraper.

(** ** De-duplication *)

Lemma unique_from_elem seen arr p :
  p ∈ unique_from seen arr -> p ∈ arr /\ text p ∉ seen.
Proof.
  revert seen. induction arr as [|q arr IH]; intros seen H; simpl in H.
  - by apply elem_of_nil in H.
  - destruct (decide (text q ∈ seen)) as [Hin|Hout].
    + apply IH in H as [? ?]. split; [by apply elem_of_cons; right|done].
    + apply elem_of_cons in H as [->|H]; [split; [by apply elem_of_cons; left|done]|].
      apply IH in H as [? Hn]. split; [by apply elem_of_cons; right|set_solver].
Qed.

Lemma unique_from_fresh seen arr p :
  p ∈ unique_from ({[text p]} ∪ seen) arr -> False.
Proof. intros H. apply unique_from_elem in H as [_ Hn]. set_solver. Qed.

Lemma unique_from_NoDup seen arr : NoDup (map text (unique_from seen arr)).
Proof.
  revert seen. induction arr as [|q arr IH]; intros seen; simpl; [constructor|].
  destruct (decide (text q ∈ seen)); [apply IH|].
  simpl. apply NoDup_cons. split; [|apply IH].
  intros Hin. apply list_elem_of_In, in_map_iff in Hin as (p & Hp & Hin).
  apply list_elem_of_In, unique_from_elem in Hin as [_ Hn]. set_solver.
Qed.

Lemma unique_from_sublist seen arr : unique_from seen arr `sublist_of` arr.
Proof.
  revert seen. induction arr as [|q arr IH]; intros seen; simpl; [constructor|].
  destruct (decide (text q ∈ seen)); [by apply sublist_cons|by apply sublist_skip].
Qed.

(** A record that survives is the first of the input with its text. *)
Lemma unique_from_first seen arr p :
  p ∈ unique_from seen arr ->
  exists l1 l2, arr = l1 ++ p :: l2 /\ forall q, q ∈ l1 -> text q <> text p.
Proof.
  revert seen. induction arr as [|q arr IH]; intros seen H; simpl in H.
  - by apply elem_of_nil in H.
  - destruct (decide (text q ∈ seen)) as [Hin|Hout].
    + pose proof (unique_from_elem _ _ _ H) as [_ Hp].
      apply IH in H as (l1 & l2 & -> & Hl1).
      exists (q :: l1), l2. split; [done|].
      intros q' Hq'. apply elem_of_cons in Hq' as [->|Hq']; [|by apply Hl1].
      intros E. rewrite E in Hin. done.
    + apply elem_of_cons in H as [->|H].
      * exists [], arr. split; [done|]. intros q' Hq'. by apply elem_of_nil in Hq'.
      * pose proof (unique_from_elem _ _ _ H) as [_ Hp].
        apply IH in H as (l1 & l2 & -> & Hl1).
        exists (q :: l1), l2. split; [done|].
        intros q' Hq'. apply elem_of_cons in Hq' as [->|Hq']; [|by apply Hl1].
        intros E. apply Hp. rewrite E. set_solver.
Qed.

(** Every text of the input is the text of a surviving record. *)
Lemma unique_from_complete seen arr q :
  q ∈ arr -> text q ∉ seen ->
  exists p, p ∈ unique_from seen arr /\ text p = text q.
Proof.
  revert seen. induction arr as [|a arr IH]; intros seen Hq Hn.
  - by apply elem_of_nil in Hq.
  - simpl. destruct (decide (text a ∈ seen)) as [Hin|Hout].
    + apply elem_of_cons in Hq as [->|Hq]; [done|]. by apply IH.
    + destruct (decide (text a = text q)) as [E|Hne].
      * exists a. split; [by apply elem_of_cons; left|done].
      * apply elem_of_cons in Hq as [->|Hq]; [done|].
        destruct (IH ({[text a]} ∪ seen) Hq) as (p & Hp & E); [set_solver|].
        exists p. split; [by apply elem_of_cons; right|done].
Qed.

Lemma slice0_prefix {A} (l : list A) e : slice0 l e `prefix_of` l.
Proof. apply prefix_take. Qed.

Lemma slice0_length {A} (l : list A) e :
  0 <= e -> Z.of_nat (length (slice0 l e)) <= e.
Proof.
  intros He. unfold slice0. rewrite length_take.
  destruct (Z.ltb_spec e 0); lia.
Qed.

Lemma enrich_posts h ps es : enrich h ps = Return es -> map post es = ps.
Proof.
  revert es. induction ps as [|p ps IH]; intros es H; simpl in H.
  - by injection H as <-.
  - destruct (parseDateToISO h (date p)); [|discriminate].
    destruct (enrich h ps) as [es'|]; [|discriminate].
    injection H as <-. simpl. f_equal. by apply IH.
Qed.

(** The records of a result, before enrichment, are the first
    [POSTS_TARGET] of the extracted posts. *)
Lemma scrape_result_posts h b o r evs :
  scrapeFacebookPage h b o = (Return r, evs) ->
  map post (posts r) = slice0 (extractPosts (articles b)) (posts_target o) /\
  meta r = mkMeta (posts_target o) (Z.of_nat (length (extractPosts (articles b)))).
Proof.
  unfold scrapeFacebookPage. intros H.
  destruct (FB_PAGE_URL o) as [u|]; [|discriminate].
  destruct (negb (truthy u)); [discriminate|].
  destruct (login_result b); [discriminate|].
  destruct (goto_result b); [discriminate|].
  destruct (enrich h _) as [es|] eqn:E; [|discriminate].
  injection H as <- _. simpl. split; [by apply (enrich_posts h)|done].
Qed.

(** C4.  The records of a result of [scrapeFacebookPage], with [arr] the
    posts with text built from the articles in page order: no two
    records have the same text; the records are in the order of [arr];
    each record is the first element of [arr] with its text; the records
    are an initial segment of the list that holds one record for every
    text occurring in [arr]; and there are at most [POSTS_TARGET] of
    them when that is not negative. *)
Theorem records_deduplicated_in_order (h : Host) (b : Browser) (o : Options)
    (r : Result) (evs : list event) :
  scrapeFacebookPage h b o = (Return r, evs) ->
  let arr := List.filter has_text (map to_post (articles b)) in
  let out := map post (posts r) in
  NoDup (map text out) /\
  out `sublist_of` arr /\
  (forall p, p ∈ out ->
     exists l1 l2, arr = l1 ++ p :: l2 /\ forall q, q ∈ l1 -> text q <> text p) /\
  (exists all, out `prefix_of` all /\ NoDup (map text all) /\
     forall q, q ∈ arr -> exists p, p ∈ all /\ text p = text q) /\
  (0 <= posts_target o -> Z.of_nat (length out) <= posts_target o).
Proof.
  intros H arr out. destruct (scrape_result_posts h b o r evs H) as [Hout _].
  fold out in Hout. unfold extractPosts in Hout. fold arr in Hout.
  pose proof (slice0_prefix (unique_from ∅ arr) (posts_target o)) as Hpre.
  rewrite <- Hout in Hpre.
  assert (Hsub : out `sublist_of` unique_from ∅ arr).
  { rewrite Hout. apply sublist_take. }
  repeat split.
  - destruct Hpre as [k Hk].
    pose proof (unique_from_NoDup ∅ arr) as Hnd. rewrite Hk, map_app in Hnd.
    by apply NoDup_app in Hnd as [? _].
  - etrans; [exact Hsub|apply unique_from_sublist].
  - intros p Hp. apply (unique_from_first ∅).
    destruct Hpre as [k ->]. apply elem_of_app. by left.
  - exists (unique_from ∅ arr). split; [done|]. split; [apply unique_from_NoDup|].
    intros q Hq. apply unique_from_complete; [done|set_solver].
  - intros Ht. rewrite Hout. by apply slice0_length.
Qed.

(** ** Posts without text *)

Lemma has_text_to_post a : has_text (to_post a) = truthy (cleanText (innerText a)).
Proof. unfold has_text, to_post. simpl. by destruct (cleanText (innerText a)). Qed.


Lemma extractPosts_have_text nodes p :
  p ∈ extractPosts nodes ->
  text p <> [] /\ exists a, a ∈ nodes /\ text p = cleanText (innerText a).
Proof.
  intros H. apply unique_from_elem in H as [H _].
  apply list_elem_of_In, filter_In in H as [Hin Ht].
  apply in_map_iff in Hin as (a & <- & Ha).
  split.
  - rewrite has_text_to_post in Ht. simpl. by destruct (cleanText (innerText a)).
  - exists a. split; [by apply list_elem_of_In|done].
Qed.

(** ** The reactions counter *)

Lemma scan_labels_no_label labels :
  Forall (fun l => re_test re_reaction_label l = false) labels ->
  scan_labels labels = None.
Proof.
  induction 1 as [|l labels Hl _ IH]; cbn [scan_labels]; [done|].
  rewrite Hl. by destruct (negb (truthy l)).
Qed.

Lemma filter_none {A} (f : A -> bool) (l : list A) :
  Forall (fun x => f x = false) l -> List.filter f l = [].
Proof. induction 1 as [|x l Hx _ IH]; simpl; [done|]. by rewrite Hx. Qed.

Lemma extractReactions_all_fail a :
  re_test re_all_reactions (innerText a) = false ->
  Forall (fun l => re_test re_reaction_label l = false) (ariaLabels a) ->
  Forall (fun s => re_test re_any_digit s
                   && re_test re_reaction_word (innerText a ++ [32] ++ s) = false)
         (spanTexts a) ->
  extractReactions a = None.
Proof.
  intros H1 H2 H3. unfold extractReactions.
  unfold re_test in H1. unfold re_match.
  destruct (re_exec (innerText a) re_all_reactions 0); [discriminate|].
  rewrite (scan_labels_no_label _ H2).
  by rewrite (filter_none _ _ H3).
Qed.

End ScraperFacts.

(** * 13. Properties of scraper-optimized.js *)

Module OptimizedFacts.
Import JS JSDate Utils Dom Optimized Matching MatchingFacts UtilsFacts.

(** ** The counters are non-negative integers *)










(** ** The posts of a result *)

Lemma extractPosts_elem nodes p :
  p ∈ extractPosts nodes ->
  exists idx a, nodes !! idx = Some a /\ p = to_post idx a /\ keep p = true.
Proof.
  intros H. apply list_elem_of_In, filter_In in H as [Hin Hk].
  apply list_elem_of_In, elem_of_lookup_imap in Hin as (idx & a & -> & Ha).
  by exists idx, a.
Qed.

Lemma optimized_result_posts h b o r evs :
  scrapeFacebookPageOptimized h b o = (Return r, evs) ->
  posts r = Scraper.slice0 (extractPosts (articles b)) (posts_target o).
Proof.
  unfold scrapeFacebookPageOptimized. intros H.
  destruct (FB_PAGE_URL o) as [u|]; [|discriminate].
  destruct (negb (truthy u)); [discriminate|].
  destruct (login_result b); [discriminate|].
  destruct (goto_result b); [discriminate|].
  by injection H as <- _.
Qed.

Lemma result_posts_elem h b o r evs p :
  scrapeFacebookPageOptimized h b o = (Return r, evs) ->
  p ∈ posts r ->
  exists idx a, articles b !! idx = Some a /\ p = to_post idx a /\ keep p = true.
Proof.
  intros H Hp. rewrite (optimized_result_posts h b o r evs H) in Hp.
  apply extractPosts_elem. by eapply subseteq_take.
Qed.


(** ** Posts without text *)

Lemma keep_has_text idx a :
  keep (to_post idx a) = true ->
  text (to_post idx a) = extractPostText a /\ extractPostText a <> [].
Proof.
  unfold keep, to_post. cbn [text].
  destruct (extractPostText a) as [|c x] eqn:E; cbn [truthy].
  - intros H. exfalso. by vm_compute in H.
  - done.
Qed.

(** ** The engagement counters when no strategy applies *)

Lemma strategy_aria_no_label labels metric :
  Forall (fun l => re_test (re_metric metric) (arabicToLatin (toLowerCase l)) = false)
         labels ->
  strategy_aria labels metric = None.
Proof.
  induction 1 as [|l labels Hl _ IH]; cbn [strategy_aria]; [done|]. by rewrite Hl.
Qed.

Lemma extractEngagement_all_fail a metric :
  re_test re_label (innerText a) = false ->
  Forall (fun l => re_test (re_metric metric) (arabicToLatin (toLowerCase l)) = false)
         (ariaLabels a) ->
  extractEngagement a metric = Some 0.
Proof.
  intros H1 H2. unfold extractEngagement, strategy_label.
  by rewrite H1, (strategy_aria_no_label _ _ H2).
Qed.

End OptimizedFacts.

(** * 14. The two scrapers side by side *)

Module EngineFacts.
Import JS JSDate Utils Dom Matching MatchingFacts UtilsFacts.

(** ** The required option *)

(** With a page URL the first thing either scraper does is log in. *)
Lemma url_present_logs_in h b o o' u :
  Scraper.FB_PAGE_URL o = Some u -> Optimized.FB_PAGE_URL o' = Some u ->
  truthy u = true ->
  (exists rest, snd (Scraper.scrapeFacebookPage h b o) = ELogin :: rest) /\
  (exists rest, snd (Optimized.scrapeFacebookPageOptimized h b o') = ELogin :: rest).
Proof.
  intros Ho Ho' Hu.
  unfold Scraper.scrapeFacebookPage, Optimized.scrapeFacebookPageOptimized.
  rewrite Ho, Ho', Hu. cbn [negb].
  split.
  - destruct (login_result b); [by eexists|].
    destruct (goto_result b); [by eexists|].
    destruct (Scraper.enrich h _); by eexists.
  - destruct (login_result b); [by eexists|].
    destruct (goto_result b); by eexists.
Qed.

(** C9.  Called with options whose [FB_PAGE_URL] is absent or the empty
    string, either scraper throws [FB_PAGE_URL is required] and has made
    no call to the outside: no login, no navigation, no browser. *)
Theorem missing_url_fails_before_login (h : Host) (b : Browser)
    (o : Scraper.Options) (o' : Optimized.Options) :
  (Scraper.FB_PAGE_URL o = None \/ Scraper.FB_PAGE_URL o = Some []) ->
  (Optimized.FB_PAGE_URL o' = None \/ Optimized.FB_PAGE_URL o' = Some []) ->
  Scraper.scrapeFacebookPage h b o = (Throw (str "FB_PAGE_URL is required"), []) /\
  Optimized.scrapeFacebookPageOptimized h b o'
  = (Throw (str "FB_PAGE_URL is required"), []).
Proof.
  intros Ho Ho'.
  unfold Scraper.scrapeFacebookPage, Optimized.scrapeFacebookPageOptimized.
  split.
  - by destruct Ho as [-> | ->].
  - by destruct Ho' as [-> | ->].
Qed.

Lemma missing_url_fails_before_login_witness :
  let h := utc_host 0 in
  let b := mkBrowser None None None (None, None) (fun _ => 0) [] in
  Scraper.scrapeFacebookPage h b (Scraper.mkOptions None (Some 5) None None)
  = (Throw (str "FB_PAGE_URL is required"), []) /\
  Optimized.scrapeFacebookPageOptimized h b (Optimized.mkOptions (Some []) None)
  = (Throw (str "FB_PAGE_URL is required"), []).
Proof.
  intros h b.
  exact (missing_url_fails_before_login h b
           (Scraper.mkOptions None (Some 5) None None)
           (Optimized.mkOptions (Some []) None)
           (or_introl eq_refl) (or_intror eq_refl)).
Defined.

(** ** Items without text *)



(** ** The engagement counter when no strategy applies *)

(** C3 (as amended).  On an article without the total-interactions label,
    without an accessible label naming the metric and without a text
    fragment holding a digit next to a reaction word, [extractReactions]
    of [scrapeFacebookPage] returns [null], while [extractEngagement] of
    the optimized scraper returns the number 0. *)
Theorem counter_when_all_strategies_fail (a : Article) (metric : Optimized.Metric) :
  re_test Scraper.re_all_reactions (innerText a) = false ->
  re_test Optimized.re_label (innerText a) = false ->
  Forall (fun l => re_test Scraper.re_reaction_label l = false) (ariaLabels a) ->
  Forall (fun l => re_test (Optimized.re_metric metric)
                     (Optimized.arabicToLatin (toLowerCase l)) = false) (ariaLabels a) ->
  Forall (fun s => re_test Scraper.re_any_digit s
                   && re_test Scraper.re_reaction_word (innerText a ++ [32] ++ s) = false)
         (spanTexts a) ->
  Scraper.extractReactions a = None /\
  Optimized.extractEngagement a metric = Some 0.
Proof.
  intros H1 H2 H3 H4 H5. split.
  - by apply ScraperFacts.extractReactions_all_fail.
  - by apply OptimizedFacts.extractEngagement_all_fail.
Qed.

(** An article with text, a label and a span, none about engagement. *)
Definition plain_article : Article :=
  mkArticle (str "Opening hours changed") [str "Close"] [str "Opening hours changed"]
            None None None.

Lemma counter_when_all_strategies_fail_witness :
  Scraper.extractReactions plain_article = None /\
  Optimized.extractEngagement plain_article Optimized.Comments = Some 0.
Proof.
  apply (counter_when_all_strategies_fail plain_article Optimized.Comments).
  - by vm_compute.
  - by vm_compute.
  - repeat constructor.
  - repeat constructor.
  - repeat constructor.
Defined.

(** On that article every strategy of the optimized scraper fails, and
    the counter it reports is the number 0, not an absent value. *)
Lemma optimized_counter_is_zero_not_absent :
  re_test Optimized.re_label (innerText plain_article) = false /\
  Optimized.strategy_label plain_article Optimized.Reactions = None /\
  Optimized.strategy_aria (ariaLabels plain_article) Optimized.Reactions = None /\
  Optimized.extractEngagement plain_article Optimized.Reactions = Some 0 /\
  Optimized.extractEngagement plain_article Optimized.Reactions <> None.
Proof. by vm_compute. Qed.

(** ** Reaching the target *)

(** C6 (as amended).  When a pass [k] below the ceiling reads a count at
    or above the target, the load loop of either scraper ends at that
    pass.  The result of [scrapeFacebookPage] has no [targetReached]
    flag: its [meta] holds the target and the number of distinct posts
    with text that were extracted, whatever the loop did. *)
Theorem target_reached_ends_load_loop (h : Host) (b : Browser) (o : Scraper.Options)
    (target' : Z) (k k' : nat) (s s' : Convergence.LoadState)
    (r : Scraper.Result) (evs : list event) :
  Convergence.state_at
    (Convergence.loadArticles_body (Scraper.posts_target o) (Scraper.stall_limit o))
    (counts b) k 0 Convergence.init = Some s ->
  (k < Z.to_nat (Scraper.max_loops o))%nat ->
  Scraper.posts_target o <= counts b k ->
  Convergence.state_at (Convergence.optimized_body target') (counts b) k' 0
    Convergence.init = Some s' ->
  (k' < 100)%nat ->
  target' <= counts b k' ->
  Scraper.scrapeFacebookPage h b o = (Return r, evs) ->
  Convergence.loadArticles (Scraper.posts_target o) (Scraper.stall_limit o)
    (Scraper.max_loops o) (counts b)
  = Convergence.mkResult Convergence.TargetReached (S k) s /\
  Convergence.optimized_load target' (counts b)
  = Convergence.mkResult Convergence.TargetReached (S k') s' /\
  EScrollLoop (S k) ∈ evs /\
  Scraper.meta r
  = Scraper.mkMeta (Scraper.posts_target o)
      (Z.of_nat (length (Scraper.extractPosts (articles b)))).
Proof.
  intros Hat Hk Ht Hat' Hk' Ht' H.
  assert (L : Convergence.loadArticles (Scraper.posts_target o) (Scraper.stall_limit o)
                (Scraper.max_loops o) (counts b)
              = Convergence.mkResult Convergence.TargetReached (S k) s).
  { apply (ConvergenceFacts.target_ends_run (Scraper.posts_target o)); try done.
    left. by eexists. }
  repeat split.
  - exact L.
  - apply (ConvergenceFacts.target_ends_run target'); try done. by right.
  - unfold Scraper.scrapeFacebookPage in H. rewrite L in H.
    destruct (Scraper.FB_PAGE_URL o) as [u|]; [|discriminate].
    destruct (negb (truthy u)); [discriminate|].
    destruct (login_result b); [discriminate|].
    destruct (goto_result b); [discriminate|].
    destruct (Scraper.enrich h _); [|discriminate].
    injection H as _ <-. cbn [Convergence.iterations]. set_solver.
  - by destruct (ScraperFacts.scrape_result_posts h b o r evs H) as [_ ?].
Qed.

(** A page that shows the same post twice and nothing else. *)
Definition twice_article : Article :=
  mkArticle (str "Opening hours changed Like Comment Share") [] [] None None None.
Definition twice_browser : Browser :=
  mkBrowser None None (Some (str "A page")) (None, None) (fun _ => 2)
            [twice_article; twice_article].
Definition twice_options : Scraper.Options :=
  Scraper.mkOptions (Some (str "https://www.facebook.com/page")) (Some 2) None None.

Lemma target_reached_ends_load_loop_witness :
  Convergence.loadArticles 2 10 300 (counts twice_browser)
  = Convergence.mkResult Convergence.TargetReached 1 Convergence.init /\
  Convergence.optimized_load 1 (counts twice_browser)
  = Convergence.mkResult Convergence.TargetReached 1 Convergence.init.
Proof.
  destruct (Scraper.scrapeFacebookPage (utc_host 0) twice_browser twice_options)
    as [[r|m] evs] eqn:E; [|by vm_compute in E].
  assert (Hk : (0 < Z.to_nat (Scraper.max_loops twice_options))%nat)
    by (vm_compute; lia).
  assert (Ht : Scraper.posts_target twice_options <= counts twice_browser 0%nat)
    by (vm_compute; discriminate).
  assert (Hk' : (0 < 100)%nat) by lia.
  assert (Ht' : 1 <= counts twice_browser 0%nat) by (vm_compute; discriminate).
  destruct (target_reached_ends_load_loop (utc_host 0) twice_browser twice_options
              1 0 0 Convergence.init Convergence.init r evs
              eq_refl Hk Ht eq_refl Hk' Ht' E) as (H1 & H2 & _).
  split; [exact H1|exact H2].
Defined.

(** On that page the first pass already reads the target count of 2 and
    the loop ends on it, yet the result tells the caller of one loaded
    article against a target of two. *)
Lemma target_reached_not_reported :
  Convergence.exit (Convergence.loadArticles 2 10 300 (counts twice_browser))
  = Convergence.TargetReached /\
  exists r evs,
    Scraper.scrapeFacebookPage (utc_host 0) twice_browser twice_options = (Return r, evs) /\
    Scraper.meta r = Scraper.mkMeta 2 1 /\
    Scraper.reports_target_reached r = false.
Proof.
  split; [by vm_compute|].
  destruct (Scraper.scrapeFacebookPage (utc_host 0) twice_browser twice_options)
    as [[r|m] evs] eqn:E; [|by vm_compute in E].
  exists r, evs. split; [done|].
  assert (M : Scraper.meta r = Scraper.mkMeta 2 1).
  { destruct (ScraperFacts.scrape_result_posts _ _ _ _ _ E) as [_ ->]. by vm_compute. }
  split; [done|]. unfold Scraper.reports_target_reached. by rewrite M.
Qed.

(** ** The theorems on the page that shows one post twice *)


Lemma twice_scrape_returns :
  exists r evs,
    Scraper.scrapeFacebookPage (utc_host 0) twice_browser twice_options = (Return r, evs).
Proof.
  destruct (Scraper.scrapeFacebookPage (utc_host 0) twice_browser twice_options)
    as [[r|m] evs] eqn:E; [by eauto|by vm_compute in E].
Defined.


Lemma records_deduplicated_in_order_witness :
  exists r evs,
    Scraper.scrapeFacebookPage (utc_host 0) twice_browser twice_options = (Return r, evs) /\
    NoDup (map Scraper.text (map Scraper.post (Scraper.posts r))) /\
    (0 <= Scraper.posts_target twice_options ->
     Z.of_nat (length (map Scraper.post (Scraper.posts r)))
     <= Scraper.posts_target twice_options).
Proof.
  destruct twice_scrape_returns as (r & evs & E).
  exists r, evs. split; [exact E|].
  destruct (ScraperFacts.records_deduplicated_in_order
              (utc_host 0) twice_browser twice_options r evs E) as (H1 & _ & _ & _ & H5).
  split; [exact H1|exact H5].
Defined.



End EngineFacts.

(** * 15. Why the load loops end *)

Module LoadLoopFacts.
Import Convergence ConvergenceFacts Measures.

Section Passes.
Variable body : LoadState -> Z -> Step.
Variable counts : nat -> Z.

(** Getting to pass [k + 1] is getting to pass [k] and going on from it. *)
Lemma state_at_S k : forall i s,
  state_at body counts (S k) i s =
  match state_at body counts k i s with
  | Some s' =>
      match body s' (counts (i + k)%nat) with
      | Continue s'' => Some s''
      | Break _ _ => None
      end
  | None => None
  end.
Proof.
  induction k as [|k IH]; intros i s.
  - simpl. rewrite Nat.add_0_r. by destruct (body s (counts i)).
  - change (state_at body counts (S (S k)) i s) with
      (match body s (counts i) with
       | Break _ _ => None
       | Continue s' => state_at body counts (S k) (S i) s'
       end).
    change (state_at body counts (S k) i s) with
      (match body s (counts i) with
       | Break _ _ => None
       | Continue s' => state_at body counts k (S i) s'
       end).
    destruct (body s (counts i)) as [s'|]; [|done].
    rewrite IH. by replace (S i + k)%nat with (i + S k)%nat by lia.
Qed.

(** A run ends on the loop condition after all its passes, or on the
    [break] of the first pass that breaks. *)
Lemma for_loop_result left : forall i s,
  let r := for_loop body counts left i s in
  (r = mkResult Exhausted (i + left) (final r) /\
   state_at body counts left i s = Some (final r)) \/
  (exists k s0, (k < left)%nat /\ state_at body counts k i s = Some s0 /\
     body s0 (counts (i + k)%nat) = Break (exit r) (final r) /\
     iterations r = S (i + k)).
Proof.
  induction left as [|left IH]; intros i s r.
  - left. subst r. simpl. by rewrite Nat.add_0_r.
  - subst r. simpl. destruct (body s (counts i)) as [s'|e s'] eqn:E.
    + destruct (IH (S i) s') as [[H1 H2]|(k & s0 & Hk & Hat & Hb & Hit)].
      * left. split; [|done]. rewrite H1 at 1. f_equal. lia.
      * right. exists (S k), s0. split; [lia|]. simpl. rewrite E.
        split; [done|]. replace (i + S k)%nat with (S i + k)%nat by lia.
        split; [done|]. done.
    + right. exists 0%nat, s. split; [lia|]. simpl. rewrite Nat.add_0_r.
      split; [done|]. split; [done|]. done.
Qed.
End Passes.

(** The loop variables of [loadArticles] at the start of pass [k]: the
    largest count read so far, every count read so far below the target,
    and a stall counter between 0 and the number of passes made, below
    the limit once a pass has been made. *)
Lemma legacy_state_at target limit counts k s :
  state_at (loadArticles_body target limit) counts k 0 init = Some s ->
  lastCount s = max_seen counts k /\
  (forall i, (i < k)%nat -> counts i < target) /\
  0 <= stalls s <= Z.of_nat k /\
  (k <> 0%nat -> stalls s < limit).
Proof.
  revert s. induction k as [|k IH]; intros s H.
  - injection H as <-. simpl. repeat split; try lia; intros; lia.
  - rewrite state_at_S in H.
    destruct (state_at _ counts k 0 init) as [s0|]; [|discriminate].
    destruct (IH s0 eq_refl) as (H1 & H2 & H3 & H4). simpl in H.
    unfold loadArticles_body in H.
    destruct (Z.leb_spec target (counts k)); [discriminate|].
    destruct (Z.leb_spec (counts k) (lastCount s0)); simpl in H;
      match type of H with
      | context [?a <=? ?b] => destruct (Z.leb_spec a b); [discriminate|]
      end; injection H as <-; simpl; rewrite <- H1;
      (repeat split; [lia| |lia|lia|lia]);
      intros i Hi; (destruct (decide (i = k)) as [->|]; [done|apply H2; lia]).
Qed.

Lemma optimized_state_at target counts k s :
  state_at (optimized_body target) counts k 0 init = Some s ->
  lastCount s = last_seen counts k /\
  (forall i, (i < k)%nat -> counts i < target) /\
  0 <= stalls s <= Z.of_nat k /\
  stalls s < 5.
Proof.
  revert s. induction k as [|k IH]; intros s H.
  - injection H as <-. simpl. repeat split; try lia; intros; lia.
  - rewrite state_at_S in H.
    destruct (state_at _ counts k 0 init) as [s0|]; [|discriminate].
    destruct (IH s0 eq_refl) as (H1 & H2 & H3 & H4). simpl in H.
    unfold optimized_body in H.
    destruct (Z.leb_spec target (counts k)); [discriminate|].
    destruct (Z.leb_spec (counts k) (lastCount s0)); cbn [stalls] in H;
      match type of H with
      | context [?a <=? ?b] => destruct (Z.leb_spec a b); [discriminate|]
      end; injection H as <-; cbn [stalls lastCount last_seen];
      (repeat split; try lia);
      intros i Hi; (destruct (decide (i = k)) as [->|]; [done|apply H2; lia]).
Qed.

(** X1.  Why a run of [loadArticles] ends.  On [TargetReached] the last
    pass read a count at or above the target and left the loop variables
    as they were; on [Stalled] the last pass read a count below the
    target and the stall counter has reached the limit; on [Exhausted]
    all [SCROLL_MAX_LOOPS] passes were made.  In each case every earlier
    pass read a count below the target, and [lastCount] is the largest
    count the loop has taken note of. *)
Theorem loadArticles_exit_reasons (target limit maxLoops : Z) (counts : nat -> Z) :
  let r := loadArticles target limit maxLoops counts in
  let n := iterations r in
  (n <= Z.to_nat maxLoops)%nat /\
  (forall i, (S i < n)%nat -> counts i < target) /\
  match exit r with
  | TargetReached =>
      exists k, n = S k /\ target <= counts k /\ lastCount (final r) = max_seen counts k
  | Stalled =>
      exists k, n = S k /\ counts k < target /\ limit <= stalls (final r) /\
        lastCount (final r) = max_seen counts n
  | Exhausted =>
      n = Z.to_nat maxLoops /\ (forall i, (i < n)%nat -> counts i < target) /\
      lastCount (final r) = max_seen counts n
  end.
Proof.
  intros r n. subst n.
  pose proof (for_loop_bounded (loadArticles_body target limit) counts
                (Z.to_nat maxLoops) 0 init) as Hb.
  fold (loadArticles target limit maxLoops counts) in Hb. fold r in Hb.
  split; [lia|].
  destruct (for_loop_result (loadArticles_body target limit) counts
              (Z.to_nat maxLoops) 0 init) as [[H1 H2]|(k & s0 & Hk & Hat & Hbr & Hit)];
    fold (loadArticles target limit maxLoops counts) in *; fold r in H1 || fold r in Hbr, Hit.
  - fold r in H2. destruct (legacy_state_at _ _ _ _ _ H2) as (L1 & L2 & _).
    rewrite H1. cbn [exit iterations final]. rewrite Nat.add_0_l.
    split; [intros i Hi; apply L2; lia|]. repeat split; done.
  - destruct (legacy_state_at _ _ _ _ _ Hat) as (L1 & L2 & _).
    rewrite Hit. rewrite Nat.add_0_l in *.
    split; [intros i Hi; apply L2; lia|].
    unfold loadArticles_body in Hbr.
    destruct (Z.leb_spec target (counts k)).
    + injection Hbr as <- <-. exists k. by rewrite L1.
    + destruct (Z.leb_spec (counts k) (lastCount s0)); cbn [stalls] in Hbr;
        match type of Hbr with
        | context [?a <=? ?b] => destruct (Z.leb_spec a b); [|discriminate]
        end; injection Hbr as <- <-; exists k; cbn [stalls lastCount max_seen];
        repeat split; try done; lia.
Qed.

(** X2.  Why a run of the optimized loop ends; here [lastCount] is the
    count read on the pass before. *)
Theorem optimized_load_exit_reasons (target : Z) (counts : nat -> Z) :
  let r := optimized_load target counts in
  let n := iterations r in
  (n <= 100)%nat /\
  (forall i, (S i < n)%nat -> counts i < target) /\
  match exit r with
  | TargetReached =>
      exists k, n = S k /\ target <= counts k /\ lastCount (final r) = last_seen counts k
  | Stalled =>
      exists k, n = S k /\ counts k < target /\ stalls (final r) = 5 /\
        lastCount (final r) = counts k
  | Exhausted =>
      n = 100%nat /\ (forall i, (i < n)%nat -> counts i < target) /\
      lastCount (final r) = counts 99%nat /\ stalls (final r) < 5
  end.
Proof.
  intros r n. subst n.
  pose proof (for_loop_bounded (optimized_body target) counts 100 0 init) as Hb.
  fold (optimized_load target counts) in Hb. fold r in Hb.
  split; [lia|].
  destruct (for_loop_result (optimized_body target) counts 100 0 init)
    as [[H1 H2]|(k & s0 & Hk & Hat & Hbr & Hit)];
    fold (optimized_load target counts) in *; fold r in H1 || fold r in Hbr, Hit.
  - fold r in H2. destruct (optimized_state_at _ _ _ _ H2) as (L1 & L2 & _ & L4).
    rewrite H1. cbn [exit iterations final]. rewrite Nat.add_0_l.
    split; [intros i Hi; apply L2; lia|]. repeat split; done.
  - destruct (optimized_state_at _ _ _ _ Hat) as (L1 & L2 & L3 & L4).
    rewrite Hit. rewrite Nat.add_0_l in *.
    split; [intros i Hi; apply L2; lia|].
    unfold optimized_body in Hbr.
    destruct (Z.leb_spec target (counts k)).
    + injection Hbr as <- <-. exists k. by rewrite L1.
    + destruct (Z.leb_spec (counts k) (lastCount s0)); cbn [stalls] in Hbr;
        match type of Hbr with
        | context [?a <=? ?b] => destruct (Z.leb_spec a b); [|discriminate]
        end; injection Hbr as <- <-; exists k; cbn [stalls lastCount];
        repeat split; try done; lia.
Qed.

(** X3.  While every pass finds more articles than any pass before, and
    fewer than the target, [loadArticles] with a positive stall limit
    never stops on a stall: it makes all [SCROLL_MAX_LOOPS] passes and
    ends with the stall counter at 0. *)
Theorem growing_page_runs_to_ceiling (target limit maxLoops : Z) (counts : nat -> Z) :
  0 < limit ->
  (forall i, (i < Z.to_nat maxLoops)%nat -> max_seen counts i < counts i < target) ->
  loadArticles target limit maxLoops counts
  = mkResult Exhausted (Z.to_nat maxLoops)
      (mkLoad (max_seen counts (Z.to_nat maxLoops)) 0).
Proof.
  intros Hl Hg.
  assert (Hat : forall k, (k <= Z.to_nat maxLoops)%nat ->
            state_at (loadArticles_body target limit) counts k 0 init
            = Some (mkLoad (max_seen counts k) 0)).
  { induction k as [|k IH]; intros Hk; [done|].
    rewrite state_at_S, IH by lia. rewrite Nat.add_0_l.
    unfold loadArticles_body. cbn [lastCount stalls].
    specialize (Hg k ltac:(lia)).
    destruct (Z.leb_spec target (counts k)); [lia|].
    destruct (Z.leb_spec (counts k) (max_seen counts k)); [lia|]. cbn [stalls].
    destruct (Z.leb_spec limit 0); [lia|].
    cbn [max_seen]. do 2 f_equal. lia. }
  destruct (for_loop_result (loadArticles_body target limit) counts
              (Z.to_nat maxLoops) 0 init) as [[H1 H2]|(k & s0 & Hk & Hk' & Hbr & _)];
    fold (loadArticles target limit maxLoops counts) in *.
  - rewrite Hat in H2 by lia. injection H2 as H2. rewrite H1, <- H2. by rewrite Nat.add_0_l.
  - exfalso. rewrite Hat in Hk' by lia. injection Hk' as <-.
    rewrite Nat.add_0_l in Hbr. unfold loadArticles_body in Hbr. cbn [lastCount stalls] in Hbr.
    specialize (Hg k Hk).
    destruct (Z.leb_spec target (counts k)); [lia|].
    destruct (Z.leb_spec (counts k) (max_seen counts k)); [lia|]. cbn [stalls] in Hbr.
    destruct (Z.leb_spec limit 0); [lia|discriminate].
Qed.

Lemma growing_page_runs_to_ceiling_witness :
  loadArticles 100 3 4 (fun i => Z.of_nat i + 1)
  = mkResult Exhausted 4 (mkLoad 4 0).
Proof.
  apply (growing_page_runs_to_ceiling 100 3 4 (fun i => Z.of_nat i + 1)).
  - lia.
  - intros i Hi. destruct i as [|[|[|[|i]]]]; [vm_compute; split; reflexivity ..|lia].
Defined.

End LoadLoopFacts.

(** * 16. Properties of [gotoWithRetry] *)

Module NavigatorFacts.
Import JS Navigator.

(** [500 * i * (i + 1)] is the sum of the pauses [1000 * (j + 1)] for [j < i]. *)
Lemma retry_from_succeeds goto url maxRetries n : forall left i,
  Z.of_nat i + Z.of_nat left = maxRetries ->
  (i <= n)%nat -> (n < i + left)%nat ->
  goto n = None ->
  (forall j, (i <= j < n)%nat -> goto j <> None) ->
  let '(o, evs) := retry_from goto url maxRetries left i in
  o = NavResponse n /\ gotos evs = S (n - i) /\
  slept evs = 500 * Z.of_nat n * (Z.of_nat n + 1) - 500 * Z.of_nat i * (Z.of_nat i + 1).
Proof.
  induction left as [|left IH]; intros i Hm Hi Hn Hok Hfail; [lia|].
  cbn [retry_from].
  destruct (decide (i = n)) as [->|Hne].
  - rewrite Hok. replace (n - n)%nat with 0%nat by lia.
    repeat split; cbn; lia.
  - destruct (goto i) as [err|] eqn:E; [|exfalso; apply (Hfail i); [lia|done]].
    destruct (Z.eqb_spec (Z.of_nat i) (maxRetries - 1)); [lia|].
    specialize (IH (S i) ltac:(lia) ltac:(lia) ltac:(lia) Hok).
    destruct (retry_from goto url maxRetries left (S i)) as [o evs].
    destruct IH as (-> & Hg & Hs); [intros j Hj; apply Hfail; lia|].
    split; [done|]. split.
    + unfold gotos in *. cbn [List.filter is_goto length]. rewrite Hg. lia.
    + unfold slept in *. cbn [map sleep_of fold_right]. rewrite Hs. lia.
Qed.

(** X4.  When attempt [n], below [maxRetries], is the first that does not
    throw, [gotoWithRetry] returns its response after [n + 1] navigations
    and pauses of 1000, 2000, ... ms between them, [500 * n * (n + 1)] ms
    in all. *)
Theorem gotoWithRetry_first_success (goto : nat -> option jsstring) (url : jsstring)
    (maxRetries : Z) (n : nat) :
  Z.of_nat n < maxRetries ->
  goto n = None ->
  (forall j, (j < n)%nat -> goto j <> None) ->
  let '(o, evs) := gotoWithRetry goto url maxRetries in
  o = NavResponse n /\ gotos evs = S n /\
  slept evs = 500 * Z.of_nat n * (Z.of_nat n + 1).
Proof.
  intros Hn Hok Hfail. unfold gotoWithRetry.
  pose proof (retry_from_succeeds goto url maxRetries n (Z.to_nat maxRetries) 0
                ltac:(lia) ltac:(lia) ltac:(lia) Hok) as H.
  destruct (retry_from goto url maxRetries (Z.to_nat maxRetries) 0) as [o evs].
  destruct H as (-> & Hg & Hs); [intros j Hj; apply Hfail; lia|].
  repeat split; [rewrite Hg; f_equal; lia|lia].
Qed.

Lemma retry_from_exhausted goto url maxRetries : forall left i,
  Z.of_nat i + Z.of_nat left = maxRetries ->
  (0 < left)%nat ->
  (forall j, (i <= j < i + left)%nat -> goto j <> None) ->
  let '(o, evs) := retry_from goto url maxRetries left i in
  (exists err, goto (i + left - 1)%nat = Some err /\ o = NavThrow err) /\
  gotos evs = left /\
  slept evs = 500 * (maxRetries - 1) * maxRetries - 500 * Z.of_nat i * (Z.of_nat i + 1).
Proof.
  induction left as [|left IH]; intros i Hm Hl Hfail; [lia|].
  cbn [retry_from].
  destruct (goto i) as [err|] eqn:E; [|exfalso; apply (Hfail i); [lia|done]].
  destruct (Z.eqb_spec (Z.of_nat i) (maxRetries - 1)) as [Hlast|Hnot].
  - assert (left = 0%nat) by lia. subst left.
    replace (i + 1 - 1)%nat with i by lia.
    split; [by exists err|]. split; [done|]. cbn. lia.
  - specialize (IH (S i) ltac:(lia) ltac:(lia)).
    destruct (retry_from goto url maxRetries left (S i)) as [o evs].
    destruct IH as ((err' & He & ->) & Hg & Hs); [intros j Hj; apply Hfail; lia|].
    split; [exists err'; split; [|done];
            by replace (i + S left - 1)%nat with (S i + left - 1)%nat by lia|].
    split.
    + unfold gotos in *. cbn [List.filter is_goto length]. by rewrite Hg.
    + unfold slept in *. cbn [map sleep_of fold_right]. rewrite Hs. lia.
Qed.

(** X5.  When each of the [maxRetries] attempts throws, [gotoWithRetry]
    throws the error of the last one, after [maxRetries] navigations and
    no pause after the last. *)
Theorem gotoWithRetry_exhausted (goto : nat -> option jsstring) (url : jsstring)
    (maxRetries : Z) :
  0 < maxRetries ->
  (forall j, Z.of_nat j < maxRetries -> goto j <> None) ->
  let '(o, evs) := gotoWithRetry goto url maxRetries in
  (exists err, goto (Z.to_nat (maxRetries - 1)) = Some err /\ o = NavThrow err) /\
  gotos evs = Z.to_nat maxRetries /\
  slept evs = 500 * (maxRetries - 1) * maxRetries.
Proof.
  intros Hm Hfail. unfold gotoWithRetry.
  pose proof (retry_from_exhausted goto url maxRetries (Z.to_nat maxRetries) 0
                ltac:(lia) ltac:(lia)) as H.
  destruct (retry_from goto url maxRetries (Z.to_nat maxRetries) 0) as [o evs].
  destruct H as ((err & He & ->) & Hg & Hs); [intros j Hj; apply Hfail; lia|].
  split; [exists err; split; [|done];
          by replace (Z.to_nat (maxRetries - 1)) with (0 + Z.to_nat maxRetries - 1)%nat by lia|].
  split; [done|lia].
Qed.

Lemma retry_from_bounded goto url maxRetries : forall left i,
  Z.of_nat i + Z.of_nat left = maxRetries ->
  let '(o, evs) := retry_from goto url maxRetries left i in
  (gotos evs <= left)%nat /\ (o = NavUndefined <-> left = 0%nat) /\
  (forall err, o = NavThrow err -> exists j, (i <= j)%nat /\ goto j = Some err).
Proof.
  induction left as [|left IH]; intros i Hm; cbn [retry_from].
  - repeat split; try done; try (cbn; lia).
  - destruct (goto i) as [err|] eqn:E.
    + destruct (Z.eqb_spec (Z.of_nat i) (maxRetries - 1)) as [Hlast|Hnot].
      * repeat split; try done; try (cbn; lia).
        intros err' [= <-]. by exists i.
      * specialize (IH (S i) ltac:(lia)).
        destruct (retry_from goto url maxRetries left (S i)) as [o evs].
        destruct IH as (Hg & Hu & Ht).
        split; [unfold gotos in *; cbn [List.filter is_goto length]; lia|].
        split; [split; [intros Ho; apply Hu in Ho; lia|done]|].
        intros err' He. destruct (Ht err' He) as (j & Hj & Hgj). exists j. split; [lia|done].
    + repeat split; try done; try (cbn; lia).
Qed.

(** X6.  Whatever the page does, [gotoWithRetry] navigates at most
    [maxRetries] times; it returns [undefined] without an attempt exactly
    when [maxRetries] is not positive; and an error it throws is the
    error of one of its attempts. *)
Theorem gotoWithRetry_bounded (goto : nat -> option jsstring) (url : jsstring)
    (maxRetries : Z) :
  let '(o, evs) := gotoWithRetry goto url maxRetries in
  (gotos evs <= Z.to_nat maxRetries)%nat /\
  (o = NavUndefined <-> maxRetries <= 0) /\
  (o = NavUndefined -> evs = []) /\
  (forall err, o = NavThrow err -> exists j, goto j = Some err).
Proof.
  unfold gotoWithRetry.
  destruct (Z.to_nat maxRetries) as [|left] eqn:El.
  - cbn [retry_from]. repeat split; try done; try lia; try (cbn; lia).
  - pose proof (retry_from_bounded goto url maxRetries (S left) 0 ltac:(lia)) as H.
    destruct (retry_from goto url maxRetries (S left) 0) as [o evs].
    destruct H as (Hg & Hu & Ht).
    split; [done|]. split; [split; [intros Ho; apply Hu in Ho; lia|lia]|].
    split; [intros Ho; apply Hu in Ho; lia|].
    intros err He. destruct (Ht err He) as (j & _ & Hj). by exists j.
Qed.

Lemma gotoWithRetry_first_success_witness :
  let '(o, evs) := gotoWithRetry (fun j => if (j <? 2)%nat then Some (str "timeout") else None)
                     (str "https://www.facebook.com/page") 3 in
  o = NavResponse 2 /\ gotos evs = 3%nat /\ slept evs = 3000.
Proof.
  apply (gotoWithRetry_first_success
           (fun j => if (j <? 2)%nat then Some (str "timeout") else None)
           (str "https://www.facebook.com/page") 3 2).
  - lia.
  - reflexivity.
  - intros j Hj. destruct j as [|[|j]]; [discriminate|discriminate|lia].
Defined.

Lemma gotoWithRetry_exhausted_witness :
  let '(o, evs) := gotoWithRetry (fun _ => Some (str "timeout"))
                     (str "https://www.facebook.com/page") 3 in
  (exists err, Some (str "timeout") = Some err /\ o = NavThrow err) /\
  gotos evs = 3%nat /\ slept evs = 3000.
Proof.
  apply (gotoWithRetry_exhausted (fun _ => Some (str "timeout"))
           (str "https://www.facebook.com/page") 3).
  - lia.
  - intros j Hj. discriminate.
Defined.

End NavigatorFacts.

(** * 17. The records of scraper.js *)

Module RecordFacts.
Import JS JSDate Utils Dom Measures ScraperFacts OptimizedFacts.

(** ** Trimmed strings *)


Lemma trim_start_suffix s : exists pre, s = pre ++ trim_start s.
Proof.
  induction s as [|c s [pre IH]]; simpl; [by exists []|].
  destruct (is_space c); [exists (c :: pre); simpl; by f_equal|by exists []].
Qed.






(** ** How many records *)

(** X8.  A result of [scrapeFacebookPage] for a target that is not
    negative holds the smaller of the target and [meta.loadedArticles]
    records; [meta.loadedArticles] counts the distinct posts with text
    before the cut and is at most the number of articles on the page. *)
Theorem scrape_record_count (h : Host) (b : Browser) (o : Scraper.Options)
    (r : Scraper.Result) (evs : list event) :
  Scraper.scrapeFacebookPage h b o = (Return r, evs) ->
  0 <= Scraper.posts_target o ->
  Z.of_nat (length (Scraper.posts r))
  = Z.min (Scraper.posts_target o) (Scraper.loadedArticles (Scraper.meta r)) /\
  Scraper.postsTarget (Scraper.meta r) = Scraper.posts_target o /\
  0 <= Scraper.loadedArticles (Scraper.meta r) <= Z.of_nat (length (articles b)).
Proof.
  intros H Ht. destruct (scrape_result_posts h b o r evs H) as [Hout ->].
  cbn [Scraper.postsTarget Scraper.loadedArticles].
  assert (Hlen : length (Scraper.posts r)
                 = length (Scraper.slice0 (Scraper.extractPosts (articles b))
                             (Scraper.posts_target o))).
  { by rewrite <- Hout, length_map. }
  rewrite Hlen. unfold Scraper.slice0. rewrite length_take.
  destruct (Z.ltb_spec (Scraper.posts_target o) 0); [lia|].
  split; [lia|]. split; [done|]. split; [lia|].
  unfold Scraper.extractPosts.
  pose proof (unique_from_sublist ∅
                (List.filter Scraper.has_text (map Scraper.to_post (articles b)))) as Hs.
  apply sublist_length in Hs.
  pose proof (filter_length_le Scraper.has_text (map Scraper.to_post (articles b))) as Hf.
  rewrite length_map in Hf. lia.
Qed.

(** ** The normalised timestamp *)

Lemma enrich_elem h ps es e :
  Scraper.enrich h ps = Return es -> e ∈ es ->
  exists iso, parseDateToISO h (Scraper.date (Scraper.post e)) = Return iso /\
              Scraper.dateISO e = Scraper.or_null iso.
Proof.
  revert es. induction ps as [|p ps IH]; intros es H He; simpl in H.
  - injection H as <-. by apply elem_of_nil in He.
  - destruct (parseDateToISO h (Scraper.date p)) as [iso|] eqn:E; [|discriminate].
    destruct (Scraper.enrich h ps) as [es'|]; [|discriminate].
    injection H as <-. apply elem_of_cons in He as [->|He].
    + exists iso. by split.
    + by apply (IH es').
Qed.

(** X9.  In a result of [scrapeFacebookPage] a record has a [dateISO]
    only if it has a non-empty raw [date], and then [dateISO] is what
    [parseDateToISO] returns for that date, never the empty string. *)
Theorem dateISO_only_from_date (h : Host) (b : Browser) (o : Scraper.Options)
    (r : Scraper.Result) (evs : list event) (e : Scraper.EnrichedPost) (iso : jsstring) :
  Scraper.scrapeFacebookPage h b o = (Return r, evs) ->
  e ∈ Scraper.posts r ->
  Scraper.dateISO e = Some iso ->
  iso <> [] /\
  exists d, Scraper.date (Scraper.post e) = Some d /\ d <> [] /\
            parseDateToISO h (Some d) = Return (Some iso).
Proof.
  intros H He Hiso. unfold Scraper.scrapeFacebookPage in H.
  destruct (Scraper.FB_PAGE_URL o) as [u|]; [|discriminate].
  destruct (negb (truthy u)); [discriminate|].
  destruct (login_result b); [discriminate|].
  destruct (goto_result b); [discriminate|].
  destruct (Scraper.enrich h _) as [es|] eqn:E; [|discriminate].
  injection H as <- _. cbn [Scraper.posts] in He.
  destruct (enrich_elem h _ es e E He) as (res & Hp & Hd).
  rewrite Hiso in Hd. unfold Scraper.or_null in Hd.
  destruct res as [s|]; [|discriminate].
  destruct s as [|c s]; [discriminate|]. injection Hd as ->.
  split; [done|].
  destruct (Scraper.date (Scraper.post e)) as [d|]; [|discriminate].
  destruct d as [|x d]; [discriminate|].
  exists (x :: d). by repeat split.
Qed.

(** ** A page with one dated post *)

Definition dated_article : Article :=
  mkArticle (str "Opening hours changed Like Comment Share") [] []
            (Some (str "3d", str "3 d")) None None.
Definition dated_browser : Browser :=
  mkBrowser None None (Some (str " A  page ")) (None, None) (fun _ => 1) [dated_article].
Definition dated_options : Scraper.Options :=
  Scraper.mkOptions (Some (str "https://www.facebook.com/page")) (Some 1) None None.
Definition dated_options' : Optimized.Options :=
  Optimized.mkOptions (Some (str "https://www.facebook.com/page")) (Some 1).

Lemma dated_scrape_returns :
  exists r evs,
    Scraper.scrapeFacebookPage (utc_host 0) dated_browser dated_options = (Return r, evs) /\
    exists e, Scraper.posts r = [e] /\
              Scraper.dateISO e = Some (str "1969-12-29T00:00:00.000Z").
Proof.
  destruct (Scraper.scrapeFacebookPage (utc_host 0) dated_browser dated_options)
    as [[r|m] evs] eqn:E; [|by vm_compute in E].
  exists r, evs. split; [done|].
  vm_compute in E. injection E as <- _. eexists. split; reflexivity.
Defined.

Lemma dated_scrape_returns' :
  exists r evs,
    Optimized.scrapeFacebookPageOptimized (utc_host 0) dated_browser dated_options'
    = (Return r, evs).
Proof.
  destruct (Optimized.scrapeFacebookPageOptimized (utc_host 0) dated_browser dated_options')
    as [[r|m] evs] eqn:E; [by eauto|by vm_compute in E].
Defined.


Lemma scrape_record_count_witness :
  exists r evs,
    Scraper.scrapeFacebookPage (utc_host 0) dated_browser dated_options = (Return r, evs) /\
    Z.of_nat (length (Scraper.posts r))
    = Z.min (Scraper.posts_target dated_options) (Scraper.loadedArticles (Scraper.meta r)) /\
    Scraper.postsTarget (Scraper.meta r) = Scraper.posts_target dated_options /\
    0 <= Scraper.loadedArticles (Scraper.meta r) <= Z.of_nat (length (articles dated_browser)).
Proof.
  destruct dated_scrape_returns as (r & evs & E & _).
  exists r, evs. split; [exact E|].
  assert (Ht : 0 <= Scraper.posts_target dated_options) by (vm_compute; discriminate).
  exact (scrape_record_count (utc_host 0) dated_browser dated_options r evs E Ht).
Defined.

Lemma dateISO_only_from_date_witness :
  exists r evs e,
    Scraper.scrapeFacebookPage (utc_host 0) dated_browser dated_options = (Return r, evs) /\
    e ∈ Scraper.posts r /\
    Scraper.dateISO e = Some (str "1969-12-29T00:00:00.000Z") /\
    exists d, Scraper.date (Scraper.post e) = Some d /\ d <> [] /\
              parseDateToISO (utc_host 0) (Some d)
              = Return (Some (str "1969-12-29T00:00:00.000Z")).
Proof.
  destruct dated_scrape_returns as (r & evs & E & e & Hp & Hd).
  exists r, evs, e. split; [exact E|].
  assert (He : e ∈ Scraper.posts r) by (rewrite Hp; apply elem_of_cons; by left).
  split; [exact He|]. split; [exact Hd|].
  exact (proj2 (dateISO_only_from_date (utc_host 0) dated_browser dated_options
                  r evs e _ E He Hd)).
Defined.

End RecordFacts.

(** * 18. The records and the summary of scraper-optimized.js *)

Module SummaryFacts.
Import JS JSDate Utils Dom Measures Optimized OptimizedFacts.

Lemma ss_filter {A} (R : A -> A -> Prop) (f : A -> bool) l :
  StronglySorted R l -> StronglySorted R (List.filter f l).
Proof.
  induction 1 as [|x l Hl IH Hx]; simpl; [constructor|].
  destruct (f x); [|done]. constructor; [done|].
  apply Forall_forall. intros y Hy. apply list_elem_of_In, filter_In in Hy as [Hy _].
  rewrite Forall_forall in Hx. by apply Hx, list_elem_of_In.
Qed.

Lemma ss_take {A} (R : A -> A -> Prop) n l :
  StronglySorted R l -> StronglySorted R (take n l).
Proof.
  intros H. revert n. induction H as [|x l Hl IH Hx]; intros [|n]; simpl; try constructor.
  - apply IH.
  - apply Forall_forall. intros y Hy. apply subseteq_take in Hy.
    rewrite Forall_forall in Hx. by apply Hx.
Qed.

Lemma imap_ids l : forall (f : nat -> Article -> Post) k,
  (forall n a, id (f n a) = Z.of_nat n + k) ->
  StronglySorted id_lt (imap f l) /\
  Forall (fun p => k <= id p < k + Z.of_nat (length l)) (imap f l).
Proof.
  induction l as [|a l IH]; intros f k Hf; simpl; [split; constructor|].
  destruct (IH (f ∘ S) (k + 1)) as [H1 H2].
  { intros n x. unfold compose. rewrite Hf. lia. }
  split.
  - constructor; [done|]. eapply Forall_impl; [exact H2|].
    intros p Hp. unfold id_lt. rewrite Hf. simpl in Hp. lia.
  - constructor; [rewrite Hf; lia|]. eapply Forall_impl; [exact H2|].
    intros p Hp. simpl in Hp. lia.
Qed.

(** X10.  In a result of the optimized scraper the records come with
    strictly increasing [id]s between 1 and the number of articles, and
    each has a text of more than 5 code units that is not the
    placeholder [N/A]. *)
Theorem optimized_records_shape (h : Host) (b : Browser) (o : Options)
    (r : Result) (evs : list event) :
  scrapeFacebookPageOptimized h b o = (Return r, evs) ->
  StronglySorted id_lt (posts r) /\
  forall p, p ∈ posts r ->
    1 <= id p <= Z.of_nat (length (articles b)) /\
    (5 < length (text p))%nat /\ text p <> str "N/A".
Proof.
  intros H. pose proof (optimized_result_posts h b o r evs H) as Hp.
  destruct (imap_ids (articles b) to_post 1) as [S1 S2].
  { intros n a. unfold to_post. cbn [id]. lia. }
  split.
  - rewrite Hp. unfold Scraper.slice0, extractPosts. by apply ss_take, ss_filter.
  - intros p Hin. rewrite Hp in Hin. apply subseteq_take in Hin.
    apply list_elem_of_In, filter_In in Hin as [Hin Hk].
    rewrite Forall_forall in S2. apply list_elem_of_In in Hin.
    split; [specialize (S2 p Hin); simpl in S2; lia|].
    unfold keep in Hk. apply andb_true_iff in Hk as [Hk Hl].
    apply andb_true_iff in Hk as [_ Hn].
    split; [apply Z.ltb_lt in Hl; lia|].
    intros E. rewrite E in Hn. by vm_compute in Hn.
Qed.

(** ** The summary *)






Lemma optimized_records_shape_witness :
  exists r evs,
    scrapeFacebookPageOptimized (utc_host 0) RecordFacts.dated_browser
      RecordFacts.dated_options' = (Return r, evs) /\
    StronglySorted id_lt (posts r) /\
    forall p, p ∈ posts r ->
      1 <= id p <= Z.of_nat (length (articles RecordFacts.dated_browser)) /\
      (5 < length (text p))%nat /\ text p <> str "N/A".
Proof.
  destruct RecordFacts.dated_scrape_returns' as (r & evs & E).
  exists r, evs. split; [exact E|].
  exact (optimized_records_shape (utc_host 0) RecordFacts.dated_browser
           RecordFacts.dated_options' r evs E).
Defined.


End SummaryFacts.

(** * 19. The digit normalisers *)

Module DigitFacts.
Import JS Utils Matching MatchingFacts UtilsFacts Measures.

(** ** Single steps of the matcher *)

Lemma match_at_char s p i :
  match_at s (RChar p) i =
  match s !! i with
  | Some x => if p x then Some (S i, []) else None
  | None => None
  end.
Proof. reflexivity. Qed.

Lemma search_from_ge s r : forall tries i m,
  search_from s r tries i = Some m -> (i <= m_start m)%nat.
Proof.
  induction tries as [|t IH]; intros i m H; cbn [search_from] in H;
    destruct (match_at s r i) as [[j c]|].
  - injection H as <-. simpl. lia.
  - discriminate.
  - injection H as <-. simpl. lia.
  - apply IH in H. lia.
Qed.

Lemma re_exec_ge s r from m : re_exec s r from = Some m -> (from <= m_start m)%nat.
Proof.
  unfold re_exec. destruct (from <=? List.length s)%nat; [|discriminate].
  apply search_from_ge.
Qed.

(** A search that fails at its first position goes on from the next. *)
Lemma re_exec_skip s r from :
  (from < List.length s)%nat -> match_at s r from = None ->
  re_exec s r from = re_exec s r (S from).
Proof.
  intros Hlt Hn. unfold re_exec.
  destruct (Nat.leb_spec from (List.length s)); [|lia].
  destruct (Nat.leb_spec (S from) (List.length s)); [|lia].
  replace (List.length s - from)%nat with (S (List.length s - S from)) by lia.
  cbn [search_from]. by rewrite Hn.
Qed.

Lemma matches_from_skip s r fuel from :
  (from < List.length s)%nat -> match_at s r from = None ->
  matches_from s r fuel from = matches_from s r fuel (S from).
Proof.
  intros Hlt Hn. destruct fuel as [|fuel]; [done|]. cbn [matches_from].
  by rewrite (re_exec_skip s r from Hlt Hn).
Qed.

Lemma matches_from_head_ge s r fuel from m ms :
  matches_from s r fuel from = m :: ms -> (from <= m_start m)%nat.
Proof.
  destruct fuel as [|fuel]; [discriminate|]. cbn [matches_from].
  destruct (re_exec s r from) as [m'|] eqn:E; [|discriminate].
  intros [= <- _]. by apply re_exec_ge in E.
Qed.

Lemma replace_walk_shift s f ms from x :
  s !! from = Some x ->
  match ms with [] => True | m :: _ => (S from <= m_start m)%nat end ->
  replace_walk s f ms from = x :: replace_walk s f ms (S from).
Proof.
  intros Hx Hms.
  assert (Hd : drop from s = x :: drop (S from) s) by (by apply drop_S).
  destruct ms as [|m ms]; simpl; [done|].
  unfold substring. rewrite Hd.
  replace (m_start m - from)%nat with (S (m_start m - S from)) by lia. done.
Qed.

Lemma re_exec_char_end s p from :
  (List.length s <= from)%nat -> re_exec s (RChar p) from = None.
Proof.
  intros Hge. unfold re_exec. destruct (Nat.leb_spec from (List.length s)); [|done].
  assert (from = List.length s) by lia. subst from.
  rewrite Nat.sub_diag. cbn [search_from]. rewrite match_at_char.
  unfold jsstring in *. by rewrite lookup_ge_None_2 by lia.
Qed.

(** [s.replace(/[class]/g, f)] rewrites the string unit by unit. *)
Lemma replace_class_from s p f : forall l from fuel,
  drop from s = l -> (List.length l < fuel)%nat ->
  replace_walk s f (matches_from s (RChar p) fuel from) from
  = flat_map (fun c => if p c then f [c] else [c]) l.
Proof.
  induction l as [|x l IH]; intros from fuel Hd Hf.
  - assert (Hge : (List.length s <= from)%nat).
    { apply (f_equal List.length) in Hd. rewrite length_drop in Hd. simpl in Hd. lia. }
    destruct fuel as [|fuel]; [by simpl|]. cbn [matches_from].
    rewrite re_exec_char_end by done. simpl. by rewrite Hd.
  - assert (Hx : s !! from = Some x).
    { rewrite <- (Nat.add_0_r from), <- lookup_drop, Hd. done. }
    assert (Hlt : (from < List.length s)%nat) by (by eapply lookup_lt_Some).
    assert (Hd' : drop (S from) s = l).
    { rewrite (drop_S _ _ _ Hx) in Hd. by injection Hd. }
    simpl flat_map. destruct (p x) eqn:Hp.
    + destruct fuel as [|fuel]; [simpl in Hf; lia|]. simpl matches_from.
      assert (E : re_exec s (RChar p) from = Some (mkMatch from (S from) [])).
      { unfold re_exec. destruct (Nat.leb_spec from (List.length s)); [|lia].
        destruct (List.length s - from)%nat; cbn [search_from];
          rewrite match_at_char; unfold jsstring in *; by rewrite Hx, Hp. }
      rewrite E. cbn [m_start m_end].
      destruct (Nat.ltb_spec from (S from)); [|lia].
      simpl replace_walk. cbn [m_start m_end].
      unfold m_whole, substring. cbn [m_start m_end].
      rewrite Nat.sub_diag. simpl take at 1.
      replace (S from - from)%nat with 1%nat by lia.
      rewrite (drop_S _ _ _ Hx). simpl take. rewrite take_0. simpl app at 1.
      f_equal. apply IH; [done|simpl in Hf; lia].
    + rewrite matches_from_skip;
        [|done|rewrite match_at_char; unfold jsstring in *; by rewrite Hx, Hp].
      rewrite (replace_walk_shift s f _ from x Hx).
      * simpl. f_equal. apply IH; [done|simpl in Hf; lia].
      * destruct (matches_from s (RChar p) fuel (S from)) as [|m ms] eqn:E; [done|].
        by apply matches_from_head_ge in E.
Qed.

Lemma replace_class s p f :
  re_replace_g s (RChar p) f = flat_map (fun c => if p c then f [c] else [c]) s.
Proof.
  unfold re_replace_g, all_matches. apply replace_class_from; [done|lia].
Qed.

Lemma flat_map_units {A} (p : A -> bool) (g : A -> A) (s : list A) :
  flat_map (fun c => if p c then [g c] else [c]) s = map (fun c => if p c then g c else c) s.
Proof. induction s as [|c s IH]; simpl; [done|]. rewrite IH. by destruct (p c). Qed.

Lemma arabic_digit_cases c :
  is_arabic_digit c = true ->
  c = 0x660 \/ c = 0x661 \/ c = 0x662 \/ c = 0x663 \/ c = 0x664 \/
  c = 0x665 \/ c = 0x666 \/ c = 0x667 \/ c = 0x668 \/ c = 0x669.
Proof.
  unfold is_arabic_digit, in_range. rewrite andb_true_iff, !Z.leb_le. lia.
Qed.

Lemma arabicDigitMap_lookup c :
  is_arabic_digit c = true -> assoc c arabicDigitMap = Some (latin_digit c).
Proof.
  intros H. unfold latin_digit. rewrite H.
  destruct (arabic_digit_cases c H) as [->|[->|[->|[->|[->|[->|[->|[->|[->| ->]]]]]]]]];
    reflexivity.
Qed.

Lemma normalizeArabicDigits_map s : normalizeArabicDigits s = map latin_digit s.
Proof.
  unfold normalizeArabicDigits. rewrite replace_class.
  transitivity (flat_map (fun c => [latin_digit c]) s).
  - apply flat_map_ext. intros c. unfold latin_digit at 1.
    destruct (is_arabic_digit c) eqn:E; [|done].
    rewrite (arabicDigitMap_lookup c E). unfold latin_digit. by rewrite E.
  - induction s as [|c s IH]; cbn [flat_map map app]; [done|by rewrite IH].
Qed.

Lemma replace_one s a b :
  re_replace_g s (chr a) (fun _ => [b]) = map (fun c => if a =? c then b else c) s.
Proof. unfold chr. rewrite replace_class. apply (flat_map_units (Z.eqb a) (fun _ => b)). Qed.

Lemma arabicToLatin_map s : Optimized.arabicToLatin s = map latin_digit s.
Proof.
  unfold Optimized.arabicToLatin. cbn [fold_left]. rewrite !replace_one, !map_map.
  apply map_ext. intros c. unfold latin_digit.
  destruct (is_arabic_digit c) eqn:E.
  - destruct (arabic_digit_cases c E) as [->|[->|[->|[->|[->|[->|[->|[->|[->| ->]]]]]]]]];
      reflexivity.
  - unfold is_arabic_digit, in_range in E.
    apply andb_false_iff in E. rewrite !Z.leb_gt in E.
    repeat match goal with
           | |- context [?a =? c] => destruct (Z.eqb_spec a c); [lia|cbv iota]
           end.
    reflexivity.
Qed.

Lemma latin_digit_not_arabic c : is_arabic_digit (latin_digit c) = false.
Proof.
  unfold latin_digit. destruct (is_arabic_digit c) eqn:E; [|done].
  apply arabic_digit_cases in E.
  destruct E as [->|[->|[->|[->|[->|[->|[->|[->|[->| ->]]]]]]]]]; reflexivity.
Qed.

(** X12.  [normalizeArabicDigits] of utils.js and [arabicToLatin] of the
    optimized scraper are the same function: each replaces every
    Arabic-Indic digit by the Latin digit of the same value and keeps
    every other code unit, so the result has the length of the input and
    no Arabic-Indic digit. *)
Theorem digit_normalisers_agree (s : jsstring) :
  normalizeArabicDigits s = map latin_digit s /\
  Optimized.arabicToLatin s = normalizeArabicDigits s /\
  List.length (normalizeArabicDigits s) = List.length s /\
  Forall (fun c => is_arabic_digit c = false) (normalizeArabicDigits s).
Proof.
  rewrite arabicToLatin_map, normalizeArabicDigits_map.
  repeat split; [by rewrite length_map|].
  apply Forall_forall. intros c Hc.
  apply list_elem_of_In, in_map_iff in Hc as (x & <- & _). apply latin_digit_not_arabic.
Qed.

End DigitFacts.

(** * 20. Running the matcher forwards *)

Module ForwardFacts.
Import JS JSDate Utils Dom Matching MatchingFacts UtilsFacts Measures Shapes DigitFacts.

(** ** Running the matcher forwards *)

Lemma lookup_drop_head (s : list Z) i x rest :
  drop i s = x :: rest -> s !! i = Some x.
Proof.
  intros H. rewrite <- (Nat.add_0_r i). unfold jsstring in *.
  rewrite <- lookup_drop, H. done.
Qed.

Lemma lookup_drop_nil (s : list Z) i : drop i s = [] -> s !! i = None.
Proof.
  intros H. apply lookup_ge_None_2. apply (f_equal length) in H.
  rewrite length_drop in H. simpl in H. lia.
Qed.

Lemma drop_tail (s : list Z) i x rest : drop i s = x :: rest -> drop (S i) s = rest.
Proof.
  intros H. pose proof (lookup_drop_head s i x rest H) as Hx.
  unfold jsstring in *. rewrite (drop_S _ _ _ Hx) in H. by injection H.
Qed.

(** ** The equations of the matcher *)

Lemma rmatch_seq s a b i c k :
  rmatch s (RSeq a b) i c k = rmatch s a i c (fun j c' => rmatch s b j c' k).
Proof. reflexivity. Qed.

Lemma rmatch_alt s a b i c k :
  rmatch s (RAlt a b) i c k
  = match rmatch s a i c k with Some m => Some m | None => rmatch s b i c k end.
Proof. reflexivity. Qed.

Lemma rmatch_group s n a i c k :
  rmatch s (RGroup n a) i c k = rmatch s a i c (fun j c' => k j ((n, (i, j)) :: c')).
Proof. reflexivity. Qed.

(** A character that fits is consumed. *)
Lemma rmatch_char_hit s p i c k x :
  s !! i = Some x -> p x = true -> rmatch s (RChar p) i c k = k (S i) c.
Proof. intros Hx Hp. cbn [rmatch]. unfold jsstring in *. by rewrite Hx, Hp. Qed.

Lemma rmatch_char_miss s p i c k :
  match s !! i with Some x => p x = false | None => True end ->
  rmatch s (RChar p) i c k = None.
Proof. intros H. cbn [rmatch]. unfold jsstring in *. destruct (s !! i); [by rewrite H|done]. Qed.

(** A starred class takes the whole run when what follows then matches. *)
Lemma star_class_greedy s p k c run rest i :
  drop i s = run ++ rest ->
  Forall (fun x => p x = true) run ->
  match rest with [] => True | x :: _ => p x = false end ->
  k (i + length run)%nat c <> None ->
  rmatch s (RStar (RChar p)) i c k = k (i + length run)%nat c.
Proof.
  intros Hd Hrun Hrest Hk. cbn [rmatch]. unfold jsstring in *.
  assert (Hf : (length run <= length s)%nat).
  { apply (f_equal length) in Hd. rewrite length_drop, length_app in Hd. lia. }
  revert Hf. generalize (length s) as fuel. intros fuel. revert i run Hd Hrun Hk.
  induction fuel as [|fuel IH]; intros i run Hd Hrun Hk Hf.
  - destruct run; [|simpl in Hf; lia]. simpl. by rewrite Nat.add_0_r.
  - destruct run as [|x run].
    + simpl length. rewrite Nat.add_0_r in *. simpl in Hd.
      assert (Hx : match s !! i with Some x => p x = false | None => True end).
      { destruct rest as [|y rest].
        - by rewrite (lookup_drop_nil s i Hd).
        - by rewrite (lookup_drop_head s i y rest Hd). }
      unfold jsstring in *.
      destruct (s !! i) as [x|]; [rewrite Hx|]; done.
    + assert (Hx : s !! i = Some x) by (by eapply lookup_drop_head).
      pose proof (Forall_inv Hrun) as Hp. simpl in Hp.
      pose proof (Forall_inv_tail Hrun) as Hrun'.
      assert (Hd' : drop (S i) s = run ++ rest) by (by eapply drop_tail).
      assert (E : (i + length (x :: run) = S i + length run)%nat) by (simpl; lia).
      rewrite E in *.
      unfold jsstring in *. rewrite Hx, Hp.
      destruct (Nat.ltb_spec i (S i)); [|lia].
      rewrite (IH (S i) run Hd' Hrun' Hk) by (simpl in Hf; lia).
      destruct (k (S i + length run)%nat c); done.
Qed.

(** A match at the first position is the leftmost one. *)
Lemma re_exec_first s r j c :
  match_at s r 0 = Some (j, c) -> re_exec s r 0 = Some (mkMatch 0 j c).
Proof.
  intros H. unfold re_exec. simpl Nat.leb. cbv iota.
  destruct (length s - 0)%nat; cbn [search_from]; by rewrite H.
Qed.

(** A search finds a match when there is one to find. *)
Lemma search_from_finds s r i : forall tries from,
  (from <= i <= from + tries)%nat -> match_at s r i <> None ->
  search_from s r tries from <> None.
Proof.
  induction tries as [|t IH]; intros from Hi Hm; cbn [search_from].
  - assert (i = from) by lia. subst i. by destruct (match_at s r from) as [[j c]|].
  - destruct (match_at s r from) as [[j c]|] eqn:E; [done|].
    apply IH; [|done]. destruct (decide (i = from)) as [->|]; [congruence|lia].
Qed.

Lemma re_test_finds s r i :
  (i <= length s)%nat -> match_at s r i <> None -> re_test r s = true.
Proof.
  intros Hi Hm. unfold re_test, re_exec. simpl Nat.leb. cbv iota.
  pose proof (search_from_finds s r i (length s - 0) 0 ltac:(lia) Hm) as H.
  by destruct (search_from s r (length s - 0) 0).
Qed.

End ForwardFacts.

(** * 21. What [parseCount] returns *)

Module CountFacts.
Import JS JSDate Utils Dom Matching MatchingFacts UtilsFacts Measures Shapes DigitFacts RecordFacts ForwardFacts.

(** ** Strings the normalisation steps leave alone *)

Lemma trim_start_id c s : is_space c = false -> trim_start (c :: s) = c :: s.
Proof. intros H. simpl. by rewrite H. Qed.

(** [trim] does nothing to a string that begins and ends with something
    other than white space. *)
Lemma trim_id s : s <> [] -> trimmed s -> trim s = s.
Proof.
  intros Hne Ht. destruct s as [|c s]; [done|]. destruct Ht as (Hc & d & Hl & Hd).
  unfold trim. rewrite (trim_start_id c s Hc).
  assert (Hr : exists r, rev (c :: s) = d :: r).
  { destruct (rev (c :: s)) as [|y r] eqn:E.
    - apply (f_equal (@rev Z)) in E. rewrite rev_involutive in E. done.
    - exists r. f_equal. apply (f_equal (@rev Z)) in E. rewrite rev_involutive in E.
      rewrite E in Hl. simpl in Hl. rewrite last_snoc in Hl. by injection Hl. }
  destruct Hr as [r Hr]. rewrite Hr, (trim_start_id d r Hd), <- Hr.
  apply rev_involutive.
Qed.

Lemma toLowerCase_id s :
  Forall (fun c => lower_unit c = [c]) s -> toLowerCase s = s.
Proof.
  unfold toLowerCase. induction 1 as [|c s Hc _ IH]; simpl; [done|]. by rewrite Hc, IH.
Qed.

Lemma replace_absent s p f :
  Forall (fun c => p c = false) s -> re_replace_g s (RChar p) f = s.
Proof.
  intros H. rewrite replace_class. induction H as [|c s Hc _ IH]; simpl; [done|].
  by rewrite Hc, IH.
Qed.

(** ** The numeric token *)

(** In a string that opens with a run of digits not followed by a digit
    or a point, [/([0-9]+(?:\.[0-9]+)?)/] matches the run. *)
Lemma number_token d ds rest :
  Forall (fun c => is_digit c = true) (d :: ds) ->
  match rest with [] => True | x :: _ => is_digit x = false /\ x <> 46 end ->
  re_match ((d :: ds) ++ rest) re_number
  = Some (mkMatch 0 (S (length ds)) [(1%nat, (0%nat, S (length ds)))]).
Proof.
  intros Hds Hrest. unfold re_match. apply re_exec_first.
  set (s := (d :: ds) ++ rest).
  pose proof (Forall_inv Hds) as Hd. simpl in Hd.
  pose proof (Forall_inv_tail Hds) as Hds'.
  unfold match_at, re_number, rplus, ropt.
  change (rmatch s (RGroup 1 ?a) 0 [] ?k)
    with (rmatch s a 0 [] (fun j c' => k j ((1%nat, (0%nat, j)) :: c'))).
  cbv beta.
  match goal with
  | |- rmatch s (RSeq (RSeq ?a ?b) ?c) ?i ?cs ?k = _ =>
      change (rmatch s (RSeq (RSeq a b) c) i cs k)
        with (rmatch s a i cs (fun j c' => rmatch s b j c' (fun j' c'' => rmatch s c j' c'' k)))
  end.
  unfold rdigit at 1.
  rewrite (rmatch_char_hit s is_digit 0 _ _ d eq_refl Hd).
  assert (Hdrop : drop 1 s = ds ++ rest) by done.
  assert (Hrest' : match rest with [] => True | x :: _ => is_digit x = false end).
  { destruct rest; [done|tauto]. }
  assert (Hk : rmatch s (RAlt (RSeq (chr 46) (RSeq rdigit (RStar rdigit))) REmpty)
                 (1 + length ds) []
                 (fun j c' => Some (j, (1%nat, (0%nat, j)) :: c'))
               = Some (S (length ds), [(1%nat, (0%nat, S (length ds)))])).
  { change (rmatch s (RAlt ?a REmpty) ?i ?c ?k)
      with (match rmatch s a i c k with Some m => Some m | None => k i c end).
    change (rmatch s (RSeq (chr 46) ?b) ?i ?c ?k)
      with (rmatch s (chr 46) i c (fun j c' => rmatch s b j c' k)).
    unfold chr. rewrite rmatch_char_miss; [done|].
    assert (Hl : s !! (1 + length ds)%nat = rest !! 0%nat).
    { subst s. unfold jsstring in *.
      rewrite lookup_app_r by (simpl; lia).
      f_equal. simpl. lia. }
    unfold jsstring in *. rewrite Hl. destruct rest as [|x rest]; [done|].
    destruct Hrest as [_ Hx]. cbn [lookup list_lookup]. apply Z.eqb_neq. congruence. }
  unfold rdigit.
  rewrite (star_class_greedy s is_digit _ [] ds rest 1 Hdrop Hds' Hrest');
    cbv beta; fold rdigit; [exact Hk|].
  intros E. pose proof (eq_trans (eq_sym Hk) E). discriminate.
Qed.

(** ** The magnitude tests *)

Lemma wordb_holds s i c j c' :
  matches s RWordB i c j c' -> word_boundary s i = true /\ j = i.
Proof. inversion 1; subst; eauto. Qed.

Lemma alt_inv s a b i c j c' :
  matches s (RAlt a b) i c j c' -> matches s a i c j c' \/ matches s b i c j c'.
Proof. inversion 1; subst; eauto. Qed.

Lemma ralt_inv s l : forall i c j c',
  matches s (ralt l) i c j c' -> exists r, r ∈ l /\ matches s r i c j c'.
Proof.
  induction l as [|a l IH]; intros i c j c' H.
  - apply char_inv in H as (_ & _ & x & _ & Hx). done.
  - destruct l as [|b l].
    + exists a. split; [by left|done].
    + change (ralt (a :: b :: l)) with (RAlt a (ralt (b :: l))) in H.
      apply alt_inv in H as [H|H].
      * exists a. split; [by left|done].
      * apply IH in H as (r & Hr & H). exists r. split; [by right|done].
Qed.

Lemma lit_head s x w i c j c' :
  matches s (lit (x :: w)) i c j c' -> s !! i = Some x.
Proof.
  unfold lit. destruct w as [|y w]; cbn [map rseq]; intros H.
  - apply char_inv in H as (_ & _ & z & Hz & Hx). apply Z.eqb_eq in Hx. by subst.
  - apply seq_inv in H as (j1 & c1 & H & _).
    apply char_inv in H as (_ & _ & z & Hz & Hx). apply Z.eqb_eq in Hx. by subst.
Qed.

(** A magnitude word is found only in a text that holds its first letter. *)
Lemma word_test_inv alts s :
  re_test (word_re alts) s = true ->
  exists w, w ∈ alts /\ forall x, head w = Some x -> x ∈ s.
Proof.
  unfold re_test. destruct (re_exec s (word_re alts) 0) as [m|] eqn:E; [|discriminate].
  intros _. apply re_exec_sound in E. unfold word_re in E. cbn [rseq] in E.
  apply seq_inv in E as (j1 & c1 & H1 & E).
  apply seq_inv in E as (j2 & c2 & H2 & _).
  apply group_inv in H2 as (c3 & H2 & _).
  apply ralt_inv in H2 as (r & Hr & H2).
  apply list_elem_of_In, in_map_iff in Hr as (w & <- & Hw).
  exists w. split; [by apply list_elem_of_In|].
  intros x Hx. destruct w as [|y w]; [discriminate|]. injection Hx as ->.
  apply lit_head in H2. by eapply list_elem_of_lookup_2.
Qed.

(** None of the Arabic magnitude words is found in a text of ASCII
    characters. *)
Lemma arabic_words_absent s :
  Forall (fun c => c < 0x600) s ->
  re_test re_thousand s = false /\ re_test re_million s = false /\
  re_test re_billion s = false.
Proof.
  intros Hs. rewrite Forall_forall in Hs.
  repeat split.
  all: match goal with |- ?t = false => destruct t eqn:E; [exfalso|done] end.
  all: apply word_test_inv in E as (w & Hw & Hx).
  all: repeat (apply elem_of_cons in Hw as [->|Hw];
               [specialize (Hx _ eq_refl); apply Hs in Hx; lia|]).
  all: by apply elem_of_nil in Hw.
Qed.

(** [/\bu\b/] is found only where [u] stands between two word boundaries. *)
Lemma letter_test_inv u s :
  re_test (rseq [RWordB; chr u; RWordB]) s = true ->
  exists i, s !! i = Some u /\ word_boundary s i = true /\ word_boundary s (S i) = true.
Proof.
  unfold re_test. destruct (re_exec s _ 0) as [m|] eqn:E; [|discriminate].
  intros _. apply re_exec_sound in E. cbn [rseq] in E.
  apply seq_inv in E as (j1 & c1 & H1 & E).
  apply seq_inv in E as (j2 & c2 & H2 & H3).
  apply wordb_holds in H1 as [B1 ->].
  apply char_inv in H2 as (-> & _ & x & Hx & Hu). apply Z.eqb_eq in Hu. subst x.
  apply wordb_holds in H3 as [B3 _].
  by exists (m_start m).
Qed.

(** [/\bu\b/] finds a letter that stands alone at the end of the text. *)
Lemma letter_test_found u pre :
  is_word u = true ->
  re_test (rseq [RWordB; chr u; RWordB]) (pre ++ [32; u]) = true.
Proof.
  intros Hu. set (s := pre ++ [32; u]).
  assert (L0 : s !! length pre = Some 32).
  { subst s. unfold jsstring in *. rewrite lookup_app_r by lia.
    by rewrite Nat.sub_diag. }
  assert (L1 : s !! S (length pre) = Some u).
  { subst s. unfold jsstring in *. rewrite lookup_app_r by lia.
    by replace (S (length pre) - length pre)%nat with 1%nat by lia. }
  assert (L2 : s !! S (S (length pre)) = None).
  { subst s. unfold jsstring in *. apply lookup_ge_None_2. rewrite length_app. simpl. lia. }
  apply (re_test_finds s _ (S (length pre))).
  { subst s. rewrite length_app. simpl. lia. }
  unfold match_at. cbn [rseq rmatch chr].
  unfold word_boundary, word_before, word_at. unfold jsstring in *.
  rewrite L0, L1, L2, Hu, Z.eqb_refl. done.
Qed.

Lemma letter_test_absent u s :
  u ∉ s -> re_test (rseq [RWordB; chr u; RWordB]) s = false.
Proof.
  intros Hu. destruct (re_test _ s) eqn:E; [exfalso|done].
  apply letter_test_inv in E as (i & Hi & _). apply Hu. by eapply list_elem_of_lookup_2.
Qed.

Lemma digit_is_word c : is_digit c = true -> is_word c = true.
Proof. intros H. unfold is_word. rewrite H. by rewrite !orb_true_r. Qed.

(** [/\bu\b/] does not find a letter written directly after a digit. *)
Lemma letter_test_attached u ds :
  ds <> [] -> Forall (fun c => is_digit c = true) ds ->
  is_word u = true -> is_digit u = false ->
  re_test (rseq [RWordB; chr u; RWordB]) (ds ++ [u]) = false.
Proof.
  intros Hne Hds Hw Hd. destruct (re_test _ _) eqn:E; [exfalso|done].
  apply letter_test_inv in E as (i & Hi & B & _).
  unfold jsstring in *.
  destruct (decide (i < length ds)%nat) as [Hlt|Hge].
  - rewrite lookup_app_l in Hi by done.
    rewrite Forall_forall in Hds. apply list_elem_of_lookup_2 in Hi.
    apply Hds in Hi. congruence.
  - assert (i = length ds).
    { apply lookup_lt_Some in Hi. rewrite length_app in Hi. simpl in Hi. lia. }
    subst i. unfold word_boundary, word_before, word_at in B.
    unfold jsstring in *. rewrite Hi, Hw in B.
    destruct (length ds) as [|n] eqn:En; [by destruct ds|].
    destruct (lookup_lt_is_Some_2 ds n ltac:(lia)) as [x Hx].
    rewrite lookup_app_l, Hx in B by lia.
    rewrite Forall_forall in Hds. apply list_elem_of_lookup_2 in Hx.
    apply Hds in Hx. by rewrite (digit_is_word x Hx) in B.
Qed.

(** ** [parseCount] on a run of digits and what is written after it *)

Lemma latin_digit_digit c : digitish c -> is_digit (latin_digit c) = true.
Proof.
  intros [H|H]; unfold latin_digit.
  - destruct (is_arabic_digit c) eqn:E; [|done].
    apply is_digit_range in H. apply arabic_digit_cases in E. lia.
  - rewrite H. apply arabic_digit_cases in H. apply is_digit_range. lia.
Qed.

Lemma round_scaled_whole v f : round_scaled (mkDec v 0) f = v * f.
Proof.
  unfold round_scaled. cbn [mantissa scale Z.of_nat]. rewrite Z.pow_0_r.
  Z.div_mod_to_equations. lia.
Qed.

Lemma parseFloat_digits d ds :
  Forall (fun c => is_digit c = true) (d :: ds) ->
  parseFloat (d :: ds) = Some (mkDec (digits_value (d :: ds)) 0).
Proof.
  intros H. unfold parseFloat.
  rewrite (trim_start_id d ds) by (apply digit_not_space; by inversion H).
  by rewrite (span_digits_all (d :: ds) H).
Qed.

Lemma parseCount_run (ds rest : jsstring) :
  ds <> [] -> Forall digitish ds -> Forall tail_char rest ->
  (forall x, last rest = Some x -> x <> 32) ->
  let v := digits_value (map latin_digit ds) in
  let s := map latin_digit ds ++ rest in
  parseCount (Some (ds ++ rest))
  = Some (v * (if re_test re_k s then 1000
               else if re_test re_m s then 1000000
               else if re_test re_b s then 1000000000
               else 1)).
Proof.
  intros Hne Hds Hrest Hlast v s.
  assert (Hd : Forall (fun c => is_digit c = true) (map latin_digit ds)).
  { apply Forall_map. eapply Forall_impl; [exact Hds|]. apply latin_digit_digit. }
  assert (Hr : map latin_digit rest = rest).
  { clear -Hrest. induction Hrest as [|c r Hc _ IH]; simpl; [done|]. rewrite IH. f_equal.
    unfold latin_digit, is_arabic_digit, in_range.
    destruct Hc as [->|Hc]; [done|].
    destruct (Z.leb_spec 1632 c); [lia|done]. }
  assert (Hlow : Forall (fun c => c < 0x600 /\ lower_unit c = [c] /\
                                  (0x66B =? c) = false /\ (0x66C =? c) = false) s).
  { subst s. apply Forall_app. split.
    - eapply Forall_impl; [exact Hd|]. intros c Hc. apply is_digit_range in Hc.
      unfold lower_unit, in_range.
      destruct (Z.leb_spec 65 c); [lia|]. cbn [andb].
      destruct (Z.eqb_spec c 8490); [lia|]. destruct (Z.eqb_spec c 304); [lia|].
      repeat split; [lia|apply Z.eqb_neq; lia|apply Z.eqb_neq; lia].
    - eapply Forall_impl; [exact Hrest|]. intros c Hc.
      unfold lower_unit, in_range.
      assert (~ (65 <= c <= 90)) by (destruct Hc; lia).
      destruct (Z.leb_spec 65 c), (Z.leb_spec c 90); try lia; cbn [andb];
        (destruct (Z.eqb_spec c 8490); [destruct Hc; lia|]);
        (destruct (Z.eqb_spec c 304); [destruct Hc; lia|]);
        (repeat split; [destruct Hc; lia|apply Z.eqb_neq; destruct Hc; lia
                       |apply Z.eqb_neq; destruct Hc; lia]). }
  destruct (map latin_digit ds) as [|d ds'] eqn:Eds; [by destruct ds|].
  pose proof (Forall_inv Hd) as Hd0. simpl in Hd0.
  unfold parseCount.
  assert (Htr : truthy (ds ++ rest) = true) by (by destruct ds).
  rewrite Htr. cbn [negb].
  rewrite normalizeArabicDigits_map, map_app, Hr, Eds. fold s.
  assert (Hs : s = d :: (ds' ++ rest)) by done.
  rewrite (trim_id s).
  2: { by rewrite Hs. }
  2: { rewrite Hs. split; [by apply digit_not_space|].
       destruct (last (d :: ds' ++ rest)) as [x|] eqn:El; [|by apply last_None in El].
       exists x. split; [done|].
       change (d :: ds' ++ rest) with ((d :: ds') ++ rest) in El.
       destruct rest as [|r0 rest'] using rev_ind.
       - rewrite app_nil_r in El. apply digit_not_space.
         rewrite Forall_forall in Hd. apply Hd.
         rewrite last_lookup in El. by eapply list_elem_of_lookup_2.
       - rewrite app_assoc, last_snoc in El. injection El as ->.
         specialize (Hlast x). rewrite last_snoc in Hlast. specialize (Hlast eq_refl).
         apply Forall_app in Hrest as [_ Hx]. apply Forall_inv in Hx.
         destruct Hx as [->|Hx]; [done|].
         unfold is_space, in_range.
         repeat match goal with
                | |- context [?a <=? ?b] => destruct (Z.leb_spec a b); try lia
                | |- context [?a =? ?b] => destruct (Z.eqb_spec a b); try lia
                end; reflexivity. }
  rewrite (toLowerCase_id s) by (eapply Forall_impl; [exact Hlow|]; by intros c (_ & ? & _)).
  unfold chr.
  rewrite (replace_absent s (Z.eqb 1643)) by (eapply Forall_impl; [exact Hlow|]; by intros c (_ & _ & ? & _)).
  rewrite (replace_absent s (Z.eqb 1644)) by (eapply Forall_impl; [exact Hlow|]; by intros c (_ & _ & _ & ?)).
  destruct (arabic_words_absent s) as (T1 & T2 & T3).
  { eapply Forall_impl; [exact Hlow|]. by intros c (? & _). }
  rewrite T1, T2, T3.
  assert (Hm : re_match s re_number
               = Some (mkMatch 0 (S (length ds')) [(1%nat, (0%nat, S (length ds')))])).
  { subst s. apply number_token; [done|].
    destruct rest as [|x rest']; [done|]. apply Forall_inv in Hrest.
    split; [|destruct Hrest; lia].
    unfold is_digit, in_range. destruct (Z.leb_spec x 57); [|by rewrite andb_false_r].
    destruct (Z.leb_spec 48 x); [destruct Hrest; lia|done]. }
  rewrite Hm. unfold m_group. cbn [m_caps cap_lookup Nat.eqb].
  assert (Hsub : substring s 0 (S (length ds')) = d :: ds').
  { unfold substring. rewrite Nat.sub_0_r, drop_0. subst s.
    change (S (length ds')) with (length (d :: ds')). by rewrite take_app_length. }
  rewrite Hsub, (parseFloat_digits d ds' Hd), round_scaled_whole. done.
Qed.

Lemma digits_lack_letter u ds :
  Forall (fun c => is_digit c = true) ds -> is_digit u = false -> u ∉ ds.
Proof.
  intros Hds Hu Hin. rewrite Forall_forall in Hds. apply Hds in Hin. congruence.
Qed.

(** X13.  [parseCount] of a non-empty run of at most 15 digits, Latin or
    Arabic-Indic, is the number the digits write. *)
Theorem parseCount_digit_string (ds : jsstring) :
  ds <> [] -> Forall digitish ds -> (length ds <= 15)%nat ->
  parseCount (Some ds) = Some (digits_value (map latin_digit ds)).
Proof.
  intros Hne Hds _.
  pose proof (parseCount_run ds [] Hne Hds (Forall_nil_2 _)) as H.
  rewrite !app_nil_r in H. cbv zeta in H. etrans; [apply H; done|]. clear H.
  assert (Hd : Forall (fun c => is_digit c = true) (map latin_digit ds)).
  { apply Forall_map. eapply Forall_impl; [exact Hds|]. apply latin_digit_digit. }
  unfold re_k, re_m, re_b.
  rewrite !letter_test_absent by (by apply digits_lack_letter).
  f_equal. lia.
Qed.

(** X14.  A magnitude suffix counts only when it is set apart from the
    digits: for a run of at most 6 digits writing [v] and a suffix [k],
    [m] or [b], [parseCount] of the digits directly followed by the
    suffix is [v], and of the digits, a blank and the suffix it is [v]
    times 1000, 1000000 or 1000000000. *)
Theorem parseCount_magnitude_suffix (ds : jsstring) (u f : Z) :
  ds <> [] -> Forall digitish ds -> (length ds <= 6)%nat ->
  (u = 107 /\ f = 1000) \/ (u = 109 /\ f = 1000000) \/ (u = 98 /\ f = 1000000000) ->
  let v := digits_value (map latin_digit ds) in
  parseCount (Some (ds ++ [u])) = Some v /\
  parseCount (Some (ds ++ [32; u])) = Some (v * f).
Proof.
  intros Hne Hds _ Hu v.
  assert (Hd : Forall (fun c => is_digit c = true) (map latin_digit ds)).
  { apply Forall_map. eapply Forall_impl; [exact Hds|]. apply latin_digit_digit. }
  assert (Hne' : map latin_digit ds <> []) by (by destruct ds).
  assert (Htail : tail_char u) by (right; lia).
  assert (Hw : is_word u = true) by (destruct Hu as [[-> _]|[[-> _]|[-> _]]]; reflexivity).
  assert (Hnd : is_digit u = false) by (destruct Hu as [[-> _]|[[-> _]|[-> _]]]; reflexivity).
  assert (Hin : forall w, w <> u -> w <> 32 -> is_digit w = false ->
                 w ∉ map latin_digit ds ++ [32; u]).
  { intros w Hwu Hws Hwd Hin. apply elem_of_app in Hin as [Hin|Hin].
    - by apply (digits_lack_letter w _ Hd Hwd).
    - apply elem_of_cons in Hin as [->|Hin]; [done|].
      apply list_elem_of_singleton in Hin. done. }
  assert (Hin' : forall w, w <> u -> is_digit w = false -> w ∉ map latin_digit ds ++ [u]).
  { intros w Hwu Hwd Hin'. apply elem_of_app in Hin' as [Hin'|Hin'].
    - by apply (digits_lack_letter w _ Hd Hwd).
    - apply list_elem_of_singleton in Hin'. done. }
  split.
  - pose proof (parseCount_run ds [u] Hne Hds) as H. cbv zeta in H.
    etrans; [apply H; [constructor; [exact Htail|constructor]|intros x [= <-]; lia]|]. clear H.
    unfold re_k, re_m, re_b. fold v.
    destruct Hu as [[-> _]|[[-> _]|[-> _]]].
    + rewrite (letter_test_attached 107) by done.
      rewrite !letter_test_absent by (apply Hin'; done). f_equal. lia.
    + rewrite (letter_test_attached 109) by done.
      rewrite !letter_test_absent by (apply Hin'; done). f_equal. lia.
    + rewrite (letter_test_attached 98) by done.
      rewrite !letter_test_absent by (apply Hin'; done). f_equal. lia.
  - pose proof (parseCount_run ds [32; u] Hne Hds) as H. cbv zeta in H.
    etrans; [apply H; [constructor; [by left|constructor; [exact Htail|constructor]]|intros x [= <-]; lia]|]. clear H.
    unfold re_k, re_m, re_b. fold v.
    destruct Hu as [[-> ->]|[[-> ->]|[-> ->]]].
    + by rewrite (letter_test_found 107).
    + rewrite (letter_test_absent 107) by (apply Hin; done).
      by rewrite (letter_test_found 109).
    + rewrite (letter_test_absent 107), (letter_test_absent 109) by (apply Hin; done).
      by rewrite (letter_test_found 98).
Qed.

(** ** When [parseCount] has a result *)

(** A star followed by something that cannot fail does not fail. *)
Lemma star_total s a k :
  (forall j c, k j c <> None) -> forall i c, rmatch s (RStar a) i c k <> None.
Proof.
  intros Hk i c. cbn [rmatch]. generalize (length s) as fuel. intros fuel. revert i c.
  induction fuel as [|fuel IH]; intros i c; [apply Hk|].
  destruct (rmatch s a i c _) eqn:E; [done|apply Hk].
Qed.

(** The numeric pattern matches wherever a digit stands. *)
Lemma number_at_digit s i x :
  s !! i = Some x -> is_digit x = true -> match_at s re_number i <> None.
Proof.
  intros Hx Hd. unfold match_at, re_number, rplus, ropt.
  change (rmatch s (RGroup 1 ?a) i [] ?k)
    with (rmatch s a i [] (fun j c' => k j ((1%nat, (i, j)) :: c'))).
  cbv beta.
  match goal with
  | |- rmatch s (RSeq (RSeq ?a ?b) ?c) ?i ?cs ?k <> _ =>
      change (rmatch s (RSeq (RSeq a b) c) i cs k)
        with (rmatch s a i cs (fun j c' => rmatch s b j c' (fun j' c'' => rmatch s c j' c'' k)))
  end.
  unfold rdigit at 1. rewrite (rmatch_char_hit s is_digit i _ _ x Hx Hd).
  apply star_total. intros j c.
  change (rmatch s (RAlt ?a REmpty) ?i ?c ?k)
    with (match rmatch s a i c k with Some m => Some m | None => k i c end).
  by destruct (rmatch s _ j c _).
Qed.

Lemma number_found s x :
  x ∈ s -> is_digit x = true -> exists m, re_match s re_number = Some m.
Proof.
  intros Hin Hd. apply list_elem_of_lookup in Hin as [i Hi].
  pose proof (number_at_digit s i x Hi Hd) as Hm.
  assert (Hl : (i <= length s)%nat) by (apply lookup_lt_Some in Hi; lia).
  unfold re_match, re_exec. simpl Nat.leb. cbv iota.
  pose proof (search_from_finds s re_number i (length s - 0) 0 ltac:(lia) Hm) as H.
  destruct (search_from s re_number (length s - 0) 0) as [m|]; [by exists m|done].
Qed.

Lemma span_digits_digits s : Forall (fun c => is_digit c = true) (fst (span_digits s)).
Proof.
  induction s as [|c s IH]; simpl; [constructor|].
  destruct (is_digit c) eqn:E; [|constructor].
  destruct (span_digits s) as [d r]. simpl in *. by constructor.
Qed.

Lemma span_digits_head d s : is_digit d = true -> fst (span_digits (d :: s)) <> [].
Proof. intros H. simpl. rewrite H. by destruct (span_digits s). Qed.

(** [parseFloat] reads a number off every text that opens with a digit,
    and never a negative one off a text that does not open with a sign. *)
Lemma parseFloat_digit_first d s :
  is_digit d = true -> exists num, parseFloat (d :: s) = Some num /\ 0 <= mantissa num.
Proof.
  intros Hd. unfold parseFloat.
  rewrite (trim_start_id d s) by (by apply digit_not_space).
  pose proof (span_digits_digits (d :: s)) as Hip.
  pose proof (span_digits_head d s Hd) as Hne.
  destruct (span_digits (d :: s)) as [ip r]. simpl in Hip, Hne.
  destruct ip as [|i0 ip]; [done|].
  destruct r as [|c r'].
  - eexists. split; [done|]. by apply digits_value_nonneg.
  - destruct (c =? 46).
    + pose proof (span_digits_digits r') as Hfp.
      eexists. split; [done|]. cbn [mantissa].
      apply digits_value_nonneg. apply Forall_app. by split.
    + eexists. split; [done|]. by apply digits_value_nonneg.
Qed.

Lemma round_scaled_nonneg num f : 0 <= mantissa num -> 0 <= f -> 0 <= round_scaled num f.
Proof.
  intros Hm Hf. unfold round_scaled.
  assert (0 < 10 ^ Z.of_nat (scale num)) by (apply Z.pow_pos_nonneg; lia).
  apply Z.div_pos; nia.
Qed.

(** The token the numeric pattern captures opens with a digit. *)
Lemma number_group s m :
  re_match s re_number = Some m ->
  exists d r, m_group s m 1 = Some (d :: r) /\ is_digit d = true.
Proof.
  unfold re_match. intros E. apply re_exec_sound in E. unfold re_number in E.
  apply group_inv in E as (c1 & Hg & Hc).
  apply seq_inv in Hg as (j1 & c2 & Hp & Ho).
  apply plus_class_inv in Hp as (Hlt & Hall & _).
  apply matches_bounds in Ho as Hb.
  2: { destruct (Hall (j1 - 1)%nat) as (x & Hx & _); [lia|].
       apply lookup_lt_Some in Hx. lia. }
  destruct (Hall (m_start m)) as (x & Hx & Hd); [lia|].
  unfold m_group. rewrite Hc. cbn [cap_lookup Nat.eqb].
  unfold substring. unfold jsstring in *.
  rewrite (drop_S _ _ _ Hx).
  replace (m_end m - m_start m)%nat with (S (m_end m - S (m_start m))) by lia.
  simpl. eauto.
Qed.

(** ** A digit survives the normalisation steps *)

Lemma trim_start_elem x s : x ∈ s -> is_space x = false -> x ∈ trim_start s.
Proof.
  intros Hin Hx. induction s as [|c s IH]; [done|]. simpl.
  destruct (is_space c) eqn:E; [|done].
  apply elem_of_cons in Hin as [->|Hin]; [congruence|by apply IH].
Qed.

Lemma elem_rev (x : Z) s : x ∈ s -> x ∈ rev s.
Proof. rewrite !list_elem_of_In. apply in_rev. Qed.

Lemma trim_elem x s : x ∈ s -> is_space x = false -> x ∈ trim s.
Proof.
  intros Hin Hx. unfold trim.
  apply elem_rev, trim_start_elem; [|done].
  by apply elem_rev, trim_start_elem.
Qed.

Lemma toLowerCase_elem x s : x ∈ s -> lower_unit x = [x] -> x ∈ toLowerCase s.
Proof.
  intros Hin Hx. unfold toLowerCase. apply list_elem_of_In, in_concat.
  exists [x]. split; [|by left]. rewrite <- Hx. by apply in_map, list_elem_of_In.
Qed.

Lemma replace_class_elem x s p f :
  x ∈ s -> p x = false -> x ∈ re_replace_g s (RChar p) f.
Proof.
  intros Hin Hp. rewrite replace_class. apply list_elem_of_In, in_flat_map.
  exists x. split; [by apply list_elem_of_In|]. rewrite Hp. by left.
Qed.

Lemma digit_survives t x :
  x ∈ t -> is_digit x = true \/ is_arabic_digit x = true ->
  exists y, is_digit y = true /\
    y ∈ re_replace_g (re_replace_g (toLowerCase (trim (normalizeArabicDigits t)))
                        (chr 0x66B) (fun _ => [46])) (chr 0x66C) (fun _ => []).
Proof.
  intros Hin Hx. exists (latin_digit x).
  pose proof (latin_digit_digit x Hx) as Hd. split; [done|].
  apply is_digit_range in Hd as Hr.
  unfold chr. apply replace_class_elem; [|apply Z.eqb_neq; lia].
  apply replace_class_elem; [|apply Z.eqb_neq; lia].
  apply toLowerCase_elem.
  - apply trim_elem; [|by apply digit_not_space].
    rewrite normalizeArabicDigits_map. by apply list_elem_of_In, in_map, list_elem_of_In.
  - unfold lower_unit, in_range.
    destruct (Z.leb_spec 65 (latin_digit x)); [lia|]. cbn [andb].
    destruct (Z.eqb_spec (latin_digit x) 8490); [lia|].
    destruct (Z.eqb_spec (latin_digit x) 304); [lia|]. done.
Qed.

(** X15.  [parseCount] of a text of at most 100 code units is [null]
    exactly when the text holds no digit, Latin or Arabic-Indic; what it
    returns otherwise is not negative. *)
Theorem parseCount_null_iff_no_digit (t : jsstring) :
  (length t <= 100)%nat ->
  (parseCount (Some t) = None <-> Forall no_digit t) /\
  (forall n, parseCount (Some t) = Some n -> 0 <= n).
Proof.
  intros _.
  assert (Hsome : forall x, x ∈ t -> is_digit x = true \/ is_arabic_digit x = true ->
                    exists n, parseCount (Some t) = Some n /\ 0 <= n).
  { intros x Hin Hx. destruct (digit_survives t x Hin Hx) as (y & Hy & Hys).
    unfold parseCount.
    assert (Htr : truthy t = true) by (destruct t; [by apply elem_of_nil in Hin|done]).
    rewrite Htr. cbn [negb].
    set (s := re_replace_g _ _ _) in *.
    destruct (number_found s y Hys Hy) as [m Hm]. rewrite Hm.
    destruct (number_group s m Hm) as (d & r & Hg & Hd). rewrite Hg.
    destruct (parseFloat_digit_first d r Hd) as (num & Hn & Hpos). rewrite Hn.
    eexists. split; [done|]. apply round_scaled_nonneg; [done|].
    repeat match goal with |- context [if ?b then _ else _] => destruct b end; lia. }
  split; [split|].
  - intros Hnone. apply Forall_forall. intros x Hin.
    unfold no_digit.
    destruct (is_digit x) eqn:E1.
    { destruct (Hsome x Hin (or_introl E1)) as (n & Hn & _). congruence. }
    destruct (is_arabic_digit x) eqn:E2; [|done].
    destruct (Hsome x Hin (or_intror E2)) as (n & Hn & _). congruence.
  - apply parseCount_no_digit.
  - intros n Hn.
    destruct (existsb (fun c => is_digit c || is_arabic_digit c) t) eqn:E.
    + apply existsb_exists in E as (x & Hin & Hx). apply orb_true_iff in Hx.
      destruct (Hsome x (proj2 (list_elem_of_In _ _) Hin) Hx) as (n' & Hn' & Hpos).
      congruence.
    + assert (Hall : Forall no_digit t).
      { apply Forall_forall. intros x Hin. apply list_elem_of_In in Hin.
        destruct (is_digit x || is_arabic_digit x) eqn:Ex.
        - assert (existsb (fun c => is_digit c || is_arabic_digit c) t = true)
            by (apply existsb_exists; eauto). congruence.
        - apply orb_false_iff in Ex. exact Ex. }
      pose proof (eq_trans (eq_sym (parseCount_no_digit t Hall)) Hn). discriminate.
Qed.

Lemma parseCount_digit_string_witness :
  parseCount (Some [0x662; 0x663; 0x660; 0x660]) = Some 2300.
Proof.
  apply (parseCount_digit_string [0x662; 0x663; 0x660; 0x660]).
  - discriminate.
  - repeat constructor; right; reflexivity.
  - simpl. lia.
Defined.

Lemma parseCount_magnitude_suffix_witness :
  parseCount (Some (str "12k")) = Some 12 /\ parseCount (Some (str "12 k")) = Some 12000.
Proof.
  apply (parseCount_magnitude_suffix (str "12") 107 1000).
  - discriminate.
  - repeat constructor; left; reflexivity.
  - simpl. lia.
  - left. split; reflexivity.
Defined.

Lemma parseCount_null_iff_no_digit_witness :
  (parseCount (Some (str "likes")) = None <-> Forall no_digit (str "likes")) /\
  (forall n, parseCount (Some (str "likes")) = Some n -> 0 <= n).
Proof.
  apply (parseCount_null_iff_no_digit (str "likes")). simpl. lia.
Defined.

End CountFacts.

(** * 22. Calendar dates and canonical strings *)

Module CalendarFacts.
Import JS JSDate Utils Dom Matching MatchingFacts UtilsFacts Measures Shapes DigitFacts ForwardFacts CountFacts.

Lemma DayFromYear_step y : DayFromYear (y + 1) = DayFromYear y + DaysInYear y.
Proof.
  unfold DayFromYear, DaysInYear, is_leap.
  destruct (Z.eqb_spec (y mod 4) 0); simpl;
  [destruct (Z.eqb_spec (y mod 100) 0); simpl;
   [destruct (Z.eqb_spec (y mod 400) 0); simpl|]|]; Z.div_mod_to_equations; lia.
Qed.

Lemma DayFromYear_estimate y :
  146097 * (y - 1970) - 607 <= 400 * DayFromYear y <= 146097 * (y - 1970) + 593.
Proof. unfold DayFromYear. Z.div_mod_to_equations. lia. Qed.

Lemma DaysInYear_pos y : 365 <= DaysInYear y <= 366.
Proof. unfold DaysInYear. destruct (is_leap y); lia. Qed.

Lemma DayFromYear_mono y1 y2 : y1 <= y2 -> DayFromYear y1 <= DayFromYear y2.
Proof. unfold DayFromYear. Z.div_mod_to_equations. lia. Qed.

Lemma YearFromDay_unique y d :
  DayFromYear y <= d < DayFromYear (y + 1) -> YearFromDay d = y.
Proof.
  intros Hd. unfold YearFromDay.
  set (e := 1970 + d * 400 / 146097).
  pose proof (DayFromYear_estimate y) as B1.
  pose proof (DayFromYear_estimate (y + 1)) as B2.
  assert (He : y - 1 <= e <= y + 1) by (unfold e; Z.div_mod_to_equations; lia).
  pose proof (DayFromYear_step (y - 1)) as S0. replace (y - 1 + 1) with y in S0 by lia.
  pose proof (DayFromYear_step y) as S1.
  pose proof (DayFromYear_step (y + 1)) as S2.
  pose proof (DaysInYear_pos (y - 1)). pose proof (DaysInYear_pos y).
  pose proof (DaysInYear_pos (y + 1)).
  assert (C : e = y - 1 \/ e = y \/ e = y + 1) by lia.
  destruct C as [-> | [-> | ->]].
  - replace (y - 1 + 1) with y by lia.
    destruct (Z.ltb_spec d (DayFromYear (y - 1))); [lia|].
    destruct (Z.leb_spec (DayFromYear y) d); lia.
  - destruct (Z.ltb_spec d (DayFromYear y)); [lia|].
    destruct (Z.leb_spec (DayFromYear (y + 1)) d); lia.
  - destruct (Z.ltb_spec d (DayFromYear (y + 1))); [lia|]. lia.
Qed.

Lemma month_cases mo : 1 <= mo <= 12 ->
  mo = 1 \/ mo = 2 \/ mo = 3 \/ mo = 4 \/ mo = 5 \/ mo = 6 \/
  mo = 7 \/ mo = 8 \/ mo = 9 \/ mo = 10 \/ mo = 11 \/ mo = 12.
Proof. lia. Qed.

Lemma day_in_year y mo d :
  1 <= mo <= 12 -> 1 <= d <= days_in_month y mo ->
  let n := month_start (leap_days y) (mo - 1) + d - 1 in
  0 <= n < DaysInYear y /\
  month_of_day (leap_days y) n = mo - 1 /\
  d <= 31.
Proof.
  intros Hmo Hd n. subst n. unfold days_in_month, DaysInYear in *.
  fold (leap_days y) in Hd. unfold leap_days in *.
  destruct (month_cases mo Hmo) as [->|[->|[->|[->|[->|[->|[->|[->|[->|[->|[->| ->]]]]]]]]]]];
    destruct (is_leap y);
    repeat match goal with
           | H : context [month_start ?a ?b] |- _ =>
               let v := eval vm_compute in (month_start a b) in
               change (month_start a b) with v in H
           | |- context [month_start ?a ?b] =>
               let v := eval vm_compute in (month_start a b) in
               change (month_start a b) with v
           end;
    unfold month_of_day;
    repeat match goal with
           | |- context [?a <? ?b] => destruct (Z.ltb_spec a b)
           end; repeat split; lia.
Qed.

Lemma Day_MakeDate day time :
  0 <= time < msPerDay -> Day (MakeDate day time) = day /\ TimeWithinDay (MakeDate day time) = time.
Proof.
  unfold Day, TimeWithinDay, MakeDate, msPerDay. intros H.
  Z.div_mod_to_equations. lia.
Qed.

Lemma MakeTime_range hh mi ss ms :
  0 <= hh <= 23 -> 0 <= mi <= 59 -> 0 <= ss <= 59 -> 0 <= ms <= 999 ->
  0 <= MakeTime hh mi ss ms < msPerDay.
Proof. unfold MakeTime, msPerDay, msPerHour, msPerMinute, msPerSecond. lia. Qed.

Lemma time_fields day hh mi ss ms :
  0 <= hh <= 23 -> 0 <= mi <= 59 -> 0 <= ss <= 59 -> 0 <= ms <= 999 ->
  let t := MakeDate day (MakeTime hh mi ss ms) in
  HourFromTime t = hh /\ MinFromTime t = mi /\ SecFromTime t = ss /\ msFromTime t = ms.
Proof.
  intros Hh Hm Hs Hms t. subst t.
  unfold HourFromTime, MinFromTime, SecFromTime, msFromTime, MakeDate, MakeTime,
    msPerDay, msPerHour, msPerMinute, msPerSecond.
  repeat split; Z.div_mod_to_equations; lia.
Qed.

Lemma MakeDay_in_year y mo d :
  1 <= mo <= 12 ->
  MakeDay y (mo - 1) d = DayFromYear y + (month_start (leap_days y) (mo - 1) + d - 1).
Proof.
  intros Hmo. unfold MakeDay, leap_days.
  replace ((mo - 1) / 12) with 0 by (Z.div_mod_to_equations; lia).
  replace ((mo - 1) mod 12) with (mo - 1) by (Z.div_mod_to_equations; lia).
  replace (y + 0) with y by lia. lia.
Qed.

(** The date fields of a time value built from a calendar date. *)
Lemma date_fields y mo d hh mi ss ms :
  1 <= mo <= 12 -> 1 <= d <= days_in_month y mo ->
  0 <= hh <= 23 -> 0 <= mi <= 59 -> 0 <= ss <= 59 -> 0 <= ms <= 999 ->
  let t := MakeDate (MakeDay y (mo - 1) d) (MakeTime hh mi ss ms) in
  YearFromTime t = y /\ MonthFromTime t + 1 = mo /\ DateFromTime t = d.
Proof.
  intros Hmo Hd Hh Hm Hs Hms t.
  destruct (day_in_year y mo d Hmo Hd) as (Hn & Hmonth & _).
  pose proof (MakeTime_range hh mi ss ms Hh Hm Hs Hms) as Ht.
  destruct (Day_MakeDate (MakeDay y (mo - 1) d) _ Ht) as [HD _]. fold t in HD.
  rewrite MakeDay_in_year in HD by done.
  assert (HY : YearFromTime t = y).
  { unfold YearFromTime. rewrite HD. apply YearFromDay_unique.
    rewrite DayFromYear_step. lia. }
  assert (HW : DayWithinYear t = month_start (leap_days y) (mo - 1) + d - 1).
  { unfold DayWithinYear. rewrite HY, HD. lia. }
  assert (HL : InLeapYear t = leap_days y) by (unfold InLeapYear; by rewrite HY).
  assert (HM : MonthFromTime t = mo - 1).
  { unfold MonthFromTime. by rewrite HL, HW. }
  split; [done|]. split; [lia|].
  unfold DateFromTime. rewrite HM, HL, HW. lia.
Qed.

(** ** Fixed-width decimal fields *)

Lemma digits_fixed_length w : forall n, length (digits_fixed w n) = w.
Proof.
  induction w as [|w IH]; intros n; [done|].
  cbn [digits_fixed]. rewrite length_app, IH. simpl. lia.
Qed.

Lemma digits_fixed_range w : forall n,
  Forall (fun c => 48 <= c <= 57) (digits_fixed w n).
Proof.
  induction w as [|w IH]; intros n; [constructor|].
  cbn [digits_fixed]. apply Forall_app. split; [apply IH|].
  constructor; [|constructor]. Z.div_mod_to_equations. lia.
Qed.

Lemma digits_fixed_digits w n : Forall (fun c => is_digit c = true) (digits_fixed w n).
Proof.
  eapply Forall_impl; [apply digits_fixed_range|]. intros c Hc. by apply is_digit_range.
Qed.

Lemma take_digits_run l : forall acc rest,
  Forall (fun c => is_digit c = true) l ->
  take_digits (length l) acc (l ++ rest)
  = Some (fold_left (fun a c => 10 * a + (c - 48)) l acc, rest).
Proof.
  induction l as [|c l IH]; intros acc rest H; [done|].
  pose proof (Forall_inv H) as Hc. simpl in Hc.
  cbn [length take_digits app]. rewrite Hc. cbn [fold_left].
  apply IH. by apply Forall_inv_tail in H.
Qed.

Lemma digits_fixed_value w : forall n acc,
  fold_left (fun a c => 10 * a + (c - 48)) (digits_fixed w n) acc
  = acc * 10 ^ Z.of_nat w + n mod 10 ^ Z.of_nat w.
Proof.
  induction w as [|w IH]; intros n acc.
  - cbn [digits_fixed fold_left]. change (10 ^ Z.of_nat 0) with 1.
    rewrite Z.mod_1_r. lia.
  - cbn [digits_fixed]. rewrite fold_left_app, IH. cbn [fold_left].
    replace (Z.of_nat (S w)) with (Z.of_nat w + 1) by lia.
    rewrite Z.pow_add_r by lia. change (10 ^ 1) with 10.
    assert (Hp : 0 < 10 ^ Z.of_nat w) by (apply Z.pow_pos_nonneg; lia).
    rewrite (Z.mul_comm (10 ^ Z.of_nat w) 10).
    rewrite (Z.rem_mul_r n 10 (10 ^ Z.of_nat w)) by lia.
    lia.
Qed.

(** Reading a field back gives the number it was written from. *)
Lemma take_digits_fixed w n rest :
  0 <= n < 10 ^ Z.of_nat w ->
  take_digits w 0 (digits_fixed w n ++ rest) = Some (n, rest).
Proof.
  intros Hn.
  pose proof (take_digits_run (digits_fixed w n) 0 rest (digits_fixed_digits w n)) as H.
  rewrite digits_fixed_length, digits_fixed_value in H. rewrite H.
  f_equal. f_equal. rewrite Z.mod_small by done. lia.
Qed.

Lemma expect_hit c s : expect c (c :: s) = Some s.
Proof. unfold expect. by rewrite Z.eqb_refl. Qed.

Lemma in_range_true a b x : a <= x <= b -> in_range a b x = true.
Proof. intros H. unfold in_range. apply andb_true_iff. split; apply Z.leb_le; lia. Qed.

(** ** Reading a canonical string *)

Lemma iso_string_head y mo d hh mi ss ms :
  exists c r, iso_string y mo d hh mi ss ms = c :: r /\ 48 <= c <= 57.
Proof.
  unfold iso_string. pose proof (digits_fixed_range 4 y) as H.
  pose proof (digits_fixed_length 4 y) as L.
  destruct (digits_fixed 4 y) as [|c r]; [done|].
  apply Forall_inv in H. exists c. eexists. split; [reflexivity|done].
Qed.

Lemma parse_iso_canonical y mo d hh mi ss ms :
  0 <= y <= 9999 -> 0 <= mo <= 99 -> 0 <= d <= 99 -> 0 <= hh <= 99 ->
  0 <= mi <= 99 -> 0 <= ss <= 99 -> 0 <= ms <= 999 ->
  parse_iso (iso_string y mo d hh mi ss ms)
  = ISO (mkIso y mo d true hh mi ss ms (Some 0)).
Proof.
  intros Hy Hmo Hd Hhh Hmi Hss Hms.
  destruct (iso_string_head y mo d hh mi ss ms) as (c & r & E & Hc).
  unfold parse_iso. rewrite E.
  destruct (Z.eqb_spec c 43); [lia|]. destruct (Z.eqb_spec c 45); [lia|]. cbn [orb].
  rewrite <- E. unfold iso_string.
  rewrite take_digits_fixed by (change (10 ^ Z.of_nat 4) with 10000; lia).
  unfold parse_date_rest. cbn [app]. rewrite expect_hit.
  rewrite take_digits_fixed by (change (10 ^ Z.of_nat 2) with 100; lia).
  rewrite expect_hit.
  rewrite take_digits_fixed by (change (10 ^ Z.of_nat 2) with 100; lia).
  rewrite Z.eqb_refl. unfold parse_time.
  rewrite take_digits_fixed by (change (10 ^ Z.of_nat 2) with 100; lia).
  rewrite expect_hit.
  rewrite take_digits_fixed by (change (10 ^ Z.of_nat 2) with 100; lia).
  rewrite expect_hit.
  rewrite take_digits_fixed by (change (10 ^ Z.of_nat 2) with 100; lia).
  rewrite expect_hit.
  rewrite take_digits_fixed by (change (10 ^ Z.of_nat 3) with 1000; lia).
  reflexivity.
Qed.

(** ** The canonical string under the steps of [parseDateToISO] *)

Lemma iso_string_chars y mo d hh mi ss ms :
  Forall (fun c => 45 <= c <= 90) (iso_string y mo d hh mi ss ms).
Proof.
  unfold iso_string.
  do 7 (apply Forall_app; split;
          [eapply Forall_impl; [apply digits_fixed_range|]; intros c Hc; cbv beta in *; lia|];
        cbn [app]; constructor; [lia|]).
  constructor.
Qed.

Lemma iso_string_last y mo d hh mi ss ms :
  last (iso_string y mo d hh mi ss ms) = Some 90.
Proof. unfold iso_string. rewrite !app_assoc. apply last_snoc. Qed.

Lemma ascii_not_space c : 45 <= c <= 90 -> is_space c = false.
Proof.
  intros Hc. unfold is_space, in_range.
  repeat match goal with
         | |- context [?a <=? ?b] => destruct (Z.leb_spec a b); try lia
         | |- context [?a =? ?b] => destruct (Z.eqb_spec a b); try lia
         end; reflexivity.
Qed.

Lemma iso_string_steps y mo d hh mi ss ms :
  trim (normalizeArabicDigits (iso_string y mo d hh mi ss ms))
  = iso_string y mo d hh mi ss ms.
Proof.
  pose proof (iso_string_chars y mo d hh mi ss ms) as Hc.
  assert (Hn : normalizeArabicDigits (iso_string y mo d hh mi ss ms)
               = iso_string y mo d hh mi ss ms).
  { rewrite normalizeArabicDigits_map.
    induction Hc as [|c l Hc _ IH]; [done|]. cbn [map]. rewrite IH. f_equal.
    unfold latin_digit, is_arabic_digit, in_range.
    destruct (Z.leb_spec 1632 c); [lia|done]. }
  rewrite Hn. apply trim_id.
  - destruct (iso_string_head y mo d hh mi ss ms) as (c & r & -> & _). done.
  - destruct (iso_string_head y mo d hh mi ss ms) as (c & r & E & Hr).
    pose proof (iso_string_last y mo d hh mi ss ms) as Hl.
    rewrite E in *. split; [apply ascii_not_space; lia|].
    exists 90. split; [done|reflexivity].
Qed.

Lemma fixed_digit x : is_digit (48 + x mod 10) = true.
Proof. apply is_digit_range. Z.div_mod_to_equations. lia. Qed.

(** The canonical string passes the ISO-like test. *)
Lemma iso_string_iso_like y mo d hh mi ss ms :
  re_test re_iso_like (iso_string y mo d hh mi ss ms) = true.
Proof.
  apply (re_test_finds _ _ 0); [lia|].
  unfold iso_string. cbn [digits_fixed app].
  unfold match_at, re_iso_like. cbn [rseq rrep].
  unfold rdigit, chr, chr_i.
  repeat (rewrite ?rmatch_seq;
          erewrite rmatch_char_hit;
          [cbv beta
          |reflexivity
          |first [apply fixed_digit | reflexivity]]).
  done.
Qed.

(** ** From the fields to the time value and back *)

Lemma DayFromYear_bounds y : 0 <= y <= 9999 -> -720000 <= DayFromYear y <= 2933000.
Proof. intros Hy. pose proof (DayFromYear_estimate y). lia. Qed.

Lemma canonical_time_value y mo d hh mi ss ms :
  0 <= y <= 9999 -> 1 <= mo <= 12 -> 1 <= d <= days_in_month y mo ->
  0 <= hh <= 23 -> 0 <= mi <= 59 -> 0 <= ss <= 59 -> 0 <= ms <= 999 ->
  let t := MakeDate (MakeDay y (mo - 1) d) (MakeTime hh mi ss ms) in
  TimeClip t = Some t /\ toISOString t = iso_string y mo d hh mi ss ms.
Proof.
  intros Hy Hmo Hd Hhh Hmi Hss Hms t.
  destruct (date_fields y mo d hh mi ss ms Hmo Hd Hhh Hmi Hss Hms) as (FY & FM & FD).
  destruct (time_fields (MakeDay y (mo - 1) d) hh mi ss ms Hhh Hmi Hss Hms)
    as (FH & FMi & FS & FMs).
  fold t in FY, FM, FD, FH, FMi, FS, FMs.
  split.
  - unfold TimeClip.
    destruct (day_in_year y mo d Hmo Hd) as (Hn & _ & _).
    pose proof (DaysInYear_pos y). pose proof (DayFromYear_bounds y Hy).
    pose proof (MakeTime_range hh mi ss ms Hhh Hmi Hss Hms) as Ht.
    assert (Habs : Z.abs t <= 8640000000000000).
    { subst t. unfold MakeDate. rewrite MakeDay_in_year by done.
      unfold msPerDay in *. lia. }
    by destruct (Z.leb_spec (Z.abs t) 8640000000000000); [|lia].
  - unfold toISOString, iso_string. rewrite FY, FM, FD, FH, FMi, FS, FMs.
    unfold year_string.
    destruct (Z.leb_spec 0 y); [|lia]. destruct (Z.leb_spec y 9999); [|lia]. done.
Qed.

(** X16.  [parseDateToISO] gives a canonical ISO string back as it is:
    for a calendar date of the years 0 to 9999 and a time of day, the
    string [YYYY-MM-DDTHH:mm:ss.sssZ] written from them is returned
    unchanged, in every time zone. *)
Theorem parseDateToISO_canonical_roundtrip (h : Host) (y mo d hh mi ss ms : Z) :
  0 <= y <= 9999 -> 1 <= mo <= 12 -> 1 <= d <= days_in_month y mo ->
  0 <= hh <= 23 -> 0 <= mi <= 59 -> 0 <= ss <= 59 -> 0 <= ms <= 999 ->
  parseDateToISO h (Some (iso_string y mo d hh mi ss ms))
  = Return (Some (iso_string y mo d hh mi ss ms)).
Proof.
  intros Hy Hmo Hd Hhh Hmi Hss Hms.
  destruct (day_in_year y mo d Hmo Hd) as (_ & _ & Hd31).
  unfold parseDateToISO.
  assert (Htr : truthy (iso_string y mo d hh mi ss ms) = true).
  { by destruct (iso_string_head y mo d hh mi ss ms) as (c & r & -> & _). }
  rewrite Htr. cbn [negb]. rewrite iso_string_steps, iso_string_iso_like.
  unfold Date_parse. rewrite parse_iso_canonical by lia.
  unfold iso_legal.
  cbn [iso_year iso_month iso_day iso_has_time iso_hour iso_min iso_sec iso_ms iso_offset].
  rewrite !in_range_true by lia. cbn [andb orb].
  change ((Z.abs 0 / 60 <=? 23) && (Z.abs 0 mod 60 <=? 59)) with true. cbv iota.
  replace (_ - 0 * msPerMinute)
    with (MakeDate (MakeDay y (mo - 1) d) (MakeTime hh mi ss ms)) by lia.
  destruct (canonical_time_value y mo d hh mi ss ms Hy Hmo Hd Hhh Hmi Hss Hms) as [E1 E2].
  cbv zeta in E1, E2. rewrite E1. cbv beta iota. by rewrite E2.
Qed.

(** X17.  A string of the canonical shape with an element value the format
    does not allow (a month that is not 01 to 12, a day that is not 01 to
    31, an hour above 24 or 24 with a minute, second or millisecond, a
    minute or second above 59) is ISO-like and gives [null]. *)
Theorem parseDateToISO_illegal_element (h : Host) (y mo d hh mi ss ms : Z) :
  0 <= y <= 9999 -> 0 <= mo <= 99 -> 0 <= d <= 99 -> 0 <= hh <= 99 ->
  0 <= mi <= 99 -> 0 <= ss <= 99 -> 0 <= ms <= 999 ->
  mo = 0 \/ 12 < mo \/ d = 0 \/ 31 < d \/ 24 < hh \/
  (hh = 24 /\ (mi <> 0 \/ ss <> 0 \/ ms <> 0)) \/ 59 < mi \/ 59 < ss ->
  parseDateToISO h (Some (iso_string y mo d hh mi ss ms)) = Return None.
Proof.
  intros Hy Hmo Hd Hhh Hmi Hss Hms Hbad.
  assert (Hill : iso_legal (mkIso y mo d true hh mi ss ms (Some 0)) = false).
  { unfold iso_legal, in_range.
    cbn [iso_year iso_month iso_day iso_has_time iso_hour iso_min iso_sec iso_ms iso_offset].
    destruct (Z.leb_spec 1 mo); [|done].
    destruct (Z.leb_spec mo 12); [|done].
    destruct (Z.leb_spec 1 d); [|done].
    destruct (Z.leb_spec d 31); [|done].
    destruct (Z.leb_spec 0 mi); [|lia].
    destruct (Z.leb_spec 0 ss); [|lia].
    destruct (Z.leb_spec 0 hh); [|lia].
    cbn [andb].
    destruct (Z.leb_spec mi 59); [|by rewrite andb_false_r].
    destruct (Z.leb_spec ss 59); [|by rewrite !andb_false_r].
    destruct (Z.leb_spec hh 23); [lia|]. cbn [orb andb].
    destruct (Z.eqb_spec hh 24); [|done].
    destruct (Z.eqb_spec mi 0); [|done].
    destruct (Z.eqb_spec ss 0); [|done].
    destruct (Z.eqb_spec ms 0); [lia|done]. }
  unfold parseDateToISO.
  assert (Htr : truthy (iso_string y mo d hh mi ss ms) = true).
  { by destruct (iso_string_head y mo d hh mi ss ms) as (c & r & -> & _). }
  rewrite Htr. cbn [negb]. rewrite iso_string_steps, iso_string_iso_like.
  unfold Date_parse. rewrite parse_iso_canonical by lia. by rewrite Hill.
Qed.

Lemma parseDateToISO_canonical_roundtrip_witness :
  parseDateToISO (utc_host 0) (Some (str "2024-02-29T23:59:59.999Z"))
  = Return (Some (str "2024-02-29T23:59:59.999Z")).
Proof.
  apply (parseDateToISO_canonical_roundtrip (utc_host 0) 2024 2 29 23 59 59 999);
    try lia.
  vm_compute. split; discriminate.
Defined.

Lemma parseDateToISO_illegal_element_witness :
  parseDateToISO (utc_host 0) (Some (str "2024-13-01T00:00:00.000Z")) = Return None.
Proof.
  apply (parseDateToISO_illegal_element (utc_host 0) 2024 13 1 0 0 0 0); lia.
Defined.

End CalendarFacts.

(** * 23. Relative dates *)

Module RelativeFacts.
Import JS JSDate Utils Dom Matching MatchingFacts UtilsFacts Measures Shapes DigitFacts ForwardFacts CountFacts.

(** A word whose first letter does not fit does not match. *)
Lemma lit_i_miss s x w i c k :
  match s !! i with Some y => canon y <> canon x | None => True end ->
  rmatch s (lit_i (x :: w)) i c k = None.
Proof.
  intros H. unfold lit_i. destruct w as [|y w]; cbn [map rseq].
  - unfold chr_i. apply rmatch_char_miss. unfold jsstring in *.
    destruct (s !! i); [by apply Z.eqb_neq|done].
  - rewrite rmatch_seq. unfold chr_i at 1. apply rmatch_char_miss. unfold jsstring in *.
    destruct (s !! i); [by apply Z.eqb_neq|done].
Qed.

Lemma lit_i_one s x i c k y :
  s !! i = Some y -> canon y = canon x -> rmatch s (lit_i [x]) i c k = k (S i) c.
Proof.
  intros Hy Hc. unfold lit_i. cbn [map rseq]. unfold chr_i.
  apply (rmatch_char_hit s _ i c k y Hy). by apply Z.eqb_eq.
Qed.

(** Where the unit is looked for, one code unit is taken or none: each
    longer word of the pattern stands behind its own first letter. *)
Lemma unit_alts_first s p c (k : nat -> caps -> option (nat * caps)) :
  (forall j c', k j c' <> None) ->
  rmatch s unit_alts p c k
  = match s !! p with
    | Some x =>
        if existsb (Z.eqb (canon x)) [0x633; 72; 0x62F; 77; 0x64A; 68; 89]
        then k (S p) c else None
    | None => None
    end.
Proof.
  intros Hk. unfold unit_alts. cbn [map ralt]. unfold u_s, u_saa, u_sa, u_d, u_daqiqa, u_y, u_yawm, u_sana.
  change (str "h") with [104]. change (str "m") with [109].
  change (str "d") with [100]. change (str "y") with [121].
  destruct (s !! p) as [x|] eqn:Hx.
  2: { rewrite !rmatch_alt. rewrite !lit_i_miss by (unfold jsstring in *; by rewrite Hx). done. }
  cbn [existsb].
  assert (Hm : forall y w k', canon x <> canon y -> rmatch s (lit_i (y :: w)) p c k' = None).
  { intros y w k' Hne. apply lit_i_miss. unfold jsstring in *. by rewrite Hx. }
  assert (Hh : forall y k', canon x = canon y -> rmatch s (lit_i [y]) p c k' = k' (S p) c).
  { intros y k' He. by apply (lit_i_one s y p c k' x). }
  rewrite rmatch_alt.
  destruct (Z.eqb_spec (canon x) 0x633) as [E1|E1].
  { rewrite (Hh 0x633) by done. cbn [orb]. specialize (Hk (S p) c). by destruct (k (S p) c). }
  rewrite (Hm 0x633) by done. rewrite rmatch_alt, (Hm 0x633) by done.
  rewrite rmatch_alt.
  destruct (Z.eqb_spec (canon x) 72) as [E2|E2].
  { rewrite (Hh 104) by done. cbn [orb]. specialize (Hk (S p) c). by destruct (k (S p) c). }
  rewrite (Hm 104) by done. rewrite rmatch_alt, (Hm 0x633) by done.
  rewrite rmatch_alt.
  destruct (Z.eqb_spec (canon x) 0x62F) as [E3|E3].
  { rewrite (Hh 0x62F) by done. cbn [orb]. specialize (Hk (S p) c). by destruct (k (S p) c). }
  rewrite (Hm 0x62F) by done. rewrite rmatch_alt, (Hm 0x62F) by done.
  rewrite rmatch_alt.
  destruct (Z.eqb_spec (canon x) 77) as [E4|E4].
  { rewrite (Hh 109) by done. cbn [orb]. specialize (Hk (S p) c). by destruct (k (S p) c). }
  rewrite (Hm 109) by done.
  rewrite rmatch_alt.
  destruct (Z.eqb_spec (canon x) 0x64A) as [E5|E5].
  { rewrite (Hh 0x64A) by done. cbn [orb]. specialize (Hk (S p) c). by destruct (k (S p) c). }
  rewrite (Hm 0x64A) by done. rewrite rmatch_alt, (Hm 0x64A) by done.
  rewrite rmatch_alt.
  destruct (Z.eqb_spec (canon x) 68) as [E6|E6].
  { rewrite (Hh 100) by done. cbn [orb]. specialize (Hk (S p) c). by destruct (k (S p) c). }
  rewrite (Hm 100) by done.
  rewrite rmatch_alt.
  destruct (Z.eqb_spec (canon x) 89) as [E7|E7].
  { rewrite (Hh 121) by done. cbn [orb]. specialize (Hk (S p) c). by destruct (k (S p) c). }
  rewrite (Hm 121) by done. rewrite (Hm 0x633) by done. done.
Qed.

Lemma re_relative_shape :
  re_relative = RSeq (RGroup 1 (rplus rdigit)) (RSeq (RStar rspace) (RGroup 2 unit_alts)).
Proof. reflexivity. Qed.

Lemma search_from_inv s r : forall tries from m,
  search_from s r tries from = Some m ->
  match_at s r (m_start m) = Some (m_end m, m_caps m).
Proof.
  induction tries as [|t IH]; intros from m H; cbn [search_from] in H;
    destruct (match_at s r from) as [[j c]|] eqn:E.
  - by injection H as <-.
  - discriminate.
  - by injection H as <-.
  - by apply IH in H.
Qed.

Lemma re_match_inv s r m :
  re_match s r = Some m -> match_at s r (m_start m) = Some (m_end m, m_caps m).
Proof.
  unfold re_match, re_exec. destruct (0 <=? length s)%nat; [|discriminate].
  apply search_from_inv.
Qed.

(** The letters a unit can begin with, in either case. *)
Lemma unit_letter_kind x :
  existsb (Z.eqb (canon x)) [0x633; 72; 0x62F; 77; 0x64A; 68; 89] = true ->
  exists kind, unit_of_letter x = Some kind.
Proof.
  intros H. apply existsb_exists in H as (v & Hv & He). apply Z.eqb_eq in He.
  assert (Hx : x = v \/ x = v + 32).
  { unfold canon, in_range in He. destruct ((97 <=? x) && (x <=? 122)); lia. }
  unfold unit_of_letter.
  cbn [In] in Hv.
  destruct Hv as [<-|[<-|[<-|[<-|[<-|[<-|[<-|[]]]]]]]];
    unfold canon, in_range in He;
    destruct (Z.leb_spec 97 x), (Z.leb_spec x 122); cbn [andb] in He; try lia;
    repeat match goal with
           | |- context [?a =? ?b] => destruct (Z.eqb_spec a b); try lia
           end; cbn [orb]; eauto.
Qed.

(** Which of the four lists of units the lower-cased letter is found in. *)
Lemma unit_branch x kind :
  unit_of_letter x = Some kind ->
  let unit := toLowerCase [x] in
  existsb (jsstring_eqb unit) [u_s; u_saa; str "h"; u_sa]
  = match kind with Hours => true | _ => false end /\
  existsb (jsstring_eqb unit) [u_d; u_daqiqa; str "m"]
  = match kind with Minutes => true | _ => false end /\
  existsb (jsstring_eqb unit) [u_y; u_yawm; str "d"]
  = match kind with Days => true | _ => false end /\
  existsb (jsstring_eqb unit) [str "y"; u_sana]
  = match kind with Years => true | _ => false end.
Proof.
  unfold unit_of_letter.
  repeat match goal with
         | |- context [?a =? ?b] => destruct (Z.eqb_spec a b); [subst x|]
         end; cbn [orb]; intros [= <-]; try discriminate; by vm_compute.
Qed.

(** What a match of the relative pattern has captured. *)
Lemma relative_match_groups s rel :
  re_match s re_relative = Some rel ->
  exists u kind ds,
    m_group s rel 2 = Some [u] /\ unit_of_letter u = Some kind /\
    m_group s rel 1 = Some ds /\ digit_string ds.
Proof.
  intros H. apply re_match_inv in H. unfold match_at in H.
  rewrite re_relative_shape, rmatch_seq in H.
  apply rmatch_sound in H as (j1 & c1 & H1 & H).
  rewrite rmatch_seq in H.
  apply rmatch_sound in H as (j2 & c2 & H2 & H).
  rewrite rmatch_group, unit_alts_first in H by done.
  destruct (s !! j2) as [u|] eqn:Hu; [|discriminate].
  destruct (existsb _ _) eqn:Hex; [|discriminate].
  injection H as Hend Hcaps.
  destruct (unit_letter_kind u Hex) as [kind Hkind].
  apply group_inv in H1 as (c0 & H1 & ->).
  apply plus_class_inv in H1 as (Hlt & Hall & ->).
  apply star_class_inv in H2 as (Hle & _ & ->).
  destruct (substring_span_all is_digit s (m_start rel) j1 Hall ltac:(lia)) as [Hlen Hdig].
  exists u, kind, (substring s (m_start rel) j1).
  unfold m_group. rewrite <- Hcaps. cbn [cap_lookup Nat.eqb].
  split.
  { unfold substring. unfold jsstring in *. rewrite (drop_S _ _ _ Hu).
    replace (S j2 - j2)%nat with 1%nat by lia. cbn [take]. by rewrite take_0. }
  split; [done|]. split; [done|].
  split; [|done]. intros E. rewrite E in Hlen. simpl in Hlen. lia.
Qed.

(** The result of [parseDateToISO] once the relative pattern has matched. *)
Lemma relative_result h raw rel u kind :
  let s := trim (normalizeArabicDigits raw) in
  raw <> [] ->
  re_test re_iso_like s = false ->
  re_match s re_relative = Some rel ->
  m_group s rel 2 = Some [u] -> unit_of_letter u = Some kind ->
  parseDateToISO h (Some raw)
  = toISOString_or_throw (shifted h kind (int_of (m_group s rel 1))).
Proof.
  intros s Hne Hiso Hrel Hg Hk. unfold parseDateToISO.
  assert (Htr : truthy raw = true) by (by destruct raw).
  rewrite Htr. cbn [negb]. fold s. rewrite Hiso, Hrel. cbv beta zeta. rewrite Hg.
  cbn [default from_option]. unfold id.
  destruct (unit_branch u kind Hk) as (B1 & B2 & B3 & B4). cbv zeta in B1, B2, B3, B4.
  rewrite B1, B2, B3, B4. by destruct kind.
Qed.

Lemma parseInt_digits x :
  digit_string x -> parseInt x = Some (digits_value x).
Proof.
  intros [Hne Hall]. destruct x as [|c x]; [done|].
  pose proof (Forall_inv Hall) as Hc. simpl in Hc.
  unfold parseInt. rewrite (trim_start_id c x) by (by apply digit_not_space).
  apply is_digit_range in Hc as Hr.
  destruct (Z.eqb_spec c 45); [lia|]. destruct (Z.eqb_spec c 43); [lia|].
  rewrite (span_digits_all (c :: x) Hall). cbn [fst]. f_equal. lia.
Qed.

Lemma unit_letter_facts u kind :
  unit_of_letter u = Some kind ->
  existsb (Z.eqb (canon u)) [0x633; 72; 0x62F; 77; 0x64A; 68; 89] = true /\
  is_digit u = false /\ is_space u = false.
Proof.
  unfold unit_of_letter.
  repeat match goal with
         | |- context [?a =? ?b] => destruct (Z.eqb_spec a b); [subst u|]
         end; cbn [orb]; intros [= <-]; try discriminate; by vm_compute.
Qed.

(** X18.  Whenever the relative pattern matches a date string that is not
    ISO-like, the unit it has read is one letter, the number is a run of
    digits, and [parseDateToISO] returns the clock time moved back by
    that number of hours, minutes, days or years, as the letter says. *)
Theorem relative_date_by_first_letter (h : Host) (raw : jsstring) (rel : rmatch_result) :
  let s := trim (normalizeArabicDigits raw) in
  raw <> [] ->
  re_test re_iso_like s = false ->
  re_match s re_relative = Some rel ->
  exists u kind ds,
    m_group s rel 2 = Some [u] /\ unit_of_letter u = Some kind /\
    m_group s rel 1 = Some ds /\ digit_string ds /\
    parseDateToISO h (Some raw)
    = toISOString_or_throw (shifted h kind (digits_value ds)).
Proof.
  intros s Hne Hiso Hrel.
  destruct (relative_match_groups s rel Hrel) as (u & kind & ds & Hg2 & Hk & Hg1 & Hds).
  exists u, kind, ds. repeat (split; [done|]).
  pose proof (relative_result h raw rel u kind Hne Hiso Hrel Hg2 Hk) as H.
  cbv zeta in H. fold s in H. rewrite Hg1 in H. unfold int_of in H.
  by rewrite (parseInt_digits ds Hds) in H.
Qed.

(** The match of the relative pattern at the head of a string that opens
    with digits, white space and a unit letter. *)
Lemma relative_at_head ds sp u rest kind :
  ds <> [] -> Forall (fun c => is_digit c = true) ds ->
  Forall (fun c => is_space c = true) sp ->
  unit_of_letter u = Some kind ->
  let s := ds ++ sp ++ u :: rest in
  let p := (length ds + length sp)%nat in
  re_match s re_relative
  = Some (mkMatch 0 (S p) [(2%nat, (p, S p)); (1%nat, (0%nat, length ds))]).
Proof.
  intros Hne Hds Hsp Hk s p. unfold re_match. apply re_exec_first.
  destruct (unit_letter_facts u kind Hk) as (Hex & Hud & Hus).
  destruct ds as [|d ds']; [done|].
  pose proof (Forall_inv Hds) as Hd. simpl in Hd.
  pose proof (Forall_inv_tail Hds) as Hds'.
  assert (Hp : s !! p = Some u).
  { subst s p. unfold jsstring in *. rewrite lookup_app_r by lia.
    rewrite lookup_app_r by lia.
    by replace (length (d :: ds') + length sp - length (d :: ds') - length sp)%nat
      with 0%nat by lia. }
  assert (Hdrop1 : drop 1 s = ds' ++ (sp ++ u :: rest)) by done.
  assert (Hdrop2 : drop (1 + length ds') s = sp ++ (u :: rest)).
  { subst s. change (1 + length ds')%nat with (length (d :: ds')). by rewrite drop_app_length. }
  assert (Hhead1 : match sp ++ u :: rest with [] => True | x :: _ => is_digit x = false end).
  { destruct sp as [|x sp']; [done|]. simpl.
    apply Forall_inv in Hsp. simpl in Hsp.
    destruct (is_digit x) eqn:E; [|done]. apply digit_not_space in E. congruence. }
  set (c1 := [(1%nat, (0%nat, length (d :: ds')))]).
  assert (V2 : rmatch s (RGroup 2 unit_alts) p c1 (fun j c => Some (j, c))
               = Some (S p, (2%nat, (p, S p)) :: c1)).
  { rewrite rmatch_group, unit_alts_first by done. unfold jsstring in *.
    by rewrite Hp, Hex. }
  assert (V1 : rmatch s (RStar rspace) (1 + length ds') c1
                 (fun j c' => rmatch s (RGroup 2 unit_alts) j c' (fun j c => Some (j, c)))
               = Some (S p, (2%nat, (p, S p)) :: c1)).
  { unfold rspace.
    rewrite (star_class_greedy s is_space _ c1 sp (u :: rest) (1 + length ds') Hdrop2 Hsp Hus).
    - exact V2.
    - intros E. pose proof (eq_trans (eq_sym V2) E). discriminate. }
  unfold match_at. rewrite re_relative_shape, rmatch_seq, rmatch_group.
  unfold rplus. rewrite rmatch_seq. unfold rdigit at 1.
  rewrite (rmatch_char_hit s is_digit 0 _ _ d eq_refl Hd).
  unfold rdigit.
  rewrite (star_class_greedy s is_digit _ [] ds' (sp ++ u :: rest) 1 Hdrop1 Hds' Hhead1).
  - cbv beta. rewrite rmatch_seq. exact V1.
  - cbv beta. rewrite rmatch_seq. intros E. pose proof (eq_trans (eq_sym V1) E). discriminate.
Qed.

(** The result for a string that opens with digits, white space and a
    unit letter. *)
Lemma relative_head_result (h : Host) (raw ds sp rest : jsstring) (u : Z)
    (kind : rel_unit) :
  raw <> [] ->
  trim (normalizeArabicDigits raw) = ds ++ sp ++ u :: rest ->
  ds <> [] -> Forall (fun c => is_digit c = true) ds ->
  Forall (fun c => is_space c = true) sp ->
  unit_of_letter u = Some kind ->
  re_test re_iso_like (ds ++ sp ++ u :: rest) = false ->
  parseDateToISO h (Some raw) = toISOString_or_throw (shifted h kind (digits_value ds)).
Proof.
  intros Hne Hs Hdne Hds Hsp Hk Hiso.
  pose proof (relative_at_head ds sp u rest kind Hdne Hds Hsp Hk) as Hrel.
  cbv zeta in Hrel. rewrite <- Hs in Hrel, Hiso.
  set (p := (length ds + length sp)%nat) in *.
  set (rel := mkMatch 0 (S p) _) in Hrel.
  assert (Hp : (ds ++ sp ++ u :: rest) !! p = Some u).
  { subst p. unfold jsstring in *. rewrite lookup_app_r by lia.
    rewrite lookup_app_r by lia.
    by replace (length ds + length sp - length ds - length sp)%nat with 0%nat by lia. }
  assert (Hg2 : m_group (trim (normalizeArabicDigits raw)) rel 2 = Some [u]).
  { unfold m_group, rel. cbn [m_caps cap_lookup Nat.eqb]. rewrite Hs.
    unfold substring. unfold jsstring in *. rewrite (drop_S _ _ _ Hp).
    replace (S p - p)%nat with 1%nat by lia. cbn [take]. by rewrite take_0. }
  assert (Hg1 : m_group (trim (normalizeArabicDigits raw)) rel 1 = Some ds).
  { unfold m_group, rel. cbn [m_caps cap_lookup Nat.eqb]. rewrite Hs.
    unfold substring. by rewrite Nat.sub_0_r, drop_0, take_app_length. }
  pose proof (relative_result h raw rel u kind Hne Hiso Hrel Hg2 Hk) as H.
  cbv zeta in H. rewrite Hg1 in H. unfold int_of in H.
  by rewrite (parseInt_digits ds (conj Hdne Hds)) in H.
Qed.

(** ** Setting a field to its value less [n] *)

Lemma month_of_day_range leap d : 0 <= month_of_day leap d <= 11.
Proof.
  unfold month_of_day.
  repeat match goal with |- context [?a <? ?b] => destruct (a <? b) end; lia.
Qed.

Lemma MakeDay_of_fields l n :
  MakeDay (YearFromTime l) (MonthFromTime l) (DateFromTime l - n) = Day l - n.
Proof.
  unfold MakeDay, DateFromTime.
  pose proof (month_of_day_range (InLeapYear l) (DayWithinYear l)) as Hm.
  fold (MonthFromTime l) in Hm.
  replace (MonthFromTime l / 12) with 0 by (Z.div_mod_to_equations; lia).
  replace (MonthFromTime l mod 12) with (MonthFromTime l) by (Z.div_mod_to_equations; lia).
  rewrite Z.add_0_r. fold (InLeapYear l). unfold DayWithinYear. lia.
Qed.

Lemma time_of_fields l n :
  MakeDate (Day l) (MakeTime (HourFromTime l - n) (MinFromTime l) (SecFromTime l) (msFromTime l))
  = l - n * msPerHour /\
  MakeDate (Day l) (MakeTime (HourFromTime l) (MinFromTime l - n) (SecFromTime l) (msFromTime l))
  = l - n * msPerMinute /\
  MakeDate (Day l - n) (TimeWithinDay l) = l - n * msPerDay.
Proof.
  unfold MakeDate, MakeTime, Day, TimeWithinDay, HourFromTime, MinFromTime, SecFromTime,
    msFromTime, msPerDay, msPerHour, msPerMinute, msPerSecond.
  repeat split; Z.div_mod_to_equations; lia.
Qed.

(** Setting the hours, minutes or day of the month to the present value
    less [n] moves the time back by exactly [n] such units, across days,
    months and years. *)
Lemma shifted_linear h kind n :
  kind <> Years ->
  shifted h kind n = TimeClip (UTC h (LocalTime h (now h) - n * unit_ms kind)).
Proof.
  intros Hk. unfold shifted, setHours, setMinutes, setDate.
  destruct (time_of_fields (LocalTime h (now h)) n) as (T1 & T2 & T3).
  destruct kind; cbn [unit_ms]; [by rewrite T1|by rewrite T2| |done].
  by rewrite MakeDay_of_fields, T3.
Qed.

(** X19.  A date string that, once its digits are normalised and it is
    trimmed, opens with a run of digits, any white space and a unit
    letter ([h], [m], [d], [y] in either case, or the first letter of an
    Arabic unit), and is not ISO-like, is read as that many hours,
    minutes, days or years before the clock time; what follows the
    letter is not looked at.  For hours, minutes and days the result is
    the local clock time less exactly that many units, and the call
    throws when that leaves the range of time values. *)
Theorem parseDateToISO_relative (h : Host) (raw ds sp rest : jsstring) (u : Z)
    (kind : rel_unit) :
  raw <> [] ->
  trim (normalizeArabicDigits raw) = ds ++ sp ++ u :: rest ->
  ds <> [] -> Forall (fun c => is_digit c = true) ds ->
  Forall (fun c => is_space c = true) sp ->
  unit_of_letter u = Some kind ->
  re_test re_iso_like (ds ++ sp ++ u :: rest) = false ->
  let n := digits_value ds in
  let t := UTC h (LocalTime h (now h) - n * unit_ms kind) in
  parseDateToISO h (Some raw) = toISOString_or_throw (shifted h kind n) /\
  (kind <> Years ->
   parseDateToISO h (Some raw)
   = if Z.abs t <=? 8640000000000000 then Return (Some (toISOString t))
     else Throw (str "Invalid time value")).
Proof.
  intros Hne Hs Hdne Hds Hsp Hk Hiso n t.
  pose proof (relative_head_result h raw ds sp rest u kind Hne Hs Hdne Hds Hsp Hk Hiso) as H.
  split; [exact H|]. intros Hy. etrans; [exact H|].
  pose proof (shifted_linear h kind n Hy) as E. fold t in E. subst n. rewrite E.
  unfold TimeClip. by destruct (Z.abs t <=? 8640000000000000).
Qed.

(** "3 years" in Arabic, with an Arabic-Indic digit. *)
Definition three_years : jsstring := [0x663; 32; 0x633; 0x646; 0x629].

Lemma relative_date_by_first_letter_witness :
  exists u kind ds,
    m_group (trim (normalizeArabicDigits three_years))
      (mkMatch 0 3 [(2%nat, (2%nat, 3%nat)); (1%nat, (0%nat, 1%nat))]) 2 = Some [u] /\
    unit_of_letter u = Some kind /\
    m_group (trim (normalizeArabicDigits three_years))
      (mkMatch 0 3 [(2%nat, (2%nat, 3%nat)); (1%nat, (0%nat, 1%nat))]) 1 = Some ds /\
    digit_string ds /\
    parseDateToISO (utc_host 0) (Some three_years)
    = toISOString_or_throw (shifted (utc_host 0) kind (digits_value ds)).
Proof.
  apply (relative_date_by_first_letter (utc_host 0) three_years
           (mkMatch 0 3 [(2%nat, (2%nat, 3%nat)); (1%nat, (0%nat, 1%nat))])).
  - discriminate.
  - reflexivity.
  - reflexivity.
Defined.

(** The third example of the comment on [parseDateToISO]:
    14 September at 6:00 in the evening. *)
Definition september_14 : jsstring :=
  [49; 52; 32; 0x633; 0x628; 0x62A; 0x645; 0x628; 0x631; 32;
   0x627; 0x644; 0x633; 0x627; 0x639; 0x629; 32; 54; 58; 48; 48; 32; 0x645].

Lemma parseDateToISO_relative_witness :
  parseDateToISO (utc_host 0) (Some september_14)
  = Return (Some (str "1969-12-31T10:00:00.000Z")).
Proof.
  refine (proj2 (parseDateToISO_relative (utc_host 0) september_14 (str "14") [32]
                   (drop 4 september_14) 0x633 Hours _ _ _ _ _ _ _) _).
  - discriminate.
  - reflexivity.
  - discriminate.
  - repeat constructor.
  - repeat constructor.
  - reflexivity.
  - reflexivity.
  - discriminate.
Defined.

End RelativeFacts.

(** * 24. What [toNumber] returns *)

Module NumberFacts.
Import JS JSDate Utils Dom Matching MatchingFacts UtilsFacts Measures Shapes DigitFacts ForwardFacts CountFacts RelativeFacts.

(** ** [toNumber] of scraper.js *)

(** The match of a suffix pattern on digits, white space and the suffix. *)
Lemma suffix_at_head d ds sp u :
  Forall (fun c => is_digit c = true) (d :: ds) ->
  Forall (fun c => is_space c = true) sp ->
  is_digit u = false -> is_space u = false -> u <> 46 ->
  let s := (d :: ds) ++ sp ++ [u] in
  re_match s (suffix_re u)
  = Some (mkMatch 0 (S (S (length ds) + length sp)) [(1%nat, (0%nat, S (length ds)))]).
Proof.
  intros Hds Hsp Hud Hus Hu46 s. unfold re_match. apply re_exec_first.
  pose proof (Forall_inv Hds) as Hd. simpl in Hd.
  pose proof (Forall_inv_tail Hds) as Hds'.
  set (p := (S (length ds) + length sp)%nat).
  set (c1 := [(1%nat, (0%nat, S (length ds)))]).
  assert (Hp : s !! p = Some u).
  { subst s p. unfold jsstring in *. rewrite lookup_app_r by (simpl; lia).
    rewrite lookup_app_r by (simpl; lia).
    by replace (S (length ds) + length sp - length (d :: ds) - length sp)%nat
      with 0%nat by (simpl; lia). }
  assert (Hdrop1 : drop 1 s = ds ++ (sp ++ [u])) by done.
  assert (Hdrop2 : drop (S (length ds)) s = sp ++ [u]).
  { subst s. change (S (length ds)) with (length (d :: ds)). by rewrite drop_app_length. }
  assert (Hhead : match sp ++ [u] with [] => True | x :: _ => is_digit x = false /\ x <> 46 end).
  { destruct sp as [|x sp']; [done|]. simpl.
    apply Forall_inv in Hsp. simpl in Hsp. split.
    - destruct (is_digit x) eqn:E; [|done]. apply digit_not_space in E. congruence.
    - intros ->. discriminate. }
  assert (V3 : rmatch s (RSeq (RStar rspace) (chr u)) (S (length ds)) c1
                 (fun j c => Some (j, c)) = Some (S p, c1)).
  { rewrite rmatch_seq. unfold rspace.
    assert (V : rmatch s (chr u) p c1 (fun j c => Some (j, c)) = Some (S p, c1)).
    { unfold chr. rewrite (rmatch_char_hit s _ p c1 _ u Hp); [done|apply Z.eqb_refl]. }
    rewrite (star_class_greedy s is_space _ c1 sp [u] (S (length ds)) Hdrop2 Hsp Hus).
    - exact V.
    - intros E. pose proof (eq_trans (eq_sym V) E). discriminate. }
  assert (V2 : rmatch s (RAlt (RSeq (chr 46) (RSeq rdigit (RStar rdigit))) REmpty)
                 (1 + length ds) []
                 (fun j c' => rmatch s (RSeq (RStar rspace) (chr u)) j
                                ((1%nat, (0%nat, j)) :: c') (fun j c => Some (j, c)))
               = Some (S p, c1)).
  { rewrite rmatch_alt, rmatch_seq. unfold chr at 1. rewrite rmatch_char_miss.
    - exact V3.
    - assert (Hl : s !! (1 + length ds)%nat = (sp ++ [u]) !! 0%nat).
      { subst s. unfold jsstring in *. rewrite lookup_app_r by (simpl; lia).
        f_equal. simpl. lia. }
      unfold jsstring in *. rewrite Hl.
      destruct (sp ++ [u]) as [|x r] eqn:E; [done|].
      destruct Hhead as [_ Hx]. cbn [lookup list_lookup]. apply Z.eqb_neq. congruence. }
  unfold match_at, suffix_re. cbn [rseq]. rewrite rmatch_seq, rmatch_group.
  unfold rplus, ropt. rewrite rmatch_seq, rmatch_seq. unfold rdigit at 1.
  rewrite (rmatch_char_hit s is_digit 0 _ _ d eq_refl Hd). unfold rdigit at 1.
  assert (Hhead' : match sp ++ [u] with [] => True | x :: _ => is_digit x = false end).
  { destruct (sp ++ [u]); [done|tauto]. }
  rewrite (star_class_greedy s is_digit _ [] ds (sp ++ [u]) 1 Hdrop1 Hds' Hhead').
  - exact V2.
  - intros E. pose proof (eq_trans (eq_sym V2) E). discriminate.
Qed.

(** A suffix pattern finds nothing in a text without the suffix. *)
Lemma suffix_absent u s : u ∉ s -> re_match s (suffix_re u) = None.
Proof.
  intros Hu. unfold re_match. destruct (re_exec s (suffix_re u) 0) as [m|] eqn:E; [|done].
  exfalso. apply re_exec_sound in E. unfold suffix_re in E. cbn [rseq] in E.
  apply seq_inv in E as (j1 & c1 & _ & E).
  apply seq_inv in E as (j2 & c2 & _ & E).
  apply char_inv in E as (_ & _ & x & Hx & He). apply Z.eqb_eq in He. subst x.
  apply Hu. by eapply list_elem_of_lookup_2.
Qed.

Lemma toLowerCase_app a b : toLowerCase (a ++ b) = toLowerCase a ++ toLowerCase b.
Proof. unfold toLowerCase. by rewrite map_app, concat_app. Qed.

Lemma lower_unit_low c : c < 65 \/ (90 < c /\ c <> 0x212A /\ c <> 0x130) -> lower_unit c = [c].
Proof.
  intros H. unfold lower_unit, in_range.
  destruct (Z.leb_spec 65 c), (Z.leb_spec c 90); cbn [andb]; try lia;
    (destruct (Z.eqb_spec c 8490); [lia|]); (destruct (Z.eqb_spec c 304); [lia|]); done.
Qed.

(** What [is_space] holds of. *)
Lemma space_cases c :
  is_space c = true ->
  9 <= c <= 13 \/ c = 32 \/ c = 0xA0 \/ c = 0x1680 \/ 0x2000 <= c <= 0x200A \/
  c = 0x2028 \/ c = 0x2029 \/ c = 0x202F \/ c = 0x205F \/ c = 0x3000 \/ c = 0xFEFF.
Proof.
  unfold is_space, in_range. intros H.
  repeat (apply orb_true_iff in H as [H|H0];
          [|first [apply Z.eqb_eq in H0 | apply andb_true_iff in H0 as [?%Z.leb_le ?%Z.leb_le]];
            lia]).
  apply andb_true_iff in H as [?%Z.leb_le ?%Z.leb_le]. lia.
Qed.

Lemma space_plain c :
  is_space c = true -> latin_digit c = c /\ lower_unit c = [c] /\ is_digit c = false /\
                       c <> 107 /\ c <> 109 /\ c <> 44.
Proof.
  intros H. pose proof (space_cases c H) as Hc.
  assert (Hd : is_digit c = false).
  { destruct (is_digit c) eqn:E; [|done]. apply digit_not_space in E. congruence. }
  repeat split; try done; try lia.
  - unfold latin_digit, is_arabic_digit, in_range.
    destruct (Z.leb_spec 1632 c), (Z.leb_spec c 1641); cbn [andb]; try done. lia.
  - apply lower_unit_low. lia.
Qed.

Lemma digit_plain c :
  is_digit c = true -> lower_unit c = [c] /\ is_space c = false /\ c <> 107 /\ c <> 109 /\ c <> 44.
Proof.
  intros H. pose proof (digit_not_space c H). apply is_digit_range in H.
  repeat split; try done; try lia. apply lower_unit_low. lia.
Qed.

Lemma scaled_digits d ds f :
  Forall (fun c => is_digit c = true) (d :: ds) ->
  Scraper.scaled (Some (d :: ds)) f = Some (digits_value (d :: ds) * f).
Proof.
  intros H. unfold Scraper.scaled. by rewrite (parseFloat_digits d ds H), round_scaled_whole.
Qed.

(** X20.  [toNumber] reads a magnitude suffix whether or not it is set
    apart from the digits: a run of at most 6 digits writing [v],
    followed by any white space and [k] or [K], gives [v] times 1000, and
    followed by [m] or [M] gives [v] times 1000000. *)
Theorem toNumber_magnitude_suffix (ds sp : jsstring) (u f : Z) :
  ds <> [] -> Forall digitish ds -> (length ds <= 6)%nat ->
  Forall (fun c => is_space c = true) sp ->
  ((u = 107 \/ u = 75) /\ f = 1000) \/ ((u = 109 \/ u = 77) /\ f = 1000000) ->
  Scraper.toNumber (Some (ds ++ sp ++ [u]))
  = Some (digits_value (map latin_digit ds) * f).
Proof.
  intros Hne Hds _ Hsp Hu.
  assert (Hd : Forall (fun c => is_digit c = true) (map latin_digit ds)).
  { apply Forall_map. eapply Forall_impl; [exact Hds|]. apply latin_digit_digit. }
  destruct (map latin_digit ds) as [|d ds'] eqn:Eds; [by destruct ds|].
  unfold Scraper.toNumber.
  assert (Htr : truthy (ds ++ sp ++ [u]) = true) by (by destruct ds).
  rewrite Htr. cbn [negb].
  set (lu := if (u =? 75) || (u =? 107) then 107 else 109).
  assert (Hs : toLowerCase (normalizeArabicDigits (ds ++ sp ++ [u]))
               = (d :: ds') ++ sp ++ [lu]).
  { rewrite normalizeArabicDigits_map, !map_app, Eds, !toLowerCase_app.
    f_equal; [|f_equal].
    - apply toLowerCase_id. eapply Forall_impl; [exact Hd|].
      intros c Hc. by apply digit_plain in Hc as [? _].
    - assert (E : map latin_digit sp = sp).
      { clear -Hsp. induction Hsp as [|c sp Hc _ IH]; [done|]. cbn [map].
        rewrite IH. f_equal. by apply space_plain in Hc as [? _]. }
      rewrite E. apply toLowerCase_id. eapply Forall_impl; [exact Hsp|].
      intros c Hc. by apply space_plain in Hc as (_ & ? & _).
    - subst lu. destruct Hu as [[[-> | ->] _]|[[-> | ->] _]]; reflexivity. }
  rewrite Hs.
  assert (Hlud : is_digit lu = false /\ is_space lu = false /\ lu <> 46).
  { subst lu. destruct ((u =? 75) || (u =? 107)); repeat split; done. }
  destruct Hlud as (L1 & L2 & L3).
  pose proof (suffix_at_head d ds' sp lu Hd Hsp L1 L2 L3) as Hm. cbv zeta in Hm.
  change Scraper.re_k_suffix with (suffix_re 107).
  change Scraper.re_m_suffix with (suffix_re 109).
  assert (Hsub : substring ((d :: ds') ++ sp ++ [lu]) 0 (S (length ds')) = d :: ds').
  { unfold substring. rewrite Nat.sub_0_r, drop_0.
    change (S (length ds')) with (length (d :: ds')). by rewrite take_app_length. }
  destruct Hu as [[Hu ->]|[Hu ->]].
  - assert (lu = 107) as -> by (subst lu; destruct Hu as [-> | ->]; reflexivity).
    rewrite Hm. unfold m_group. cbn [m_caps cap_lookup Nat.eqb].
    rewrite Hsub. by apply scaled_digits.
  - assert (lu = 109) as -> by (subst lu; destruct Hu as [-> | ->]; reflexivity).
    rewrite (suffix_absent 107).
    2: { intros Hin. apply elem_of_app in Hin as [Hin|Hin].
         - rewrite Forall_forall in Hd. apply Hd in Hin. discriminate.
         - apply elem_of_app in Hin as [Hin|Hin].
           + rewrite Forall_forall in Hsp. apply Hsp in Hin. discriminate.
           + apply list_elem_of_singleton in Hin. discriminate. }
    rewrite Hm. unfold m_group. cbn [m_caps cap_lookup Nat.eqb].
    rewrite Hsub. by apply scaled_digits.
Qed.

Lemma group_char_plain c :
  group_char c ->
  let x := latin_digit c in
  lower_unit x = [x] /\ x <> 107 /\ x <> 109 /\
  ((x =? 44) || is_space x = negb (is_digit x)).
Proof.
  intros [H|[->|H]]; cbv zeta.
  - pose proof (latin_digit_digit c H) as Hd.
    destruct (digit_plain _ Hd) as (L & S & K & M & C).
    repeat split; try done. rewrite Hd, S. by apply Z.eqb_neq in C as ->.
  - repeat split; done.
  - destruct (space_plain c H) as (-> & L & D & K & M & C).
    repeat split; try done. rewrite H, D. by rewrite orb_true_r.
Qed.

(** X21.  [toNumber] reads through thousands separators: for a text of
    digits, commas and white space with at least one and at most 15
    digits, it returns the number that the digits write when the commas
    and the white space are left out. *)
Theorem toNumber_grouped_digits (raw : jsstring) :
  Forall group_char raw -> Exists digitish raw ->
  (length (List.filter is_digit (map latin_digit raw)) <= 15)%nat ->
  Scraper.toNumber (Some raw)
  = Some (digits_value (List.filter is_digit (map latin_digit raw))).
Proof.
  intros Hall Hex _.
  unfold Scraper.toNumber.
  assert (Htr : truthy raw = true) by (destruct raw; [by apply Exists_nil in Hex|done]).
  rewrite Htr. cbn [negb].
  set (s := map latin_digit raw).
  assert (Hs : Forall (fun x => lower_unit x = [x] /\ x <> 107 /\ x <> 109 /\
                                ((x =? 44) || is_space x = negb (is_digit x))) s).
  { subst s. apply Forall_map. eapply Forall_impl; [exact Hall|]. apply group_char_plain. }
  rewrite normalizeArabicDigits_map. fold s.
  rewrite (toLowerCase_id s) by (eapply Forall_impl; [exact Hs|]; by intros c (? & _)).
  change Scraper.re_k_suffix with (suffix_re 107).
  change Scraper.re_m_suffix with (suffix_re 109).
  rewrite (suffix_absent 107), (suffix_absent 109).
  2: { intros Hin. rewrite Forall_forall in Hs. apply Hs in Hin. by destruct Hin as (_ & _ & ? & _). }
  2: { intros Hin. rewrite Forall_forall in Hs. apply Hs in Hin. by destruct Hin as (_ & ? & _). }
  rewrite replace_class.
  assert (Hf : flat_map (fun c => if (c =? 44) || is_space c then [] else [c]) s
               = List.filter is_digit s).
  { clear -Hs. induction Hs as [|c s (_ & _ & _ & Hc) _ IH]; [done|].
    cbn [flat_map List.filter]. rewrite IH, Hc. by destruct (is_digit c). }
  rewrite Hf. apply parseInt_digits. split.
  - apply Exists_exists in Hex as (x & Hin & Hx).
    assert (Hin' : latin_digit x ∈ List.filter is_digit s).
    { apply list_elem_of_In, filter_In. split; [|by apply latin_digit_digit].
      subst s. apply in_map; first [assumption | by apply list_elem_of_In]. }
    intros E. rewrite E in Hin'. by apply elem_of_nil in Hin'.
  - apply Forall_forall. intros x Hx. apply list_elem_of_In, filter_In in Hx. tauto.
Qed.

Lemma toNumber_magnitude_suffix_witness :
  Scraper.toNumber (Some (str "12k")) = Some 12000.
Proof.
  apply (toNumber_magnitude_suffix (str "12") [] 107 1000).
  - discriminate.
  - repeat constructor; left; reflexivity.
  - simpl. lia.
  - constructor.
  - left. split; [by left|reflexivity].
Defined.

Lemma toNumber_grouped_digits_witness :
  Scraper.toNumber (Some (str "2,300")) = Some 2300.
Proof.
  apply (toNumber_grouped_digits (str "2,300")).
  - repeat constructor; first [by left; left | by right; left].
  - constructor. by left.
  - simpl. lia.
Defined.

End NumberFacts.

(** * 25. A scrape that fails on a date *)

Module FailureFacts.
Import JS JSDate Utils Dom Measures ScraperFacts.

(** ** When the scrape fails on a date *)

Lemma enrich_returns h ps :
  (forall p, p ∈ ps -> exists iso, parseDateToISO h (Scraper.date p) = Return iso) ->
  exists es, Scraper.enrich h ps = Return es.
Proof.
  induction ps as [|p ps IH]; intros H; cbn [Scraper.enrich]; [by eexists|].
  destruct (H p) as [iso ->]; [by left|].
  destruct IH as [es ->]; [intros q Hq; apply H; by right|]. by eexists.
Qed.

Lemma enrich_throws h ps m :
  Scraper.enrich h ps = Throw m ->
  exists p, p ∈ ps /\ parseDateToISO h (Scraper.date p) = Throw m.
Proof.
  induction ps as [|p ps IH]; cbn [Scraper.enrich]; [discriminate|].
  destruct (parseDateToISO h (Scraper.date p)) as [iso|m'] eqn:E.
  - destruct (Scraper.enrich h ps) as [es|m'']; [discriminate|].
    intros [= ->]. destruct (IH eq_refl) as (q & Hq & Hm). exists q. split; [by right|done].
  - intros [= ->]. exists p. split; [by left|done].
Qed.

(** X22.  Once logged in and on the page, [scrapeFacebookPage] returns
    exactly when [parseDateToISO] returns for the date of every post it
    keeps; when it throws, it throws what [parseDateToISO] threw for one
    of them, no result is returned for the other posts, and the browser
    has been closed. *)
Theorem scrape_returns_iff_dates_parse (h : Host) (b : Browser) (o : Scraper.Options)
    (u : jsstring) :
  Scraper.FB_PAGE_URL o = Some u -> u <> [] ->
  login_result b = None -> goto_result b = None ->
  let kept := Scraper.slice0 (Scraper.extractPosts (articles b)) (Scraper.posts_target o) in
  ((exists r evs, Scraper.scrapeFacebookPage h b o = (Return r, evs)) <->
   (forall p, p ∈ kept -> exists iso, parseDateToISO h (Scraper.date p) = Return iso)) /\
  (forall m evs, Scraper.scrapeFacebookPage h b o = (Throw m, evs) ->
     (exists p, p ∈ kept /\ parseDateToISO h (Scraper.date p) = Throw m) /\
     last evs = Some EClose).
Proof.
  intros Hu Hne Hl Hg kept.
  assert (Htr : truthy u = true) by (by destruct u).
  unfold Scraper.scrapeFacebookPage. rewrite Hu, Htr, Hl, Hg. cbn [negb]. fold kept.
  split; [split|].
  - intros (r & evs & H) p Hp.
    destruct (Scraper.enrich h kept) as [es|m] eqn:E; [|discriminate].
    destruct (parseDateToISO h (Scraper.date p)) as [iso|m] eqn:Ep; [by eexists|].
    exfalso. clear H. revert es E. induction kept as [|q kept IH]; intros es E.
    + by apply elem_of_nil in Hp.
    + cbn [Scraper.enrich] in E. apply elem_of_cons in Hp as [->|Hp].
      * by rewrite Ep in E.
      * destruct (parseDateToISO h (Scraper.date q)); [|discriminate].
        destruct (Scraper.enrich h kept) as [es'|]; [|discriminate]. by eapply IH.
  - intros H. destruct (enrich_returns h kept H) as [es ->]. by do 2 eexists.
  - intros m evs H.
    destruct (Scraper.enrich h kept) as [es|m'] eqn:E; [discriminate|].
    injection H as -> <-. split; [by apply enrich_throws|done].
Qed.

Lemma scrape_returns_iff_dates_parse_witness :
  let kept := Scraper.slice0 (Scraper.extractPosts (articles RecordFacts.dated_browser))
                (Scraper.posts_target RecordFacts.dated_options) in
  ((exists r evs, Scraper.scrapeFacebookPage (utc_host 0) RecordFacts.dated_browser
                    RecordFacts.dated_options = (Return r, evs)) <->
   (forall p, p ∈ kept ->
      exists iso, parseDateToISO (utc_host 0) (Scraper.date p) = Return iso)) /\
  (forall m evs, Scraper.scrapeFacebookPage (utc_host 0) RecordFacts.dated_browser
                   RecordFacts.dated_options = (Throw m, evs) ->
     (exists p, p ∈ kept /\ parseDateToISO (utc_host 0) (Scraper.date p) = Throw m) /\
     last evs = Some EClose).
Proof.
  apply (scrape_returns_iff_dates_parse (utc_host 0) RecordFacts.dated_browser
           RecordFacts.dated_options (str "https://www.facebook.com/page")).
  - reflexivity.
  - discriminate.
  - reflexivity.
  - reflexivity.
Defined.

End FailureFacts.

(** * 26. The answers of the API *)

Module ApiFacts.
Import JS JSDate Utils Dom Api OptimizedFacts.


End ApiFacts.

(** * 27. White space in the texts *)

Module SpacingFacts.
Import JS JSDate Utils Dom Matching MatchingFacts UtilsFacts Measures Shapes DigitFacts ForwardFacts ScraperFacts OptimizedFacts.

(** ** Replacing runs *)

Lemma run_split (p : Z -> bool) (l : list Z) :
  exists run rest, l = run ++ rest /\ Forall (fun x => p x = true) run /\
    match rest with [] => True | x :: _ => p x = false end.
Proof.
  induction l as [|c l (run & rest & -> & Hrun & Hrest)].
  - exists [], []. by repeat split.
  - destruct (p c) eqn:E.
    + exists (c :: run), rest. repeat split; [by constructor|done].
    + exists [], (c :: run ++ rest). by repeat split.
Qed.

Lemma squeeze_run p b run rest :
  Forall (fun x => p x = true) run ->
  match rest with [] => True | x :: _ => p x = false end ->
  squeeze p b true (run ++ rest) = squeeze p b false rest.
Proof.
  intros Hrun Hrest. induction Hrun as [|c run Hc _ IH]; cbn [app squeeze].
  - destruct rest as [|x rest]; [done|]. cbn [squeeze]. by rewrite Hrest.
  - by rewrite Hc.
Qed.

Lemma re_exec_here s r from j c :
  (from <= length s)%nat -> match_at s r from = Some (j, c) ->
  re_exec s r from = Some (mkMatch from j c).
Proof.
  intros Hle H. unfold re_exec. destruct (Nat.leb_spec from (length s)); [|lia].
  destruct (length s - from)%nat; cbn [search_from]; by rewrite H.
Qed.

(** The match of [p+] where a run of [p] begins. *)
Lemma plus_at_run s p from x run rest :
  drop from s = (x :: run) ++ rest ->
  Forall (fun c => p c = true) (x :: run) ->
  match rest with [] => True | y :: _ => p y = false end ->
  match_at s (rplus (RChar p)) from = Some (from + length (x :: run), [])%nat.
Proof.
  intros Hd Hrun Hrest. unfold match_at, rplus.
  change (rmatch s (RSeq ?a ?b) from [] ?k)
    with (rmatch s a from [] (fun j c' => rmatch s b j c' k)).
  pose proof (Forall_inv Hrun) as Hx. simpl in Hx.
  rewrite (rmatch_char_hit s p from _ _ x); [|by eapply lookup_drop_head|done].
  rewrite (star_class_greedy s p _ [] run rest (S from)).
  - do 2 f_equal. simpl. lia.
  - by eapply drop_tail.
  - by apply Forall_inv_tail in Hrun.
  - done.
  - done.
Qed.

Lemma replace_runs_from s p b : forall n from fuel,
  (length s - from <= n)%nat -> (length s - from < fuel)%nat ->
  replace_walk s (fun _ => [b]) (matches_from s (rplus (RChar p)) fuel from) from
  = squeeze p b false (drop from s).
Proof.
  induction n as [|n IH]; intros from fuel Hn Hf.
  - (* past the end *)
    assert (Hd : drop from s = []) by (apply drop_ge; lia).
    destruct fuel as [|fuel]; [lia|].
    cbn [matches_from]. rewrite Hd. cbn [squeeze].
    assert (Hnone : re_exec s (rplus (RChar p)) from = None).
    { unfold re_exec. destruct (Nat.leb_spec from (length s)); [|done].
      assert (from = length s) by lia.
      subst from. rewrite Nat.sub_diag. cbn [search_from].
      unfold match_at, rplus.
      change (rmatch s (RSeq ?a ?b) ?i [] ?k)
        with (rmatch s a i [] (fun j c' => rmatch s b j c' k)).
      rewrite rmatch_char_miss; [done|]. unfold jsstring in *.
      by rewrite lookup_ge_None_2 by lia. }
    rewrite Hnone. cbn [replace_walk]. exact Hd.
  - destruct (drop from s) as [|x l] eqn:Hd.
    { destruct fuel as [|fuel]; [lia|]. cbn [matches_from squeeze].
      assert (Hge : (length s <= from)%nat).
      { apply (f_equal length) in Hd. rewrite length_drop in Hd. simpl in Hd. lia. }
      assert (Hnone : re_exec s (rplus (RChar p)) from = None).
      { unfold re_exec. destruct (Nat.leb_spec from (length s)); [|done].
        assert (from = length s) by lia.
        subst from. rewrite Nat.sub_diag. cbn [search_from].
        unfold match_at, rplus.
        change (rmatch s (RSeq ?a ?b) ?i [] ?k)
          with (rmatch s a i [] (fun j c' => rmatch s b j c' k)).
        rewrite rmatch_char_miss; [done|]. unfold jsstring in *.
        by rewrite lookup_ge_None_2 by lia. }
      rewrite Hnone. cbn [replace_walk]. exact Hd. }
    pose proof (lookup_drop_head s from x l Hd) as Hx.
    assert (Hlt : (from < length s)%nat) by (by eapply lookup_lt_Some).
    destruct (p x) eqn:Hp.
    + destruct (run_split p l) as (run & rest & -> & Hrun & Hrest).
      assert (Hm : match_at s (rplus (RChar p)) from
                   = Some (from + length (x :: run), [])%nat).
      { apply (plus_at_run s p from x run rest); [done|by constructor|done]. }
      destruct fuel as [|fuel]; [lia|].
      cbn [matches_from]. rewrite (re_exec_here s _ from _ _ ltac:(lia) Hm).
      cbn [m_start m_end].
      destruct (Nat.ltb_spec from (from + length (x :: run))); [|simpl in *; lia].
      cbn [replace_walk m_start m_end].
      assert (Hsub : substring s from from = []).
      { unfold substring. by rewrite Nat.sub_diag, take_0. }
      rewrite Hsub. cbn [app].
      assert (Hdrop : drop (from + length (x :: run)) s = rest).
      { rewrite <- drop_drop, Hd.
        change (x :: run ++ rest) with ((x :: run) ++ rest). by rewrite drop_app_length. }
      rewrite (IH (from + length (x :: run))%nat fuel) by (simpl; lia).
      rewrite Hdrop. cbn [squeeze app]. rewrite Hp. f_equal.
      symmetry. by apply squeeze_run.
    + assert (Hnone : match_at s (rplus (RChar p)) from = None).
      { unfold match_at, rplus.
        change (rmatch s (RSeq ?a ?b) ?i [] ?k)
          with (rmatch s a i [] (fun j c' => rmatch s b j c' k)).
        apply rmatch_char_miss. unfold jsstring in *. by rewrite Hx. }
      rewrite (matches_from_skip s _ fuel from Hlt Hnone).
      rewrite (replace_walk_shift s _ _ from x Hx).
      * cbn [squeeze]. rewrite Hp. f_equal.
        assert (Hd' : drop (S from) s = l) by (by eapply drop_tail).
        rewrite <- Hd'. apply IH; lia.
      * destruct (matches_from s _ fuel (S from)) as [|m ms] eqn:E; [done|].
        by apply matches_from_head_ge in E.
Qed.

(** [x.replace(/p+/g, b)] squeezes every run of [p] into one [b]. *)
Lemma replace_runs s p b :
  re_replace_g s (rplus (RChar p)) (fun _ => [b]) = squeeze p b false s.
Proof.
  unfold re_replace_g, all_matches.
  rewrite (replace_runs_from s p b (length s) 0 (S (length s))) by lia. by rewrite drop_0.
Qed.

(** ** Single blanks *)

Lemma spaced_weaken b l : spaced b l -> spaced false l.
Proof.
  destruct l as [|c l]; [done|]. cbn [spaced]. intros [H1 H2]. split; [|done].
  intros Hc. destruct (H1 Hc) as [-> _]. done.
Qed.

Lemma spaced_app_l m post : forall b, spaced b (m ++ post) -> spaced b m.
Proof.
  induction m as [|c m IH]; intros b; [done|]. cbn [app spaced]. intros [H1 H2].
  split; [done|]. by apply IH.
Qed.

Lemma spaced_app_r pre m : forall b, spaced b (pre ++ m) -> spaced false m.
Proof.
  induction pre as [|c pre IH]; intros b; cbn [app].
  - apply spaced_weaken.
  - cbn [spaced]. intros [_ H]. by eapply IH.
Qed.

Lemma squeeze_spaced s :
  spaced true (squeeze is_space 32 true s) /\ spaced false (squeeze is_space 32 false s).
Proof.
  induction s as [|c s [IH1 IH2]]; [done|]. cbn [squeeze].
  destruct (is_space c) eqn:E.
  - split; [done|]. cbn [spaced]. split; [done|]. exact IH1.
  - cbn [spaced]. rewrite E. split; (split; [intros; discriminate|exact IH2]).
Qed.

Lemma trim_infix s : exists pre post, s = pre ++ trim s ++ post.
Proof.
  unfold trim. destruct (RecordFacts.trim_start_suffix s) as [pre Hpre].
  destruct (RecordFacts.trim_start_suffix (rev (trim_start s))) as [post Hpost].
  exists pre, (rev post).
  rewrite <- rev_app_distr, <- Hpost, rev_involutive. exact Hpre.
Qed.

(** What [x.replace(/\s+/g, ' ').trim()] returns has white space only as
    single blanks. *)
Lemma collapse_single_spaced x : single_spaced (Scraper.collapse x).
Proof.
  unfold Scraper.collapse, single_spaced, rspace. rewrite replace_runs.
  destruct (trim_infix (squeeze is_space 32 false x)) as (pre & post & E).
  destruct (squeeze_spaced x) as [_ H]. rewrite E in H.
  apply spaced_app_r in H. by apply spaced_app_l in H.
Qed.

Lemma cleanText_single_spaced t : single_spaced (Scraper.cleanText t).
Proof.
  unfold Scraper.cleanText. destruct (negb (truthy t)); [done|].
  apply collapse_single_spaced.
Qed.

(** X24.  In a result of either scraper the only white space in the text
    of a record is the single blank: no tab, line break or other space
    character, and no two blanks in a row.  The same holds of the page
    title [scrapeFacebookPage] reports. *)
Theorem record_texts_single_spaced (h : Host) (b : Browser)
    (o : Scraper.Options) (o' : Optimized.Options)
    (r : Scraper.Result) (r' : Optimized.Result) (evs evs' : list event) :
  Scraper.scrapeFacebookPage h b o = (Return r, evs) ->
  Optimized.scrapeFacebookPageOptimized h b o' = (Return r', evs') ->
  (forall e, e ∈ Scraper.posts r -> single_spaced (Scraper.text (Scraper.post e))) /\
  (forall p, p ∈ Optimized.posts r' -> single_spaced (Optimized.text p)) /\
  (forall t, Scraper.page r = Some t -> single_spaced t).
Proof.
  intros H H'. repeat split.
  - intros e He. destruct (scrape_result_posts h b o r evs H) as [Hout _].
    assert (Hin : Scraper.post e ∈ Scraper.extractPosts (articles b)).
    { eapply subseteq_take. unfold Scraper.slice0 in Hout. rewrite <- Hout.
      by apply list_elem_of_In, in_map, list_elem_of_In. }
    apply extractPosts_have_text in Hin as [_ (a & _ & ->)]. apply cleanText_single_spaced.
  - intros p Hp.
    destruct (result_posts_elem h b o' r' evs' p H' Hp) as (idx & a & _ & -> & Hk).
    apply keep_has_text in Hk as [-> Hne]. apply collapse_single_spaced.
  - intros t Ht. unfold Scraper.scrapeFacebookPage in H.
    destruct (Scraper.FB_PAGE_URL o) as [u|]; [|discriminate].
    destruct (negb (truthy u)); [discriminate|].
    destruct (login_result b); [discriminate|].
    destruct (goto_result b); [discriminate|].
    destruct (Scraper.enrich h _); [|discriminate].
    injection H as <- _. cbn [Scraper.page] in Ht.
    destruct (heading b) as [t0|]; [|discriminate].
    destruct (truthy t0); [|discriminate]. injection Ht as <-.
    unfold Scraper.sanitizeText, single_spaced, rspace. rewrite replace_runs.
    match goal with |- spaced false (trim ?x) =>
      destruct (trim_infix x) as (pre & post & E) end.
    match goal with |- spaced false (trim (squeeze _ _ _ ?x)) =>
      destruct (squeeze_spaced x) as [_ Hs] end.
    rewrite E in Hs. apply spaced_app_r in Hs. by apply spaced_app_l in Hs.
Qed.

Lemma record_texts_single_spaced_witness :
  exists r evs r' evs',
    Scraper.scrapeFacebookPage (utc_host 0) RecordFacts.dated_browser
      RecordFacts.dated_options = (Return r, evs) /\
    Optimized.scrapeFacebookPageOptimized (utc_host 0) RecordFacts.dated_browser
      RecordFacts.dated_options' = (Return r', evs') /\
    (forall e, e ∈ Scraper.posts r -> single_spaced (Scraper.text (Scraper.post e))) /\
    (forall p, p ∈ Optimized.posts r' -> single_spaced (Optimized.text p)) /\
    (forall t, Scraper.page r = Some t -> single_spaced t).
Proof.
  destruct RecordFacts.dated_scrape_returns as (r & evs & E & _).
  destruct RecordFacts.dated_scrape_returns' as (r' & evs' & E').
  exists r, evs, r', evs'. split; [exact E|]. split; [exact E'|].
  exact (record_texts_single_spaced (utc_host 0) RecordFacts.dated_browser
           RecordFacts.dated_options RecordFacts.dated_options' r r' evs evs' E E').
Defined.

End SpacingFacts.

(** * 28. Magnitude words in [parseCount] *)

Module MagnitudeFacts.
Import JS JSDate Utils Dom Matching MatchingFacts UtilsFacts Measures Shapes DigitFacts
  RecordFacts ForwardFacts CountFacts.

Lemma digit_plain_unit c : is_digit c = true -> plain_unit c.
Proof.
  intros H. apply is_digit_range in H as Hr. unfold plain_unit.
  repeat split; try lia.
  - unfold latin_digit, is_arabic_digit, in_range.
    destruct (Z.leb_spec 1632 c); [lia|done].
  - unfold lower_unit, in_range. destruct (Z.leb_spec 65 c); [lia|]. cbn [andb].
    destruct (Z.eqb_spec c 8490); [lia|]. by destruct (Z.eqb_spec c 304); [lia|].
Qed.

(** [parseCount] on a run of digits and a rest that the normalisation
    steps leave as it is. *)
Lemma parseCount_run_plain (ds rest : jsstring) :
  ds <> [] -> Forall digitish ds -> Forall plain_unit rest ->
  match rest with [] => True | x :: _ => is_digit x = false /\ x <> 46 end ->
  (forall x, last rest = Some x -> is_space x = false) ->
  let s := map latin_digit ds ++ rest in
  parseCount (Some (ds ++ rest)) = Some (digits_value (map latin_digit ds) * factor_of s).
Proof.
  intros Hne Hds Hrest Hhead Hlast s.
  assert (Hd : Forall (fun c => is_digit c = true) (map latin_digit ds)).
  { apply Forall_map. eapply Forall_impl; [exact Hds|]. apply latin_digit_digit. }
  assert (Hr : map latin_digit rest = rest).
  { clear -Hrest. induction Hrest as [|c r Hc _ IH]; simpl; [done|]. rewrite IH. f_equal.
    by destruct Hc as [? _]. }
  assert (Hplain : Forall plain_unit s).
  { subst s. apply Forall_app. split; [|done].
    eapply Forall_impl; [exact Hd|]. apply digit_plain_unit. }
  destruct (map latin_digit ds) as [|d ds'] eqn:Eds; [by destruct ds|].
  pose proof (Forall_inv Hd) as Hd0. simpl in Hd0.
  unfold parseCount.
  assert (Htr : truthy (ds ++ rest) = true) by (by destruct ds).
  rewrite Htr. cbn [negb].
  rewrite normalizeArabicDigits_map, map_app, Hr, Eds. fold s.
  assert (Hs : s = d :: (ds' ++ rest)) by done.
  rewrite (trim_id s).
  2: { by rewrite Hs. }
  2: { rewrite Hs. split; [by apply digit_not_space|].
       destruct (last (d :: ds' ++ rest)) as [x|] eqn:El; [|by apply last_None in El].
       exists x. split; [done|].
       change (d :: ds' ++ rest) with ((d :: ds') ++ rest) in El.
       destruct rest as [|r0 rest'] using rev_ind.
       - rewrite app_nil_r in El. apply digit_not_space.
         rewrite Forall_forall in Hd. apply Hd.
         rewrite last_lookup in El. by eapply list_elem_of_lookup_2.
       - rewrite app_assoc, last_snoc in El. injection El as ->.
         apply Hlast. by rewrite last_snoc. }
  rewrite (toLowerCase_id s) by (eapply Forall_impl; [exact Hplain|]; by intros c (_ & ? & _)).
  unfold chr.
  rewrite (replace_absent s (Z.eqb 1643))
    by (eapply Forall_impl; [exact Hplain|]; intros c (_ & _ & ? & _); apply Z.eqb_neq; lia).
  rewrite (replace_absent s (Z.eqb 1644))
    by (eapply Forall_impl; [exact Hplain|]; intros c (_ & _ & _ & ?); apply Z.eqb_neq; lia).
  assert (Hm : re_match s re_number
               = Some (mkMatch 0 (S (length ds')) [(1%nat, (0%nat, S (length ds')))])).
  { subst s. by apply number_token. }
  rewrite Hm. unfold m_group. cbn [m_caps cap_lookup Nat.eqb].
  assert (Hsub : substring s 0 (S (length ds')) = d :: ds').
  { unfold substring. rewrite Nat.sub_0_r, drop_0. subst s.
    change (S (length ds')) with (length (d :: ds')). by rewrite take_app_length. }
  rewrite Hsub, (parseFloat_digits d ds' Hd), round_scaled_whole. done.
Qed.

(** A magnitude word is found only where its first letter stands at a
    word boundary. *)
Lemma word_test_inv_at alts s :
  re_test (word_re alts) s = true ->
  exists i w, w ∈ alts /\ word_boundary s i = true /\
              forall x, head w = Some x -> s !! i = Some x.
Proof.
  unfold re_test. destruct (re_exec s (word_re alts) 0) as [m|] eqn:E; [|discriminate].
  intros _. apply re_exec_sound in E. unfold word_re in E. cbn [rseq] in E.
  apply seq_inv in E as (j1 & c1 & H1 & E).
  apply seq_inv in E as (j2 & c2 & H2 & _).
  apply wordb_holds in H1 as [B1 ->].
  apply group_inv in H2 as (c3 & H2 & _).
  apply ralt_inv in H2 as (r & Hr & H2).
  apply list_elem_of_In, in_map_iff in Hr as (w & <- & Hw).
  exists (m_start m), w. split; [by apply list_elem_of_In|]. split; [done|].
  intros x Hx. destruct w as [|y w]; [discriminate|]. injection Hx as ->.
  by apply lit_head in H2.
Qed.

(** Between a non-word character and a character that is not a word
    character either there is no word boundary: [\b] is blind to Arabic
    letters. *)
Lemma no_boundary_after_blank ds rest i x :
  Forall (fun c => is_digit c = true) ds ->
  Forall (fun c => is_word c = false) rest ->
  (ds ++ 32 :: rest) !! i = Some x -> is_word x = false -> x <> 32 ->
  word_boundary (ds ++ 32 :: rest) i = false.
Proof.
  intros Hds Hrest Hi Hx Hx32.
  unfold word_boundary, word_at. unfold jsstring in *. rewrite Hi, Hx.
  assert (Hge : (length ds < i)%nat).
  { destruct (decide (i < length ds)%nat) as [Hlt|Hge].
    - rewrite lookup_app_l in Hi by done. apply list_elem_of_lookup_2 in Hi.
      rewrite Forall_forall in Hds. apply Hds, digit_is_word in Hi. congruence.
    - destruct (decide (i = length ds)) as [->|]; [|lia].
      rewrite lookup_app_r, Nat.sub_diag in Hi by lia. by injection Hi as <-. }
  destruct i as [|i]; [lia|]. unfold word_before.
  destruct (decide (i = length ds)) as [->|Hne].
  - unfold jsstring in *. rewrite lookup_app_r, Nat.sub_diag by lia. done.
  - unfold jsstring in *. rewrite lookup_app_r by lia.
    replace (i - length ds)%nat with (S (i - length ds - 1)) by lia. cbn [lookup list_lookup].
    destruct (rest !! (i - length ds - 1)%nat) as [y|] eqn:Ey; [|done].
    apply list_elem_of_lookup_2 in Ey. rewrite Forall_forall in Hrest.
    by rewrite (Hrest y Ey).
Qed.

Lemma magnitude_word_letters w :
  w ∈ magnitude_words ->
  Forall (fun c => plain_unit c /\ is_word c = false /\ is_digit c = false /\
                   is_space c = false /\ c <> 32 /\ c <> 46 /\
                   c <> 107 /\ c <> 109 /\ c <> 98) w /\ w <> [].
Proof.
  unfold magnitude_words. intros Hw.
  repeat (apply elem_of_cons in Hw as [->|Hw];
          [split; [|done]; repeat constructor; try done; try lia|]).
  by apply elem_of_nil in Hw.
Qed.

(** X25.  [parseCount] does not apply an Arabic magnitude word that is
    written as a word of its own: for a run of at most 15 digits writing
    [v], [parseCount] of the digits, a blank and one of the six words for
    thousand, million and billion is [v].  The patterns look for the
    word between two [\b], and [\b] sees no boundary between a blank, or
    the end of the text, and an Arabic letter. *)
Theorem parseCount_arabic_magnitude_ignored (ds w : jsstring) :
  ds <> [] -> Forall digitish ds -> (length ds <= 15)%nat ->
  w ∈ magnitude_words ->
  parseCount (Some (ds ++ 32 :: w)) = Some (digits_value (map latin_digit ds)).
Proof.
  intros Hne Hds _ Hw.
  destruct (magnitude_word_letters w Hw) as [Hl Hwne].
  assert (Hd : Forall (fun c => is_digit c = true) (map latin_digit ds)).
  { apply Forall_map. eapply Forall_impl; [exact Hds|]. apply latin_digit_digit. }
  pose proof (parseCount_run_plain ds (32 :: w) Hne Hds) as H. cbv zeta in H.
  etrans; [apply H|]; clear H.
  - constructor; [by vm_compute|]. eapply Forall_impl; [exact Hl|]. by intros c (? & _).
  - split; [reflexivity|lia].
  - intros x Hx. change (32 :: w) with ([32] ++ w) in Hx.
    destruct w as [|c w'] using rev_ind; [done|].
    rewrite app_assoc, last_snoc in Hx. injection Hx as <-.
    apply Forall_app in Hl as [_ Hc]. apply Forall_inv in Hc. tauto.
  - f_equal. set (s := map latin_digit ds ++ 32 :: w).
    assert (Hnw : Forall (fun c => is_word c = false) w).
    { eapply Forall_impl; [exact Hl|]. by intros c (_ & ? & _). }
    assert (Har : forall alts, (forall a, a ∈ alts -> exists x a', a = x :: a' /\
                                  is_word x = false /\ x <> 32) ->
                  re_test (word_re alts) s = false).
    { intros alts Ha. destruct (re_test (word_re alts) s) eqn:E; [exfalso|done].
      apply word_test_inv_at in E as (i & a & Hin & Hb & Hx).
      destruct (Ha a Hin) as (x & a' & -> & Hxw & Hx32).
      specialize (Hx x eq_refl).
      pose proof (no_boundary_after_blank _ w i x Hd Hnw Hx Hxw Hx32) as Hnb.
      pose proof (eq_trans (eq_sym Hb) Hnb). discriminate. }
    assert (Hab : forall u, is_digit u = false -> u <> 32 -> u ∉ w -> u ∉ s).
    { intros u Hu H32 Huw Hin. subst s. apply elem_of_app in Hin as [Hin|Hin].
      - by apply (digits_lack_letter u _ Hd Hu).
      - apply elem_of_cons in Hin as [->|Hin]; done. }
    assert (Hkmb : (107 ∉ w) /\ (109 ∉ w) /\ (98 ∉ w)).
    { rewrite Forall_forall in Hl. repeat split; intros Hin; apply Hl in Hin; lia. }
    destruct Hkmb as (K & M & B).
    unfold factor_of, re_thousand, re_million, re_billion, re_k, re_m, re_b.
    rewrite !Har.
    + rewrite !letter_test_absent by (apply Hab; done). lia.
    + intros a Ha. repeat (apply elem_of_cons in Ha as [->|Ha]; [by eexists _, _|]).
      by apply elem_of_nil in Ha.
    + intros a Ha. repeat (apply elem_of_cons in Ha as [->|Ha]; [by eexists _, _|]).
      by apply elem_of_nil in Ha.
    + intros a Ha. repeat (apply elem_of_cons in Ha as [->|Ha]; [by eexists _, _|]).
      by apply elem_of_nil in Ha.
Qed.

(** "5 thousand", with an Arabic-Indic digit. *)
Lemma parseCount_arabic_magnitude_ignored_witness :
  parseCount (Some [0x665; 32; 0x623; 0x644; 0x641]) = Some 5.
Proof.
  apply (parseCount_arabic_magnitude_ignored [0x665] [0x623; 0x644; 0x641]).
  - discriminate.
  - constructor; [right; reflexivity|constructor].
  - simpl. lia.
  - unfold magnitude_words. apply elem_of_cons. right. apply elem_of_cons. by left.
Defined.

End MagnitudeFacts.

(** * 29. The header scan *)

Module HeaderFacts.
Import JS JSDate Utils Dom Matching MatchingFacts UtilsFacts Measures Shapes DigitFacts
  RecordFacts ForwardFacts CountFacts MagnitudeFacts Header.













Lemma lit_i_head s x w i c j c' :
  matches s (lit_i (x :: w)) i c j c' -> exists y, s !! i = Some y /\ canon y = canon x.
Proof.
  unfold lit_i. destruct w as [|z w]; cbn [map rseq]; intros H.
  - apply char_inv in H as (_ & _ & y & Hy & Hx). apply Z.eqb_eq in Hx. eauto.
  - apply seq_inv in H as (j1 & c1 & H & _).
    apply char_inv in H as (_ & _ & y & Hy & Hx). apply Z.eqb_eq in Hx. eauto.
Qed.

Lemma canon_arabic y a : 0x600 <= a <= 0x6FF -> canon y = canon a -> y = a.
Proof.
  unfold canon, in_range. intros Ha.
  destruct (Z.leb_spec 97 a); [|lia]. destruct (Z.leb_spec a 122); [lia|]. cbn [andb].
  destruct (Z.leb_spec 97 y), (Z.leb_spec y 122); cbn [andb]; lia.
Qed.

Lemma natural_lookup t : natural t = true ->
  forall i x y, t !! i = Some x -> t !! S i = Some y ->
    is_word x = true -> in_range 0x600 0x6FF y = false.
Proof.
  induction t as [|a t IH]; intros Hn i x y Hx Hy Hw; [done|].
  cbn [natural] in Hn. destruct t as [|b t]; [by destruct i|].
  apply andb_true_iff in Hn as [Hab Hn].
  destruct i as [|i].
  - cbn in Hx, Hy. injection Hx as ->. injection Hy as ->.
    rewrite Hw in Hab. cbn [andb] in Hab. by destruct (in_range 1536 1791 y).
  - by apply (IH Hn i x y).
Qed.

(** In a natural text no word boundary stands before an Arabic letter. *)
Lemma natural_no_boundary t i a :
  natural t = true -> t !! i = Some a -> 0x600 <= a <= 0x6FF -> word_boundary t i = false.
Proof.
  intros Hn0 Ha Hr. pose proof (natural_lookup t Hn0) as Hn. unfold word_boundary, word_at. unfold jsstring in *. rewrite Ha.
  assert (Hw : is_word a = false).
  { unfold is_word, is_digit, in_range.
    repeat match goal with
           | |- context [?x <=? ?y] => destruct (Z.leb_spec x y); try lia
           | |- context [?x =? ?y] => destruct (Z.eqb_spec x y); try lia
           end; reflexivity. }
  rewrite Hw. unfold word_before. unfold jsstring in *. destruct i as [|i]; [done|].
  destruct (t !! i) as [x|] eqn:Hx; [|done].
  destruct (is_word x) eqn:Ex; [|done].
  pose proof (Hn i x a Hx Ha Ex) as Hc. unfold in_range in Hc.
  destruct (Z.leb_spec 1536 a), (Z.leb_spec a 1791); cbn [andb] in Hc; first [lia|discriminate].
Qed.

(** A pattern that asks for a word boundary and then an Arabic word finds
    nothing in a natural text. *)
Lemma arabic_label_unseen t (r : regex) rest :
  natural t = true ->
  (forall i c j c', matches t r i c j c' ->
     exists a, t !! i = Some a /\ 0x600 <= a <= 0x6FF) ->
  re_test (RSeq RWordB (RSeq r rest)) t = false.
Proof.
  intros Hn Hr. destruct (re_test _ t) eqn:E; [exfalso|done].
  unfold re_test in E. destruct (re_exec t _ 0) as [m|] eqn:Em; [|discriminate].
  apply re_exec_sound in Em.
  apply seq_inv in Em as (j1 & c1 & H1 & Em).
  apply seq_inv in Em as (j2 & c2 & H2 & _).
  apply wordb_holds in H1 as [B ->].
  destruct (Hr _ _ _ _ H2) as (a & Ha & Hra).
  by rewrite (natural_no_boundary t _ a Hn Ha Hra) in B.
Qed.

Lemma following_unseen t : natural t = true -> re_test re_following t = false.
Proof.
  intros Hn. unfold re_following. cbn [rseq]. apply arabic_label_unseen; [done|].
  intros i c j c' H. apply lit_head in H. exists 0x64A. split; [done|lia].
Qed.

Lemma followers_ar_unseen t : natural t = true -> re_test re_followers_ar t = false.
Proof.
  intros Hn. unfold re_followers_ar. cbn [rseq].
  change (RSeq RWordB (RSeq ?a RWordB)) with (RSeq RWordB (RSeq a RWordB)).
  apply arabic_label_unseen; [done|].
  intros i c j c' H. apply lit_i_head in H as (y & Hy & Hc).
  apply canon_arabic in Hc; [|lia]. subst y. exists 0x627. split; [done|lia].
Qed.

(** The matcher finds the one way such a pattern can match. *)
Lemma plain_complete s r i c j c' :
  matches s r i c j c' -> plain_pattern r = true ->
  forall k, rmatch s r i c k = k j c'.
Proof.
  induction 1 as [i c|p i c x Hx Hp|a b i c j c' k' c'' Ha IHa Hb IHb| | | |
                  |n a i c j c' Ha IHa|i c Hw]; intros Hd kk; try discriminate.
  - reflexivity.
  - by apply rmatch_char_hit with x.
  - cbn [plain_pattern] in Hd. apply andb_true_iff in Hd as [Hda Hdb].
    rewrite rmatch_seq, (IHa Hda). by apply IHb.
  - cbn [plain_pattern] in Hd. rewrite rmatch_group. by rewrite (IHa Hd).
  - cbn [rmatch]. by rewrite Hw.
Qed.

Lemma likes_label_english t :
  natural t = true -> re_test re_likes_label t = true -> re_test re_likes_en t = true.
Proof.
  intros Hn E. unfold re_test in E.
  destruct (re_exec t re_likes_label 0) as [m|] eqn:Em; [|discriminate]. clear E.
  apply re_exec_sound in Em. unfold re_likes_label in Em. cbn [rseq] in Em.
  apply seq_inv in Em as (j1 & c1 & H1 & Em).
  apply seq_inv in Em as (j2 & c2 & H2 & H3).
  pose proof H1 as H1'. apply wordb_holds in H1' as [B E1]. subst j1.
  apply group_inv in H2 as (c3 & H2 & ->).
  apply ralt_inv in H2 as (r & Hr & H2).
  apply list_elem_of_In, in_map_iff in Hr as (w & <- & Hw).
  apply in_app_or in Hw as [Hw|Hw].
  - exfalso. unfold likes_words in Hw. cbn [In] in Hw.
    assert (Hh : exists a w', w = a :: w' /\ 0x600 <= a <= 0x6FF).
    { destruct Hw as [<-|[<-|[<-|[<-|[]]]]]; eexists _, _; (split; [reflexivity|lia]). }
    destruct Hh as (a & w' & -> & Ha).
    apply lit_i_head in H2 as (y & Hy & Hc). apply canon_arabic in Hc; [|lia]. subst y.
    by rewrite (natural_no_boundary t _ a Hn Hy Ha) in B.
  - destruct Hw as [<-|[]].
    assert (Hlt : (m_start m < length t)%nat).
    { apply lit_i_head in H2 as (y & Hy & _). by eapply lookup_lt_Some. }
    apply (re_test_finds t _ (m_start m)); [lia|].
    unfold match_at, re_likes_en. cbn [rseq].
    apply wordb_holds in H3 as [B3 _].
    assert (Hm : matches t (RSeq RWordB (RSeq (lit_i (str "likes")) RWordB))
                   (m_start m) [] j2 c3).
    { eapply M_seq; [exact H1|]. eapply M_seq; [exact H2|]. by apply M_wordb. }
    by rewrite (plain_complete _ _ _ _ _ _ Hm eq_refl).
Qed.

(** What the loop over the chips keeps. *)
Lemma chips_loop_labels (all : list jsstring) : forall chips followers likes,
  (forall t, t ∈ chips -> t ∈ all /\ natural t = true) ->
  let seen (re : regex) :=
    exists t, t ∈ all /\ re_test re t = true /\ toNumberSmart (Some t) <> None in
  (followers <> None -> seen re_followers_en) ->
  (likes <> None -> seen re_likes_en) ->
  (fst (chips_loop chips followers likes) <> None -> seen re_followers_en) /\
  (snd (chips_loop chips followers likes) <> None -> seen re_likes_en).
Proof.
  induction chips as [|t chips IH]; intros followers likes Hall seen Hf Hl; [done|].
  cbn [chips_loop].
  destruct (Hall t) as [Hin Hn]; [by left|].
  assert (Hrest : forall u, u ∈ chips -> u ∈ all /\ natural u = true).
  { intros u Hu. apply Hall. by right. }
  rewrite (following_unseen t Hn), (followers_ar_unseen t Hn). cbn [orb].
  apply IH; [done| |].
  - destruct (re_test re_followers_en t) eqn:E; [|done].
    destruct (toNumberSmart (Some t)) as [v|] eqn:Ev; [|done].
    intros _. exists t. split; [done|]. split; [done|]. by rewrite Ev.
  - destruct (re_test re_likes_label t) eqn:E; [|done].
    destruct (toNumberSmart (Some t)) as [v|] eqn:Ev; [|done].
    intros _. exists t. split; [done|]. split; [by apply likes_label_english|]. by rewrite Ev.
Qed.

(** X27.  [extractFromHeaderChips] does not see the Arabic labels: when in
    no chip an Arabic letter is written directly after an ASCII letter,
    a digit or an underscore, a follower count is found only if some
    chip holds [followers], and a like count only if some chip holds the
    word [likes], each in ASCII letters and with a number
    [toNumberSmart] can read.  The tests for the Arabic words ask for a
    word boundary before the word, and there is none before an Arabic
    letter that follows a blank or opens the text. *)
Theorem header_chips_arabic_labels_unseen (texts : list jsstring) :
  (forall t, t ∈ chip_texts texts -> natural t = true) ->
  let seen (re : regex) :=
    exists t, t ∈ chip_texts texts /\ re_test re t = true /\
              toNumberSmart (Some t) <> None in
  (fst (extractFromHeaderChips texts) <> None -> seen re_followers_en) /\
  (snd (extractFromHeaderChips texts) <> None -> seen re_likes_en).
Proof.
  intros Hn seen. unfold extractFromHeaderChips.
  apply (chips_loop_labels (chip_texts texts)); [|done|done].
  intros t Ht. split; [done|by apply Hn].
Qed.

(** Followers and likes as a page in Arabic shows them. *)
Definition arabic_header : list jsstring :=
  [[0x627; 0x644; 0x645; 0x62A; 0x627; 0x628; 0x639; 0x648; 0x646; 32; 49; 44; 50; 51; 52];
   [53; 54; 32; 0x625; 0x639; 0x62C; 0x627; 0x628]].

Lemma header_chips_arabic_labels_unseen_witness :
  (fst (extractFromHeaderChips arabic_header) <> None ->
   exists t, t ∈ chip_texts arabic_header /\ re_test re_followers_en t = true /\
             toNumberSmart (Some t) <> None) /\
  (snd (extractFromHeaderChips arabic_header) <> None ->
   exists t, t ∈ chip_texts arabic_header /\ re_test re_likes_en t = true /\
             toNumberSmart (Some t) <> None).
Proof.
  apply (header_chips_arabic_labels_unseen arabic_header).
  intros t Ht. change (chip_texts arabic_header) with arabic_header in Ht.
  unfold arabic_header in Ht.
  repeat (apply elem_of_cons in Ht as [->|Ht]; [reflexivity|]).
  by apply elem_of_nil in Ht.
Defined.

End HeaderFacts.
